(** * compile_benchmark_files: merging per-run benchmark documents

    A shallow embedding of [tools/compile_benchmark_files.py] and the
    properties of its merge algorithm.

    The development has two layers.  The value layer reads the program as a
    function on the trees the JSON decoder builds; it is where the extractor,
    the aggregator, the deduplicator and the shape of the output document are
    stated and proved.  The store layer replays the same statements on a heap
    of mutable objects, so that questions of copying and aliasing can be
    asked of the code as it is written. *)

From Stdlib Require Import ZArith QArith Qpower String Ascii List Bool Lia.
From Stdlib Require Import Permutation Sorted DecimalString SpecFloat.
From Stdlib Require Import DecimalZ DecimalPos.
From Stdlib Require Import OrderedTypeEx.
From stdpp Require Import base list sorting.

Import ListNotations.
Set Warnings "-register-all".
Local Open Scope string_scope.
Local Open Scope Z_scope.

(** ** Data model *)

(** What [json.load] hands to the program: [None], [bool], [int], [float],
    [str], [list] and [dict] with text keys.  An [int] is unbounded; a
    [float] is a binary64 value, kept as the sign, mantissa and exponent it
    denotes.  A character of a [str] is a code point below 256.  A [dict]
    keeps its entries in insertion order. *)
Inductive value : Type :=
| VNone
| VBool (b : bool)
| VInt (n : Z)
| VFloat (f : spec_float)
| VStr (s : string)
| VList (items : list value)
| VDict (entries : list (string * value)).

(** The keys a [dict] built by the program itself can hold: the hashable
    scalars.  [dict(b)] on a list of pairs takes whatever hashable first
    components it meets. *)
Inductive hkey : Type :=
| KNone
| KBool (b : bool)
| KInt (n : Z)
| KFloat (f : spec_float)
| KStr (s : string).

(** Exceptions the modelled code can end with. *)
Inductive exn : Type :=
| TypeError
| ValueError
| AttributeError
| SystemExit (msg : string).

Inductive result (A : Type) : Type :=
| Ok (a : A)
| Raise (e : exn).
Arguments Ok {A} a.
Arguments Raise {A} e.

Definition bind {A B} (r : result A) (k : A -> result B) : result B :=
  match r with
  | Ok a => k a
  | Raise e => Raise e
  end.

Declare Scope result_scope.
Delimit Scope result_scope with result.
Notation "'do' x <- r ; k" := (bind r (fun x => k))
  (at level 10, x pattern, r at level 100, k at level 200) : result_scope.
Local Open Scope result_scope.

(** Structural induction that reaches inside lists and dicts. *)
Section value_induction.
Variable P : value -> Prop.
Hypothesis HNone : P VNone.
Hypothesis HBool : forall b, P (VBool b).
Hypothesis HInt : forall n, P (VInt n).
Hypothesis HFloat : forall f, P (VFloat f).
Hypothesis HStr : forall s, P (VStr s).
Hypothesis HList : forall items, Forall P items -> P (VList items).
Hypothesis HDict :
  forall entries, Forall (fun kv => P (snd kv)) entries -> P (VDict entries).

Fixpoint value_nested_ind (v : value) : P v :=
  match v with
  | VNone => HNone
  | VBool b => HBool b
  | VInt n => HInt n
  | VFloat f => HFloat f
  | VStr s => HStr s
  | VList items =>
      HList items
        ((fix go (l : list value) : Forall P l :=
            match l with
            | [] => @List.Forall_nil _ P
            | x :: r => @List.Forall_cons _ P x r (value_nested_ind x) (go r)
            end) items)
  | VDict entries =>
      HDict entries
        ((fix go (l : list (string * value)) : Forall (fun kv => P (snd kv)) l :=
            match l with
            | [] => @List.Forall_nil _ _
            | kv :: r =>
                @List.Forall_cons _ (fun kv => P (snd kv)) kv r
                  (value_nested_ind (snd kv)) (go r)
            end) entries)
  end.
End value_induction.

(** ** Dictionaries in insertion order *)

Section assoc.
Context {K V : Type} (eqb : K -> K -> bool).

(** [d.get(k)] *)
Fixpoint assoc_get (d : list (K * V)) (k : K) : option V :=
  match d with
  | [] => None
  | (k', v) :: r => if eqb k k' then Some v else assoc_get r k
  end.

(** [k in d] *)
Definition assoc_has (d : list (K * V)) (k : K) : bool :=
  match assoc_get d k with Some _ => true | None => false end.

(** [d[k] = v]: an existing key keeps its place, a new one goes last. *)
Fixpoint assoc_set (d : list (K * V)) (k : K) (v : V) : list (K * V) :=
  match d with
  | [] => [(k, v)]
  | (k', v') :: r =>
      if eqb k k' then (k', v) :: r else (k', v') :: assoc_set r k v
  end.
End assoc.

Definition dict_get := @assoc_get string value String.eqb.
Definition dict_has := @assoc_has string value String.eqb.
Definition dict_set := @assoc_set string value String.eqb.

(** ** The record extractor: [load_first_benchmark] *)

Definition is_dict (v : value) : bool :=
  match v with VDict _ => true | _ => false end.

Definition is_list (v : value) : bool :=
  match v with VList _ => true | _ => false end.

(** Lines 34-40, on the decoded document [data].  The three tests are tried
    in the order they are written; [VNone] is Python's [None]. *)
Definition first_benchmark (data : value) : value :=
  match data with
  | VDict d =>
      match dict_get d "benchmarks" with
      | Some (VList (x :: _)) => x
      | _ => if dict_has d "type_" then data else VNone
      end
  | VList (x :: _) => x
  | _ => VNone
  end.

(** A file of the input directory, as [open] and [json.load] find it:
    unreadable or not JSON ([None]), or a document. *)
Definition file : Type := option value.

(** The decoder fills a [dict] pair by pair, so a key written twice keeps
    its first place and its last value. *)
Fixpoint json_load (doc : value) : value :=
  match doc with
  | VList items => VList (map json_load items)
  | VDict entries =>
      VDict (fold_left (fun d kv => dict_set d (fst kv) (snd kv))
               (map (fun kv => (fst kv, json_load (snd kv))) entries) [])
  | _ => doc
  end.

(** Lines 26-40: a failure of [open] or [json.load] is caught and answered
    with [None]. *)
Definition load_first_benchmark (f : file) : value :=
  match f with
  | None => VNone
  | Some doc => first_benchmark (json_load doc)
  end.

(** ** Numbers, equality and hashing *)

(** The exact value of a number: [bool] and [int] compare with [float] by
    value, with no rounding. *)
Inductive num : Type :=
| NNan
| NInf (negative : bool)
| NFin (q : Q).

Definition float_num (f : spec_float) : num :=
  match f with
  | S754_zero _ => NFin 0
  | S754_infinity s => NInf s
  | S754_nan => NNan
  | S754_finite s m e =>
      let q := (inject_Z (Zpos m) * Qpower 2 e)%Q in
      NFin (if s then Qopp q else q)
  end.

Definition bool_num (b : bool) : num := NFin (inject_Z (if b then 1 else 0)).
Definition int_num (n : Z) : num := NFin (inject_Z n).

(** [x < y] on numbers; every comparison with NaN is false. *)
Definition num_ltb (x y : num) : bool :=
  match x, y with
  | NNan, _ | _, NNan => false
  | NInf s, NInf t => s && negb t
  | NInf s, NFin _ => s
  | NFin _, NInf t => negb t
  | NFin p, NFin q => negb (Qle_bool q p)
  end.

(** Identity or [==], the test containers and sets apply.  The decoder has
    one NaN object, so a NaN it produced is found equal to itself. *)
Definition num_same (x y : num) : bool :=
  match x, y with
  | NNan, NNan => true
  | NInf s, NInf t => Bool.eqb s t
  | NFin p, NFin q => Qeq_bool p q
  | _, _ => false
  end.

Definition hkey_num (k : hkey) : option num :=
  match k with
  | KBool b => Some (bool_num b)
  | KInt n => Some (int_num n)
  | KFloat f => Some (float_num f)
  | _ => None
  end.

(** Equal keys of a [set] or [dict]: equal hash and [==]. *)
Definition hkey_eqb (a b : hkey) : bool :=
  match a, b with
  | KNone, KNone => true
  | KStr s, KStr t => String.eqb s t
  | _, _ =>
      match hkey_num a, hkey_num b with
      | Some x, Some y => num_same x y
      | _, _ => false
      end
  end.

(** The hashable values; a [list] or a [dict] is not. *)
Definition to_hkey (v : value) : option hkey :=
  match v with
  | VNone => Some KNone
  | VBool b => Some (KBool b)
  | VInt n => Some (KInt n)
  | VFloat f => Some (KFloat f)
  | VStr s => Some (KStr s)
  | _ => None
  end.

Definition of_hkey (k : hkey) : value :=
  match k with
  | KNone => VNone
  | KBool b => VBool b
  | KInt n => VInt n
  | KFloat f => VFloat f
  | KStr s => VStr s
  end.

Definition value_num (v : value) : option num :=
  match v with
  | VBool b => Some (bool_num b)
  | VInt n => Some (int_num n)
  | VFloat f => Some (float_num f)
  | _ => None
  end.

(** Identity or [==] on decoded values.  Two dicts are the same when each
    holds the other's entries, whatever their order. *)
Fixpoint py_same (a b : value) : bool :=
  match a, b with
  | VNone, VNone => true
  | VStr s, VStr t => String.eqb s t
  | VList la, VList lb =>
      (fix go (la lb : list value) : bool :=
         match la, lb with
         | [], [] => true
         | x :: la', y :: lb' => py_same x y && go la' lb'
         | _, _ => false
         end) la lb
  | VDict da, VDict db =>
      (fix sub (l : list (string * value)) : bool :=
         match l with
         | [] => true
         | (k, v) :: r =>
             match dict_get db k with
             | Some w => py_same v w
             | None => false
             end && sub r
         end) da
      &&
      (fix sup (l : list (string * value)) : bool :=
         match l with
         | [] => true
         | (k, w) :: r =>
             (fix find (l' : list (string * value)) : bool :=
                match l' with
                | [] => false
                | (k', v) :: r' =>
                    if String.eqb k k' then py_same v w else find r'
                end) da && sup r
         end) db
  | _, _ =>
      match value_num a, value_num b with
      | Some x, Some y => num_same x y
      | _, _ => false
      end
  end.

(** [a < b], which raises [TypeError] between values of different kinds,
    between two [None] and between two dicts.  Lists compare by their first
    differing items, then by length. *)
Fixpoint py_lt (a b : value) : result bool :=
  match a, b with
  | VStr s, VStr t => Ok (String.ltb s t)
  | VList la, VList lb =>
      (fix go (la lb : list value) : result bool :=
         match la, lb with
         | [], [] => Ok false
         | [], _ :: _ => Ok true
         | _ :: _, [] => Ok false
         | x :: la', y :: lb' =>
             if py_same x y then go la' lb' else py_lt x y
         end) la lb
  | _, _ =>
      match value_num a, value_num b with
      | Some x, Some y => Ok (num_ltb x y)
      | _, _ => Raise TypeError
      end
  end.

(** [sorted(seq)], as a stable insertion sort.  The sorted prefix is kept
    last item first; [pivot] moves left while it is below the item it
    meets, the test [list.sort] makes.  A comparison that raises ends the
    sort.  On items that [<] orders totally every stable sort returns the
    same list, so this is [list.sort]'s answer there; and where some pair
    of NaN-free items makes [<] raise, every sort has to compare such a
    pair, so both raise.  With a NaN among the items [<] answers [False]
    both ways and is no order: which pairs are compared then decides the
    outcome, [list.sort] compares other pairs than this loop, and the two
    can return different lists (of 5, 4, NaN, 1 this loop makes 4, 5,
    NaN, 1 where the binary insertion of [list.sort] makes 1, 4, 5, NaN).
    On a list that holds a NaN this loop's answer is therefore not to be
    read as [list.sort]'s, beyond its being a rearrangement of the list.
    The items are compared through [view], so that the same loop sorts
    values and references to them. *)
Section sorting.
Context {A : Type} (view : A -> value).

Fixpoint sorted_insert (pivot : A) (rprefix : list A) : result (list A) :=
  match rprefix with
  | [] => Ok [pivot]
  | e :: r =>
      do b <- py_lt (view pivot) (view e);
      if b then (do r' <- sorted_insert pivot r; Ok (e :: r'))
      else Ok (pivot :: rprefix)
  end.

Fixpoint sorted_loop (seq rprefix : list A) : result (list A) :=
  match seq with
  | [] => Ok rprefix
  | x :: rest => do p <- sorted_insert x rprefix; sorted_loop rest p
  end.

Definition sorted_by (seq : list A) : result (list A) :=
  do r <- sorted_loop seq []; Ok (rev r).
End sorting.

Definition sorted (seq : list value) : result (list value) :=
  sorted_by (fun x => x) seq.

(** ** Text: paths and the JSON encoder *)

Definition slash : ascii := ascii_of_N 47.
Definition dquote : ascii := ascii_of_N 34.
Definition backslash : ascii := ascii_of_N 92.

(** [os.path.basename(p)]: what follows the last separator. *)
Fixpoint basename_from (acc p : string) : string :=
  match p with
  | EmptyString => acc
  | String c r =>
      if Ascii.eqb c slash then basename_from EmptyString r
      else basename_from (acc ++ String c EmptyString) r
  end.

Definition basename (p : string) : string := basename_from EmptyString p.

(** [p.rstrip('/')] *)
Fixpoint rstrip_slash (p : string) : string :=
  match p with
  | EmptyString => EmptyString
  | String c r =>
      match rstrip_slash r with
      | EmptyString => if Ascii.eqb c slash then EmptyString else String c EmptyString
      | r' => String c r'
      end
  end.

(** Insertion of a keyed entry into a list sorted by key, before the first
    entry that is not below it. *)
Fixpoint insert_by_key {A} (kv : string * A) (l : list (string * A))
  : list (string * A) :=
  match l with
  | [] => [kv]
  | x :: r =>
      if String.ltb (fst x) (fst kv) then x :: insert_by_key kv r
      else kv :: l
  end.

(** [sorted(pairs)] when no two pairs share their first component. *)
Definition sort_by_key {A} (l : list (string * A)) : list (string * A) :=
  fold_right insert_by_key [] l.

Definition hex_digit (n : N) : ascii :=
  ascii_of_N (if (n <? 10)%N then 48 + n else 87 + n).

(** One character as [json.dumps] writes it with [ensure_ascii]: the quote
    and the backslash behind a backslash, the short escapes, and [\u00xx]
    for whatever is not between space and tilde. *)
Definition escape_char (c : ascii) : string :=
  let n := N_of_ascii c in
  if (n =? 34)%N then String backslash (String dquote EmptyString)
  else if (n =? 92)%N then String backslash (String backslash EmptyString)
  else if (n =? 10)%N then "\n"
  else if (n =? 13)%N then "\r"
  else if (n =? 9)%N then "\t"
  else if (n =? 12)%N then "\f"
  else if (n =? 8)%N then "\b"
  else if ((n <? 32) || (126 <? n))%N
       then "\u00" ++ String (hex_digit (n / 16)) (String (hex_digit (n mod 16)) EmptyString)
  else String c EmptyString.

Fixpoint escape (s : string) : string :=
  match s with
  | EmptyString => EmptyString
  | String c r => escape_char c ++ escape r
  end.

Definition quoted (s : string) : string :=
  String dquote (escape s ++ String dquote EmptyString).

(** [str(n)] for an [int]. *)
Definition int_repr (n : Z) : string := NilZero.string_of_int (Z.to_int n).

(** ** The merge: [merge_benchmark_files] *)

(** A record of the accumulated list: a [dict] made by the program. *)
Definition record : Type := list (hkey * value).

Definition rec_get := @assoc_get hkey value hkey_eqb.
Definition rec_set := @assoc_set hkey value hkey_eqb.

(** The four running lists of lines 59-62. *)
Record sweep : Type := Sweep {
  measured_rates : list value;
  measured_concurrencies : list value;
  streams : list value;
  strategy_types : list value
}.

(** The output document, [{'benchmarks': out_benchmarks}]. *)
Record document : Type := Document { benchmarks : list record }.

(** One pair of the sequence [dict(b)] walks: a sequence of length two
    whose first item is hashable. *)
Definition item_pair (item : value) : result (hkey * value) :=
  match item with
  | VList [k; v] =>
      match to_hkey k with
      | Some hk => Ok (hk, v)
      | None => Raise TypeError
      end
  | VList _ => Raise ValueError
  | VStr (String a (String b EmptyString)) =>
      Ok (KStr (String a EmptyString), VStr (String b EmptyString))
  | VStr _ => Raise ValueError
  | VDict [(k1, _); (k2, _)] => Ok (KStr k1, VStr k2)
  | VDict _ => Raise ValueError
  | _ => Raise TypeError
  end.

Fixpoint dict_of_pairs (items : list value) (d : record) : result record :=
  match items with
  | [] => Ok d
  | item :: rest =>
      do kv <- item_pair item;
      dict_of_pairs rest (rec_set d (fst kv) (snd kv))
  end.

(** [dict(b)], line 51: a copy of a dict; a dict built from a sequence of
    pairs; [TypeError] on what cannot be iterated. *)
Definition py_dict (b : value) : result record :=
  match b with
  | VDict d => Ok (map (fun kv => (KStr (fst kv), snd kv)) d)
  | VList items => dict_of_pairs items []
  | VStr EmptyString => Ok []
  | VStr _ => Raise ValueError
  | _ => Raise TypeError
  end.

(** Lines 46-53, over the files in the order they are visited. *)
Fixpoint accumulate (files : list (string * file)) (acc : list record)
  : result (list record) :=
  match files with
  | [] => Ok acc
  | (fp, f) :: rest =>
      match load_first_benchmark f with
      | VNone => accumulate rest acc
      | b =>
          do b' <- py_dict b;
          accumulate rest
            (acc ++ [rec_set b' (KStr "__source_file") (VStr (basename fp))])
      end
  end.

(** [x.get(k, {})] and [x.get(k)]; a value that is no dict has no [get]. *)
Definition get_or_empty (x : value) (k : string) : result value :=
  match x with
  | VDict d => Ok (default (VDict []) (dict_get d k))
  | _ => Raise AttributeError
  end.

Definition get_or_none (x : value) (k : string) : result value :=
  match x with
  | VDict d => Ok (default VNone (dict_get d k))
  | _ => Raise AttributeError
  end.

(** The [if isinstance(x, list): extend / elif x is not None: append] of
    lines 69-72, 75-78, 83-86 and 89-92. *)
Definition absorb (running : list value) (x : value) : list value :=
  match x with
  | VList l => running ++ l
  | VNone => running
  | _ => running ++ [x]
  end.

(** The body of the loop of lines 64-92. *)
Definition collect_one (sw : sweep) (b : record) : result sweep :=
  let b_args := default (VDict []) (rec_get b (KStr "args")) in
  do b_profile <- get_or_empty b_args "profile";
  do mr <- get_or_none b_profile "measured_rates";
  let rates := absorb (measured_rates sw) mr in
  do mc <- get_or_none b_profile "measured_concurrencies";
  let concurrencies := absorb (measured_concurrencies sw) mc in
  do s <- get_or_none b_profile "streams";
  do s <- match s with
          | VNone =>
              do strategy <- get_or_empty b_args "strategy";
              get_or_none strategy "streams"
          | _ => Ok s
          end;
  let strs := absorb (streams sw) s in
  do st <- get_or_none b_profile "strategy_types";
  Ok (Sweep rates concurrencies strs (absorb (strategy_types sw) st)).

Fixpoint collect_from (records : list record) (sw : sweep) : result sweep :=
  match records with
  | [] => Ok sw
  | b :: rest => do sw' <- collect_one sw b; collect_from rest sw'
  end.

Definition collect (records : list record) : result sweep :=
  collect_from records (Sweep [] [] [] []).

Section program.

(** [float.__repr__] on a finite float, the shortest decimal text that
    reads back as the same float; the interpreter's, taken as given. *)
Variable float_repr : spec_float -> string.

Definition float_dumps (f : spec_float) : string :=
  match f with
  | S754_nan => "NaN"
  | S754_infinity false => "Infinity"
  | S754_infinity true => "-Infinity"
  | _ => float_repr f
  end.

(** [json.dumps(x, sort_keys=True)] *)
Fixpoint dumps (x : value) : string :=
  match x with
  | VNone => "null"
  | VBool true => "true"
  | VBool false => "false"
  | VInt n => int_repr n
  | VFloat f => float_dumps f
  | VStr s => quoted s
  | VList items => "[" ++ String.concat ", " (map dumps items) ++ "]"
  | VDict entries =>
      "{" ++ String.concat ", "
               (map (fun kt => quoted (fst kt) ++ ": " ++ snd kt)
                  (sort_by_key
                     (map (fun kv => (fst kv, dumps (snd kv))) entries)))
          ++ "}"
  end.

(** Lines 99-102: a [float], an [int] (a [bool] is one) or a [str] is its
    own key; anything else is keyed by its serialization, a [str]. *)
Definition uniq_key (x : value) : hkey :=
  match x with
  | VFloat f => KFloat f
  | VInt n => KInt n
  | VBool b => KBool b
  | VStr s => KStr s
  | _ => KStr (dumps x)
  end.

(** [key in seen] *)
Definition seen_has (seen : list hkey) (key : hkey) : bool :=
  existsb (hkey_eqb key) seen.

(** The loop of lines 98-106 with its two accumulators. *)
Fixpoint uniq_loop (seq : list value) (seen : list hkey) (out : list value)
  : list value :=
  match seq with
  | [] => out
  | x :: rest =>
      let key := uniq_key x in
      if seen_has seen key then uniq_loop rest seen out
      else uniq_loop rest (key :: seen) (out ++ [x])
  end.

Definition uniq (seq : list value) : list value := uniq_loop seq [] [].

(** Lines 122-126: [sorted], or the list as it is when [sorted] raises. *)
Definition sorted_or_same (l : list value) : list value :=
  match sorted l with
  | Ok s => s
  | Raise _ => l
  end.

Definition set_if_any (d : list (string * value)) (k : string)
    (l : list value) : list (string * value) :=
  match l with
  | [] => d
  | _ => dict_set d k (VList l)
  end.

(** Lines 109-128. *)
Definition combined_profile (n : nat) (sw : sweep) : list (string * value) :=
  let measured_rates_u := uniq (measured_rates sw) in
  let measured_concurrencies_u := uniq (measured_concurrencies sw) in
  let streams_u := uniq (streams sw) in
  let strategy_types_u := uniq (strategy_types sw) in
  let p := dict_set [] "type_" (VStr "concurrent") in
  let p := dict_set p "completed_strategies" (VInt (Z.of_nat n)) in
  let p := set_if_any p "measured_rates" measured_rates_u in
  let p := set_if_any p "measured_concurrencies" measured_concurrencies_u in
  let p := match streams_u with
           | [] => p
           | _ => dict_set p "streams" (VList (sorted_or_same streams_u))
           end in
  set_if_any p "strategy_types" strategy_types_u.

(** The Profile Aggregator: lines 58-128. *)
Definition aggregate (records : list record)
  : result (list (string * value)) :=
  do sw <- collect records;
  Ok (combined_profile (List.length records) sw).

(** [x[k] = v]; only a dict takes a text key. *)
Definition set_item (x : value) (k : string) (v : value) : result value :=
  match x with
  | VDict d => Ok (VDict (dict_set d k v))
  | _ => Raise TypeError
  end.

(** Lines 133-136, read on values: the record that [b_copy] shows once
    [b_args['profile']] is assigned. *)
Definition attach (profile : list (string * value)) (b : record)
  : result record :=
  let b_copy := b in
  let '(b_args, b_copy) :=
    match rec_get b_copy (KStr "args") with
    | Some a => (a, b_copy)
    | None => (VDict [], rec_set b_copy (KStr "args") (VDict []))
    end in
  do b_args' <- set_item b_args "profile" (VDict profile);
  Ok (rec_set b_copy (KStr "args") b_args').

Fixpoint attach_all (profile : list (string * value)) (records : list record)
  : result (list record) :=
  match records with
  | [] => Ok []
  | b :: rest =>
      do b' <- attach profile b;
      do rest' <- attach_all profile rest;
      Ok (b' :: rest')
  end.

(** Lines 43-141.  [found] is what [glob] and [os.path.isfile] leave: the
    paths of the regular files of [input_dir], each with its content. *)
Definition merge_benchmark_files (input_dir : string)
    (found : list (string * file)) : result document :=
  let files := sort_by_key found in
  do benchmarks <- accumulate files [];
  match benchmarks with
  | [] => Raise (SystemExit ("No benchmark entries found in " ++ input_dir))
  | _ =>
      do profile <- aggregate benchmarks;
      do out_benchmarks <- attach_all profile benchmarks;
      let tag := VStr (basename (rstrip_slash input_dir)) in
      Ok (Document
            (map (fun b => rec_set b (KStr "__combined_from") tag)
               out_benchmarks))
  end.

(** How a run of [main] goes: it ends at lines 152-154 with an exception
    and nothing written, or the merge returns [doc] and lines 156-161 go on
    to write it to [path].  What the file system answers there is not
    modelled: [Wrote] stands for a run whose output path can be created and
    written, the only run in which line 163 is reached. *)
Inductive outcome : Type :=
| Wrote (path : string) (doc : document)
| Aborted (e : exn).

(** Lines 144-163, with [os.path.isdir] answering [is_dir] and the files
    of the directory in [found].  A failure of [os.makedirs], [open] or
    [json.dump] at lines 156-161 has no outcome here. *)
Definition main (input_dir : string) (is_dir : bool)
    (found : list (string * file)) (output : string) : outcome :=
  if negb is_dir
  then Aborted (SystemExit ("Input directory not found: " ++ input_dir))
  else
    match merge_benchmark_files input_dir found with
    | Raise e => Aborted e
    | Ok combined => Wrote output combined
    end.

(** The exit status of the process: 1 after an exception, 0 after a run
    that wrote its output. *)
Definition exit_status (o : outcome) : Z :=
  match o with
  | Wrote _ _ => 0
  | Aborted _ => 1
  end.

End program.

(** ** The store layer

    The same program over a heap of mutable objects.  A scalar is immutable
    and is held in place; a [list] or a [dict] lives at a location, and two
    references to one location see each other's updates. *)
Module Store.

Abbreviation loc := nat.

Inductive pval : Type :=
| PNone
| PBool (b : bool)
| PInt (n : Z)
| PFloat (f : spec_float)
| PStr (s : string)
| PRef (l : loc).

Inductive obj : Type :=
| OList (items : list pval)
| ODict (entries : list (hkey * pval)).

Abbreviation heap := (list obj).

(** A step of the program: it leaves a result or an exception and the
    heap it reached; [None] is a reference to nothing, which no heap
    filled by the decoder holds. *)
Definition M (A : Type) : Type := heap -> option (result A * heap).

Definition ret {A} (a : A) : M A := fun h => Some (Ok a, h).
Definition raise {A} (e : exn) : M A := fun h => Some (Raise e, h).
Definition stuck {A} : M A := fun _ => None.

Definition mbind {A B} (m : M A) (k : A -> M B) : M B :=
  fun h =>
    match m h with
    | Some (Ok a, h') => k a h'
    | Some (Raise e, h') => Some (Raise e, h')
    | None => None
    end.

Declare Scope store_scope.
Delimit Scope store_scope with store.
Notation "'do' x <- r ; k" := (mbind r (fun x => k))
  (at level 10, x pattern, r at level 100, k at level 200) : store_scope.
Local Open Scope store_scope.

Definition alloc (o : obj) : M loc :=
  fun h => Some (Ok (List.length h), (h ++ [o])%list).

Definition load (l : loc) : M obj :=
  fun h => match h !! l with
           | Some o => Some (Ok o, h)
           | None => None
           end.

Definition store (l : loc) (o : obj) : M unit :=
  fun h => match h !! l with
           | Some _ => Some (Ok tt, <[l := o]> h)
           | None => None
           end.

Definition list_items (l : loc) : M (list pval) :=
  do o <- load l;
  match o with
  | OList items => ret items
  | ODict _ => stuck
  end.

Definition pval_key (p : pval) : option hkey :=
  match p with
  | PNone => Some KNone
  | PBool b => Some (KBool b)
  | PInt n => Some (KInt n)
  | PFloat f => Some (KFloat f)
  | PStr s => Some (KStr s)
  | PRef _ => None
  end.

Definition key_pval (k : hkey) : pval :=
  match k with
  | KNone => PNone
  | KBool b => PBool b
  | KInt n => PInt n
  | KFloat f => PFloat f
  | KStr s => PStr s
  end.

(** [json.load]: every list and dict of the document becomes a new
    object. *)
Fixpoint decode (doc : value) (h : heap) : pval * heap :=
  match doc with
  | VNone => (PNone, h)
  | VBool b => (PBool b, h)
  | VInt n => (PInt n, h)
  | VFloat f => (PFloat f, h)
  | VStr s => (PStr s, h)
  | VList items =>
      let '(ps, h') :=
        (fix go (l : list value) (h : heap) : list pval * heap :=
           match l with
           | [] => ([], h)
           | x :: r =>
               let '(p, h1) := decode x h in
               let '(ps, h2) := go r h1 in
               (p :: ps, h2)
           end) items h in
      (PRef (List.length h'), (h' ++ [OList ps])%list)
  | VDict entries =>
      let '(d, h') :=
        (fix go (l : list (string * value)) (d : list (hkey * pval))
             (h : heap) : list (hkey * pval) * heap :=
           match l with
           | [] => (d, h)
           | (k, x) :: r =>
               let '(p, h1) := decode x h in
               go r (assoc_set hkey_eqb d (KStr k) p) h1
           end) entries [] h in
      (PRef (List.length h'), (h' ++ [ODict d])%list)
  end.

Definition json_load (doc : value) : M pval :=
  fun h => let '(p, h') := decode doc h in Some (Ok p, h').

(** The tree a reference stands for, down to [fuel] levels; a dict read
    this way has text keys, as every decoded dict has. *)
Fixpoint readback (fuel : nat) (h : heap) (p : pval) : option value :=
  match p with
  | PNone => Some VNone
  | PBool b => Some (VBool b)
  | PInt n => Some (VInt n)
  | PFloat f => Some (VFloat f)
  | PStr s => Some (VStr s)
  | PRef l =>
      match fuel with
      | O => None
      | S n =>
          match h !! l with
          | Some (OList items) =>
              option_map VList (mapM (readback n h) items)
          | Some (ODict entries) =>
              option_map VDict
                (mapM (fun kp =>
                         match fst kp, readback n h (snd kp) with
                         | KStr s, Some v => Some (s, v)
                         | _, _ => None
                         end) entries)
          | None => None
          end
      end
  end.

Definition read (h : heap) (p : pval) : option value :=
  readback (S (List.length h)) h p.

(** A record of the program, which may hold any hashable key. *)
Definition read_record (h : heap) (l : loc) : option record :=
  match h !! l with
  | Some (ODict entries) =>
      mapM (fun kp => option_map (pair (fst kp)) (read h (snd kp))) entries
  | _ => None
  end.

(** Lines 34-40. *)
Definition first_benchmark (data : pval) : M pval :=
  match data with
  | PRef l =>
      do o <- load l;
      match o with
      | ODict d =>
          do hit <- match assoc_get hkey_eqb d (KStr "benchmarks") with
                     | Some (PRef l') =>
                         do o' <- load l';
                         ret (match o' with
                              | OList (x :: _) => Some x
                              | _ => None
                              end)
                     | _ => ret None
                     end;
          match hit with
          | Some x => ret x
          | None =>
              if assoc_has hkey_eqb d (KStr "type_") then ret data
              else ret PNone
          end
      | OList (x :: _) => ret x
      | OList [] => ret PNone
      end
  | _ => ret PNone
  end.

Definition load_first_benchmark (f : file) : M pval :=
  match f with
  | None => ret PNone
  | Some doc => do data <- json_load doc; first_benchmark data
  end.

Definition item_pair (item : pval) : M (hkey * pval) :=
  match item with
  | PRef l =>
      do o <- load l;
      match o with
      | OList [k; v] =>
          match pval_key k with
          | Some hk => ret (hk, v)
          | None => raise TypeError
          end
      | OList _ => raise ValueError
      | ODict [(k1, _); (k2, _)] => ret (k1, key_pval k2)
      | ODict _ => raise ValueError
      end
  | PStr (String a (String b EmptyString)) =>
      ret (KStr (String a EmptyString), PStr (String b EmptyString))
  | PStr _ => raise ValueError
  | _ => raise TypeError
  end.

Fixpoint dict_of_pairs (items : list pval) (d : list (hkey * pval))
  : M (list (hkey * pval)) :=
  match items with
  | [] => ret d
  | item :: rest =>
      do kv <- item_pair item;
      dict_of_pairs rest (assoc_set hkey_eqb d (fst kv) (snd kv))
  end.

(** [dict(b)]: a new dict object holding the same references. *)
Definition py_dict (b : pval) : M loc :=
  match b with
  | PRef l =>
      do o <- load l;
      match o with
      | ODict d => alloc (ODict d)
      | OList items => do d <- dict_of_pairs items []; alloc (ODict d)
      end
  | PStr EmptyString => alloc (ODict [])
  | PStr _ => raise ValueError
  | _ => raise TypeError
  end.

(** [d[k] = v] on the object at [l], in place. *)
Definition set_key (l : loc) (k : hkey) (v : pval) : M unit :=
  do o <- load l;
  match o with
  | ODict d => store l (ODict (assoc_set hkey_eqb d k v))
  | OList _ => raise TypeError
  end.

(** Lines 46-53. *)
Fixpoint accumulate (files : list (string * file)) (acc : list loc)
  : M (list loc) :=
  match files with
  | [] => ret acc
  | (fp, f) :: rest =>
      do b <- load_first_benchmark f;
      match b with
      | PNone => accumulate rest acc
      | _ =>
          do b' <- py_dict b;
          do _ <- set_key b' (KStr "__source_file") (PStr (basename fp));
          accumulate rest (acc ++ [b'])%list
      end
  end.

(** [x.get(k, {})]: the default is a new dict, made before the call. *)
Definition get_or_empty (x : pval) (k : string) : M pval :=
  match x with
  | PRef l =>
      do o <- load l;
      match o with
      | ODict d =>
          do e <- alloc (ODict []);
          ret (default (PRef e) (assoc_get hkey_eqb d (KStr k)))
      | OList _ => raise AttributeError
      end
  | _ => raise AttributeError
  end.

(** [x.get(k)] *)
Definition get_or_none (x : pval) (k : string) : M pval :=
  match x with
  | PRef l =>
      do o <- load l;
      match o with
      | ODict d => ret (default PNone (assoc_get hkey_eqb d (KStr k)))
      | OList _ => raise AttributeError
      end
  | _ => raise AttributeError
  end.

(** [running.extend(items)], in place. *)
Definition extend (running : loc) (items : list pval) : M unit :=
  do cur <- list_items running;
  store running (OList (cur ++ items)%list).

Definition absorb (running : loc) (x : pval) : M unit :=
  match x with
  | PNone => ret tt
  | PRef l =>
      do o <- load l;
      match o with
      | OList items => extend running items
      | ODict _ => extend running [x]
      end
  | _ => extend running [x]
  end.

(** The four running lists, by location. *)
Record sweep : Type := Sweep {
  measured_rates : loc;
  measured_concurrencies : loc;
  streams : loc;
  strategy_types : loc
}.

(** The body of the loop of lines 64-92. *)
Definition collect_one (sw : sweep) (b : loc) : M unit :=
  do b_args <- get_or_empty (PRef b) "args";
  do b_profile <- get_or_empty b_args "profile";
  do mr <- get_or_none b_profile "measured_rates";
  do _ <- absorb (measured_rates sw) mr;
  do mc <- get_or_none b_profile "measured_concurrencies";
  do _ <- absorb (measured_concurrencies sw) mc;
  do s <- get_or_none b_profile "streams";
  do s <- match s with
          | PNone =>
              do strategy <- get_or_empty b_args "strategy";
              get_or_none strategy "streams"
          | _ => ret s
          end;
  do _ <- absorb (streams sw) s;
  do st <- get_or_none b_profile "strategy_types";
  absorb (strategy_types sw) st.

Fixpoint collect_from (records : list loc) (sw : sweep) : M unit :=
  match records with
  | [] => ret tt
  | b :: rest => do _ <- collect_one sw b; collect_from rest sw
  end.

(** Lines 59-92. *)
Definition collect (records : list loc) : M sweep :=
  do mr <- alloc (OList []);
  do mc <- alloc (OList []);
  do s <- alloc (OList []);
  do st <- alloc (OList []);
  let sw := Sweep mr mc s st in
  do _ <- collect_from records sw;
  ret sw.

Section program.

Variable float_repr : spec_float -> string.

(** Lines 99-102; a composite is serialized from what the heap holds. *)
Definition uniq_key (x : pval) : M hkey :=
  match x with
  | PFloat f => ret (KFloat f)
  | PInt n => ret (KInt n)
  | PBool b => ret (KBool b)
  | PStr s => ret (KStr s)
  | _ => fun h =>
           match read h x with
           | Some v => Some (Ok (KStr (dumps float_repr v)), h)
           | None => None
           end
  end.

Fixpoint uniq_loop (seq : list pval) (seen : list hkey) (out : loc)
  : M unit :=
  match seq with
  | [] => ret tt
  | x :: rest =>
      do key <- uniq_key x;
      if seen_has seen key then uniq_loop rest seen out
      else do _ <- extend out [x]; uniq_loop rest (key :: seen) out
  end.

(** Lines 95-107: [out] is a new list. *)
Definition uniq (seq : loc) : M loc :=
  do items <- list_items seq;
  do out <- alloc (OList []);
  do _ <- uniq_loop items [] out;
  ret out.

(** The items of a list, each with the tree it stands for. *)
Definition viewed (l : loc) : M (list (value * pval)) :=
  do items <- list_items l;
  fun h =>
    match mapM (fun p => option_map (fun v => (v, p)) (read h p)) items with
    | Some vs => Some (Ok vs, h)
    | None => None
    end.

(** Lines 123-126: [sorted] makes a new list; when it raises, the entry
    is the deduplicated list itself. *)
Definition sorted_or_same (l : loc) : M loc :=
  do vs <- viewed l;
  match sorted_by fst vs with
  | Ok s => alloc (OList (map snd s))
  | Raise _ => ret l
  end.

Definition nonempty (l : loc) : M bool :=
  do items <- list_items l;
  ret (match items with [] => false | _ => true end).

Definition set_if_any (p : loc) (k : string) (l : loc) : M unit :=
  do b <- nonempty l;
  if b then set_key p (KStr k) (PRef l) else ret tt.

(** Lines 109-128. *)
Definition combined_profile (n : nat) (sw : sweep) : M loc :=
  do measured_rates_u <- uniq (measured_rates sw);
  do measured_concurrencies_u <- uniq (measured_concurrencies sw);
  do streams_u <- uniq (streams sw);
  do strategy_types_u <- uniq (strategy_types sw);
  do p <- alloc (ODict []);
  do _ <- set_key p (KStr "type_") (PStr "concurrent");
  do _ <- set_key p (KStr "completed_strategies") (PInt (Z.of_nat n));
  do _ <- set_if_any p "measured_rates" measured_rates_u;
  do _ <- set_if_any p "measured_concurrencies" measured_concurrencies_u;
  do b <- nonempty streams_u;
  do _ <- (if b
           then do s <- sorted_or_same streams_u;
                set_key p (KStr "streams") (PRef s)
           else ret tt);
  do _ <- set_if_any p "strategy_types" strategy_types_u;
  ret p.

Definition aggregate (records : list loc) : M loc :=
  do sw <- collect records;
  combined_profile (List.length records) sw.

(** [d.setdefault(k, {})]: the value already under [k], or the new dict
    once it is stored there. *)
Definition setdefault_empty (l : loc) (k : hkey) : M pval :=
  do o <- load l;
  match o with
  | ODict d =>
      do e <- alloc (ODict []);
      match assoc_get hkey_eqb d k with
      | Some v => ret v
      | None => do _ <- set_key l k (PRef e); ret (PRef e)
      end
  | OList _ => raise AttributeError
  end.

(** [x[k] = v] *)
Definition set_item (x : pval) (k : string) (v : pval) : M unit :=
  match x with
  | PRef l => set_key l (KStr k) v
  | _ => raise TypeError
  end.

(** Lines 133-136, statement by statement. *)
Definition attach (profile : loc) (b : loc) : M loc :=
  do b_copy <- py_dict (PRef b);
  do b_args <- setdefault_empty b_copy (KStr "args");
  do p <- py_dict (PRef profile);
  do _ <- set_item b_args "profile" (PRef p);
  ret b_copy.

Fixpoint attach_all (profile : loc) (records : list loc) : M (list loc) :=
  match records with
  | [] => ret []
  | b :: rest =>
      do b' <- attach profile b;
      do rest' <- attach_all profile rest;
      ret (b' :: rest')
  end.

Fixpoint tag_all (records : list loc) (tag : pval) : M unit :=
  match records with
  | [] => ret tt
  | b :: rest =>
      do _ <- set_key b (KStr "__combined_from") tag;
      tag_all rest tag
  end.

(** What the run leaves in reach: the accumulated records, the combined
    profile and the output records. *)
Record merged : Type := Merged {
  accumulated : list loc;
  profile : loc;
  out_benchmarks : list loc
}.

(** Lines 43-141. *)
Definition merge_benchmark_files (input_dir : string)
    (found : list (string * file)) : M merged :=
  let files := sort_by_key found in
  do benchmarks <- accumulate files [];
  match benchmarks with
  | [] => raise (SystemExit ("No benchmark entries found in " ++ input_dir))
  | _ =>
      do combined <- aggregate benchmarks;
      do out <- attach_all combined benchmarks;
      do _ <- tag_all out (PStr (basename (rstrip_slash input_dir)));
      ret (Merged benchmarks combined out)
  end.

(** The output document as a tree. *)
Definition read_document (h : heap) (m : merged) : option document :=
  option_map Document (mapM (read_record h) (out_benchmarks m)).

End program.

End Store.

(** * Vocabulary of the statements *)

(** A file yields a record when the extractor's answer is not [None]. *)
Definition yields (f : file) : bool :=
  match load_first_benchmark f with
  | VNone => false
  | _ => true
  end.

(** The files among [found] that yield a record. *)
Definition yielding (found : list (string * file)) : list (string * file) :=
  List.filter (fun pf => yields (snd pf)) found.

(** [r.args.profile] is the dict [p]. *)
Definition carries (p : list (string * value)) (r : record) : Prop :=
  exists a, rec_get r (KStr "args") = Some (VDict a) /\
            dict_get a "profile" = Some (VDict p).

(** Stands for [float.__repr__] in the examples, whose documents hold no
    float. *)
Definition no_float_repr : spec_float -> string := fun _ => EmptyString.

(** The two files of scenario A and the two of scenario B. *)
Definition scenario_a : list (string * file) :=
  [("runs/a.json",
    Some (VDict [("benchmarks",
                  VList [VDict [("type_", VStr "x");
                                ("args",
                                 VDict [("profile",
                                         VDict [("measured_rates",
                                                 VList [VInt 1; VInt 2])])])]])]));
   ("runs/b.json",
    Some (VDict [("type_", VStr "y");
                 ("args",
                  VDict [("profile",
                          VDict [("measured_rates",
                                  VList [VInt 2; VInt 3])])])]))].

Definition scenario_b : list (string * file) :=
  [("runs/a.json", Some (VList [])); ("runs/b.json", Some (VDict []))].

(** A run of one file, whose record has an [args] dict. *)
Definition one_run : list (string * file) :=
  [("runs/a.json",
    Some (VDict [("type_", VStr "x");
                 ("args",
                  VDict [("profile",
                          VDict [("measured_rates", VList [VInt 1])])])]))].

(** [d.get(k)] on the dict at [l] of heap [h]. *)
Definition object_field (h : Store.heap) (l : Store.loc) (k : string)
  : option Store.pval :=
  match h !! l with
  | Some (Store.ODict d) => assoc_get hkey_eqb d (KStr k)
  | _ => None
  end.

(** The scalars a [float], [int], [bool] or [str] test of line 99 accepts. *)
Definition is_scalar (x : value) : bool :=
  match x with
  | VBool _ | VInt _ | VFloat _ | VStr _ => true
  | _ => false
  end.

(** Two documents that differ at most in the order in which their dicts,
    at any depth, list their entries. *)
Inductive reordered : value -> value -> Prop :=
| reordered_none : reordered VNone VNone
| reordered_bool b : reordered (VBool b) (VBool b)
| reordered_int n : reordered (VInt n) (VInt n)
| reordered_float f : reordered (VFloat f) (VFloat f)
| reordered_str s : reordered (VStr s) (VStr s)
| reordered_list l1 l2 :
    Forall2 reordered l1 l2 -> reordered (VList l1) (VList l2)
| reordered_dict d1 d d2 :
    List.NoDup (map fst d1) ->
    Permutation d1 d ->
    Forall2 (fun kv kv' => fst kv = fst kv' /\ reordered (snd kv) (snd kv'))
      d d2 ->
    reordered (VDict d1) (VDict d2).

(** [a <= b] as [sorted] leaves it: [a] below [b], or the two equal. *)
Definition not_above (a b : value) : Prop :=
  py_lt a b = Ok true \/ py_same a b = true.

(** Two values that [<] orders without raising: one is below the other, or
    they are equal. *)
Definition comparable (a b : value) : Prop :=
  exists u v,
    py_lt a b = Ok u /\ py_lt b a = Ok v /\
    (u = true \/ v = true \/ (py_same a b = true /\ py_same b a = true)).

(** Every two items of the list are comparable. *)
Definition mutually_comparable (l : list value) : Prop :=
  ForallOrdPairs comparable l.

(** Each item is not above the next. *)
Definition ascending (l : list value) : Prop := Sorted not_above l.

(** The entry of the combined profile for a deduplicated list: none when
    the list is empty. *)
Definition listed (l : list value) : option value :=
  match l with
  | [] => None
  | _ => Some (VList l)
  end.

(** [x.get(k, {})] for a reader that knows [x] to be a dict or absent:
    [None] is the case in which the code raises. *)
Definition args_dict (b : record) : option (list (string * value)) :=
  match rec_get b (KStr "args") with
  | None => Some []
  | Some (VDict d) => Some d
  | Some _ => None
  end.

Definition sub_dict (d : list (string * value)) (k : string)
  : option (list (string * value)) :=
  match dict_get d k with
  | None => Some []
  | Some (VDict d') => Some d'
  | Some _ => None
  end.

(** [d.get(k)], [None] when absent. *)
Definition field (d : list (string * value)) (k : string) : value :=
  default VNone (dict_get d k).

(** A record the aggregator can scan: [args], [args.profile] and, where
    [profile.streams] is missing or [null], [args.strategy] are dicts when
    they are present. *)
Definition well_shaped (b : record) : Prop :=
  exists a p,
    args_dict b = Some a /\ sub_dict a "profile" = Some p /\
    (field p "streams" = VNone -> exists s, sub_dict a "strategy" = Some s).

(** What one value adds to a running list: the items of a list, nothing
    for [None], the value itself otherwise. *)
Definition contribution (x : value) : list value :=
  match x with
  | VList l => l
  | VNone => []
  | _ => [x]
  end.

(** What a record adds to the running list of field [k] of its profile. *)
Definition tracked (k : string) (b : record) : list value :=
  match args_dict b with
  | Some a =>
      match sub_dict a "profile" with
      | Some p => contribution (field p k)
      | None => []
      end
  | None => []
  end.

(** What a record adds to the running list of streams: from its profile,
    or from its strategy when the profile has no streams or [null]. *)
Definition tracked_streams (b : record) : list value :=
  match args_dict b with
  | Some a =>
      match sub_dict a "profile" with
      | Some p =>
          match field p "streams" with
          | VNone =>
              match sub_dict a "strategy" with
              | Some s => contribution (field s "streams")
              | None => []
              end
          | x => contribution x
          end
      | None => []
      end
  | None => []
  end.

(** The reading of a field in which whatever is present and is no list is
    appended as one item, and only an absent field adds nothing. *)
Definition contribution_if_present (x : option value) : list value :=
  match x with
  | Some (VList l) => l
  | Some x => [x]
  | None => []
  end.

Definition tracked_if_present (k : string) (b : record) : list value :=
  match args_dict b with
  | Some a =>
      match sub_dict a "profile" with
      | Some p => contribution_if_present (dict_get p k)
      | None => []
      end
  | None => []
  end.

(** A record whose profile holds [measured_rates] with the value [null]. *)
Definition null_rates : record :=
  [(KStr "type_", VStr "x");
   (KStr "args", VDict [("profile", VDict [("measured_rates", VNone)])])].

(** The record of scenario C: no [profile.streams], [strategy.streams] 5. *)
Definition scenario_c : record :=
  [(KStr "type_", VStr "x");
   (KStr "args",
    VDict [("profile", VDict [("measured_rates", VList [VInt 1; VInt 2])]);
           ("strategy", VDict [("streams", VInt 5)])])].

(** A record with an empty [profile.streams] and a [strategy.streams]. *)
Definition empty_streams : record :=
  [(KStr "type_", VStr "x");
   (KStr "args",
    VDict [("profile", VDict [("streams", VList [])]);
           ("strategy", VDict [("streams", VInt 5)])])].

(** In the prefix the sort builds, no item is below the one placed before
    it. *)
Definition settled (a b : value) : Prop := py_lt a b <> Ok true.

(** No two items of the list have equal keys in the deduplicator. *)
Definition distinct_keys (float_repr : spec_float -> string)
    (l : list value) : Prop :=
  ForallOrdPairs
    (fun x y => hkey_eqb (uniq_key float_repr x) (uniq_key float_repr y) = false)
    l.

(** The float 1.0 as binary64 holds it. *)
Definition float_one : spec_float := S754_finite false 4503599627370496 (-52).

(** One dict written in two key orders. *)
Definition dict_ba : value := VDict [("b", VInt 1); ("a", VList [VInt 2])].
Definition dict_ab : value := VDict [("a", VList [VInt 2]); ("b", VInt 1)].

(** A number that has a place in the order: a [bool], an [int] or a
    [float] other than NaN. *)
Definition ordered_number (x : value) : bool :=
  match value_num x with
  | Some NNan | None => false
  | Some _ => true
  end.

(** The text [json.dump] writes for a key of the output. *)
Definition key_text (float_repr : spec_float -> string) (k : hkey) : string :=
  match k with
  | KNone => "null"
  | KBool true => "true"
  | KBool false => "false"
  | KInt n => int_repr n
  | KFloat f => float_dumps float_repr f
  | KStr s => s
  end.

(** The output file of a run, as a later run finds it. *)
Definition written (float_repr : spec_float -> string) (doc : document)
  : file :=
  Some (VDict
          [("benchmarks",
            VList (map (fun r =>
                          VDict (map (fun kv =>
                                        (key_text float_repr (fst kv), snd kv))
                                   r))
                     (benchmarks doc)))]).

(** A run of one file whose record is [empty_streams]. *)
Definition empty_streams_run : list (string * file) :=
  [("runs/a.json",
    Some (VDict [("type_", VStr "x");
                 ("args",
                  VDict [("profile", VDict [("streams", VList [])]);
                         ("strategy", VDict [("streams", VInt 5)])])]))].

(** Two files that take the less trodden paths: a record built by
    [dict] from a list of pairs, with a key that is no text; streams that
    [<] cannot order, two of them equal dicts; a scalar field; a [null]
    that sends the scan to the strategy. *)
Definition mixed_run : list (string * file) :=
  [("runs/2.json",
    Some (VDict
            [("benchmarks",
              VList [VDict
                       [("type_", VStr "t");
                        ("args",
                         VDict [("profile",
                                 VDict [("measured_rates",
                                         VFloat (S754_finite false 3 (-1)));
                                        ("streams", VNone)]);
                                ("strategy",
                                 VDict [("streams",
                                         VList [VInt 3; VInt 1])])])]])]));
   ("runs/1.json",
    Some (VList
            [VList
               [VList [VStr "args";
                       VDict [("profile",
                               VDict [("streams",
                                       VList [VInt 2; VStr "a";
                                              VDict [("k", VList [VInt 1])];
                                              VDict [("k", VList [VInt 1])]]);
                                      ("strategy_types", VStr "x")])]];
                VList [VInt 1; VInt 2]]]))].

(** A file the merge can take in: it yields nothing, or it yields a dict
    that is well shaped once copied. *)
Definition sound_file (f : file) : Prop :=
  load_first_benchmark f = VNone \/
  exists d,
    load_first_benchmark f = VDict d /\
    well_shaped (map (fun kv => (KStr (fst kv), snd kv)) d).

(** The two inner loops of [Store.decode], by name. *)
Fixpoint decode_items (l : list value) (h : Store.heap)
  : list Store.pval * Store.heap :=
  match l with
  | [] => ([], h)
  | x :: r =>
      let '(p, h1) := Store.decode x h in
      let '(ps, h2) := decode_items r h1 in
      (p :: ps, h2)
  end.

Fixpoint decode_entries (l : list (string * value))
    (d : list (hkey * Store.pval)) (h : Store.heap)
  : list (hkey * Store.pval) * Store.heap :=
  match l with
  | [] => (d, h)
  | (k, x) :: r =>
      let '(p, h1) := Store.decode x h in
      decode_entries r (assoc_set hkey_eqb d (KStr k) p) h1
  end.

(** A reference [p] stands for the tree [v] in heap [h] and in every heap
    that extends it, given fuel [n] or more. *)
Definition stands_for (n : nat) (h : Store.heap) (p : Store.pval) (v : value)
  : Prop :=
  forall m ext, (n <= m)%nat -> Store.readback m (h ++ ext) p = Some v.


(** The entries of a heap dict stand for the entries of a tree dict. *)
Definition entry_stands_for (n : nat) (h : Store.heap)
    (kp : hkey * Store.pval) (kv : string * value) : Prop :=
  fst kp = KStr (fst kv) /\ stands_for n h (snd kp) (snd kv).

(** The record that lines 51-52 make of what a file yields. *)
Definition accumulated_from (pf : string * file) (b : record) : Prop :=
  exists b0,
    py_dict (load_first_benchmark (snd pf)) = Ok b0 /\
    b = rec_set b0 (KStr "__source_file") (VStr (basename (fst pf))).

(** The path of [a] is not above the path of [b]. *)
Definition path_not_above (a b : string * file) : Prop :=
  String.ltb (fst b) (fst a) = false.

(** What an output record [r] keeps of the record [b] it was made from:
    every field but [args] and the two tags, and inside [args] every field
    but [profile]; a record without [args] is given one that holds a
    profile and nothing else. *)
Definition kept_fields (b r : record) : Prop :=
  (forall k,
      k <> KStr "args" -> k <> KStr "__source_file" ->
      k <> KStr "__combined_from" ->
      rec_get r k = rec_get b k) /\
  (forall a,
      rec_get b (KStr "args") = Some (VDict a) ->
      exists a',
        rec_get r (KStr "args") = Some (VDict a') /\
        forall s, s <> "profile" -> dict_get a' s = dict_get a s) /\
  (rec_get b (KStr "args") = None ->
   exists p, rec_get r (KStr "args") = Some (VDict [("profile", VDict p)])).

(** The text holds no path separator. *)
Fixpoint no_slash (s : string) : bool :=
  match s with
  | EmptyString => true
  | String c r => negb (Ascii.eqb c slash) && no_slash r
  end.

(** What line 51 makes of the record of a file that yields one, when it
    makes one that the aggregator can scan. *)
Definition mergeable (pf : string * file) : Prop :=
  exists b0,
    py_dict (load_first_benchmark (snd pf)) = Ok b0 /\ well_shaped b0.

(** The keys the combined profile can hold, in the order lines 116-128
    write them. *)
Definition profile_keys : list string :=
  ["type_"; "completed_strategies"; "measured_rates";
   "measured_concurrencies"; "streams"; "strategy_types"].

(** The list a profile holds under [k]; empty when it holds none. *)
Definition entry (p : list (string * value)) (k : string) : list value :=
  contribution (field p k).

(** [a < b] holds. *)
Definition below (a b : value) : Prop := py_lt a b = Ok true.

(** The keys of [x] and [y] in the deduplicator are equal. *)
Definition same_key (float_repr : spec_float -> string) (x y : value)
  : Prop :=
  hkey_eqb (uniq_key float_repr x) (uniq_key float_repr y) = true.

(** What a record adds to the running list behind key [k] of the
    profile. *)
Definition contributed (k : string) (b : record) : list value :=
  if String.eqb k "streams" then tracked_streams b else tracked k b.

(** The four keys whose lists the aggregator builds. *)
Definition list_keys : list string :=
  ["measured_rates"; "measured_concurrencies"; "streams"; "strategy_types"].

(** A heap of two dicts: a record with no [args], and a profile. *)
Definition bare_heap : Store.heap :=
  [Store.ODict [(KStr "type_", Store.PStr "x")];
   Store.ODict [(KStr "type_", Store.PStr "concurrent")]].


(** The lines the run prints: the warning of line 31, the notice of line
    49 and the report of line 163, each with the path it names. *)
Inductive notice : Type :=
| Warned (path : string)
| Skipped (path : string)
| Reported (path : string).

(** Lines 27-32: a file that cannot be opened or decoded is warned
    about. *)
Definition load_notices (fp : string) (f : file) : list notice :=
  match f with
  | None => [Warned fp]
  | Some _ => []
  end.

(** Lines 46-53 with what they print: the lines printed until the loop
    ends, and how it ends. *)
Fixpoint accumulate_printing (files : list (string * file))
    (acc : list record) (log : list notice)
  : list notice * result (list record) :=
  match files with
  | [] => (log, Ok acc)
  | (fp, f) :: rest =>
      let log := (log ++ load_notices fp f)%list in
      match load_first_benchmark f with
      | VNone => accumulate_printing rest acc (log ++ [Skipped fp])%list
      | b =>
          match py_dict b with
          | Ok b' =>
              accumulate_printing rest
                (acc ++ [rec_set b' (KStr "__source_file")
                           (VStr (basename fp))])%list
                log
          | Raise e => (log, Raise e)
          end
      end
  end.

(** The paths named by the notices of line 49, and by the warnings of
    line 31, in the order printed. *)
Definition skipped (log : list notice) : list string :=
  flat_map (fun n => match n with Skipped p => [p] | _ => [] end) log.

Definition warned (log : list notice) : list string :=
  flat_map (fun n => match n with Warned p => [p] | _ => [] end) log.

(** The file could not be opened or decoded. *)
Definition unreadable (f : file) : bool :=
  match f with None => true | Some _ => false end.

(** A number ([int], [bool] or [float]), or a text. *)
Definition is_number (x : value) : bool :=
  match value_num x with Some _ => true | None => false end.

Definition is_text (x : value) : bool :=
  match x with VStr _ => true | _ => false end.


(** A step of the store that leaves every object of [h0] as it is: run
    from a heap that begins with [h0], it ends in a heap that begins with
    [h0]; [Q] is what it promises of the value it returns. *)
Definition keeps (h0 : Store.heap) {A} (m : Store.M A) (Q : A -> Prop)
  : Prop :=
  forall h r h',
    h0 `prefix_of` h -> m h = Some (r, h') ->
    h0 `prefix_of` h' /\ forall a, r = Ok a -> Q a.

(** A location that [h0] does not hold. *)
Definition beyond (h0 : Store.heap) (l : Store.loc) : Prop :=
  (List.length h0 <= l)%nat.

(** Any value. *)
Definition whatever {A} (a : A) : Prop := True.

(** The four running lists are beyond [h0]. *)
Definition sweep_beyond (h0 : Store.heap) (sw : Store.sweep) : Prop :=
  beyond h0 (Store.measured_rates sw) /\
  beyond h0 (Store.measured_concurrencies sw) /\
  beyond h0 (Store.streams sw) /\
  beyond h0 (Store.strategy_types sw).

(** The characters of a text. *)
Definition chars (s : string) : list ascii := list_ascii_of_string s.

(** The characters of a number as JSON writes it: a digit, a sign, the
    point or the [e] of an exponent. *)
Definition numeric_char (c : ascii) : bool :=
  let n := N_of_ascii c in
  ((48 <=? n) && (n <=? 57) || (n =? 45) || (n =? 43) || (n =? 46)
   || (n =? 101))%N.

(** The characters that cannot be in a number or a literal of a JSON
    text: the comma, the quote and the four brackets. *)
Definition leaf_char (c : ascii) : bool :=
  let n := N_of_ascii c in
  negb ((n =? 44) || (n =? 34) || (n =? 91) || (n =? 93) || (n =? 123)
        || (n =? 125))%N.

(** A float other than NaN and the infinities. *)
Definition finite (f : spec_float) : bool :=
  match f with
  | S754_zero _ | S754_finite _ _ _ => true
  | _ => false
  end.

(** What [float.__repr__] is taken to give for a finite float: a text
    that is not empty, is made of the characters of a number, and is not
    the text of an [int] (it has a point or an exponent). *)
Definition float_repr_sound (float_repr : spec_float -> string) : Prop :=
  forall f,
    finite f = true ->
    float_repr f <> EmptyString /\
    forallb numeric_char (chars (float_repr f)) = true /\
    forall n, float_repr f <> int_repr n.

(** A [float.__repr__] for the examples: every float is written [0.5]. *)
Definition half_float_repr : spec_float -> string := fun _ => "0.5".

(** Two values with the same serialization: the same leaves, written the
    same way, the same items in the same order, and the same entries in
    any order. *)
Inductive alike (float_repr : spec_float -> string) : value -> value -> Prop :=
| alike_none : alike float_repr VNone VNone
| alike_bool b : alike float_repr (VBool b) (VBool b)
| alike_int n : alike float_repr (VInt n) (VInt n)
| alike_float f g :
    float_dumps float_repr f = float_dumps float_repr g ->
    alike float_repr (VFloat f) (VFloat g)
| alike_str s : alike float_repr (VStr s) (VStr s)
| alike_list l1 l2 :
    Forall2 (alike float_repr) l1 l2 ->
    alike float_repr (VList l1) (VList l2)
| alike_dict d1 d2 s1 s2 :
    Permutation d1 s1 ->
    Permutation d2 s2 ->
    Forall2 (fun kv kv' =>
               fst kv = fst kv' /\ alike float_repr (snd kv) (snd kv'))
      s1 s2 ->
    alike float_repr (VDict d1) (VDict d2).

(** Every [bool], and every character. *)
Definition forall_bool (f : bool -> bool) : bool := f true && f false.

Definition forall_ascii (P : ascii -> bool) : bool :=
  forall_bool (fun b0 => forall_bool (fun b1 => forall_bool (fun b2 =>
  forall_bool (fun b3 => forall_bool (fun b4 => forall_bool (fun b5 =>
  forall_bool (fun b6 => forall_bool (fun b7 =>
    P (Ascii b0 b1 b2 b3 b4 b5 b6 b7))))))))).

(** [a] begins [b]. *)
Fixpoint is_prefix (a b : list ascii) : bool :=
  match a, b with
  | [], _ => true
  | x :: a', y :: b' => Ascii.eqb x y && is_prefix a' b'
  | _ :: _, [] => false
  end.

(** What may come after a value in a JSON text: nothing, or a character
    that is in no number and no literal. *)
Definition follows (r : list ascii) : Prop :=
  match r with
  | [] => True
  | c :: _ => leaf_char c = false
  end.

(** The texts that follow the first in a joined list, each after its
    comma, and then [close]. *)
Fixpoint joined_tail (ts : list string) (close : list ascii) : list ascii :=
  match ts with
  | [] => close
  | t :: ts' => (chars ", " ++ chars t ++ joined_tail ts' close)%list
  end.

(** An entry of a dict as it is written. *)
Definition entry_text (float_repr : spec_float -> string)
    (kv : string * value) : string :=
  (quoted (fst kv) ++ ": " ++ dumps float_repr (snd kv))%string.

(** A number, a boolean or [None]: what is written without quotes or
    brackets. *)
Definition is_leaf (x : value) : bool :=
  match x with
  | VNone | VBool _ | VInt _ | VFloat _ => true
  | _ => false
  end.

(** The first character of a text, a list or a dict as written. *)
Definition opening (x : value) : option ascii :=
  match x with
  | VStr _ => Some dquote
  | VList _ => Some (ascii_of_N 91)
  | VDict _ => Some (ascii_of_N 123)
  | _ => None
  end.

(** The deduplicator in the words of the specification: an item survives
    when no item before it is equal to it, by the language's equality. *)
Fixpoint first_occurrences_from (seen l : list value) : list value :=
  match l with
  | [] => []
  | x :: r =>
      if existsb (py_same x) seen then first_occurrences_from seen r
      else x :: first_occurrences_from (x :: seen) r
  end.

Definition first_occurrences (l : list value) : list value :=
  first_occurrences_from [] l.

(** The text of [x] can be read back: whatever value is written the same
    way, up to a point after which the two texts may go on differently,
    is alike [x], and the two texts go on the same way. *)
Definition read_back (float_repr : spec_float -> string) (x : value)
  : Prop :=
  forall y r r',
    follows r -> follows r' ->
    (chars (dumps float_repr x) ++ r = chars (dumps float_repr y) ++ r')%list ->
    alike float_repr x y /\ r = r'.

(** The characters of an [int] as [str] writes it: a digit or the minus
    sign. *)
Definition int_char (c : ascii) : bool :=
  let n := N_of_ascii c in ((48 <=? n) && (n <=? 57) || (n =? 45))%N.

(** The value holds no NaN, at any depth. *)
Fixpoint nan_free (x : value) : bool :=
  match x with
  | VFloat S754_nan => false
  | VList l => forallb nan_free l
  | VDict d => forallb (fun kv => nan_free (snd kv)) d
  | _ => true
  end.

(** The NaN the decoder makes. *)
Definition nan : value := VFloat S754_nan.

(** * Properties *)

Local Open Scope list_scope.

(** ** Dictionaries *)

Section assoc_facts.
Context {K V : Type} (eqb : K -> K -> bool).

Lemma assoc_get_set_same (d : list (K * V)) k v :
  eqb k k = true -> assoc_get eqb (assoc_set eqb d k v) k = Some v.
Proof.
  intros Hk. induction d as [|[k' v'] r IH]; simpl.
  - now rewrite Hk.
  - destruct (eqb k k') eqn:E; simpl; now rewrite E.
Qed.

Lemma assoc_set_length_le (d : list (K * V)) k v :
  (List.length d <= List.length (assoc_set eqb d k v))%nat.
Proof.
  induction d as [|[k' v'] r IH]; simpl; [lia|].
  destruct (eqb k k'); simpl; lia.
Qed.
End assoc_facts.

Lemma dict_get_set_same d k v : dict_get (dict_set d k v) k = Some v.
Proof. apply assoc_get_set_same, String.eqb_refl. Qed.

Lemma dict_get_set_other d k k' v :
  k <> k' -> dict_get (dict_set d k v) k' = dict_get d k'.
Proof.
  intros Hne. unfold dict_get, dict_set.
  induction d as [|[k0 v0] r IH]; simpl.
  - destruct (String.eqb_spec k' k); congruence.
  - destruct (String.eqb_spec k k0) as [->|Hk]; simpl.
    + destruct (String.eqb_spec k' k0); congruence.
    + now rewrite IH.
Qed.

Lemma hkey_eqb_KStr s k : hkey_eqb (KStr s) k = true <-> k = KStr s.
Proof.
  destruct k; simpl; split; try discriminate.
  - now intros ->%String.eqb_eq.
  - intros [= ->]. apply String.eqb_refl.
Qed.

Lemma rec_get_set_same r s v : rec_get (rec_set r (KStr s) v) (KStr s) = Some v.
Proof. apply assoc_get_set_same. simpl. apply String.eqb_refl. Qed.

Lemma rec_get_set_other r s t v :
  s <> t -> rec_get (rec_set r (KStr s) v) (KStr t) = rec_get r (KStr t).
Proof.
  intros Hne. unfold rec_get, rec_set.
  assert (Hts : hkey_eqb (KStr t) (KStr s) = false).
  { simpl. destruct (String.eqb_spec t s); congruence. }
  induction r as [|[k0 v0] r IH]; cbn [assoc_get assoc_set].
  - now rewrite Hts.
  - destruct (hkey_eqb (KStr s) k0) eqn:E; cbn [assoc_get].
    + apply hkey_eqb_KStr in E as ->. now rewrite Hts.
    + now rewrite IH.
Qed.

(** ** The record extractor *)

(** C3.  The extractor tries its shapes in a fixed order and the first that
    fits decides: a dict with a non-empty list under [benchmarks] gives the
    first item of that list; failing that, a dict with a key [type_] gives
    itself; a non-empty list gives its first item; every other document (a
    dict with neither, an empty list, a scalar) gives [None]. *)
Theorem first_benchmark_priority (data : value) :
  (forall d x rest,
      data = VDict d ->
      dict_get d "benchmarks" = Some (VList (x :: rest)) ->
      first_benchmark data = x) /\
  (forall d,
      data = VDict d ->
      (forall x rest, dict_get d "benchmarks" <> Some (VList (x :: rest))) ->
      dict_has d "type_" = true ->
      first_benchmark data = data) /\
  (forall x rest, data = VList (x :: rest) -> first_benchmark data = x) /\
  (forall d,
      data = VDict d ->
      (forall x rest, dict_get d "benchmarks" <> Some (VList (x :: rest))) ->
      dict_has d "type_" = false ->
      first_benchmark data = VNone) /\
  (data = VList [] -> first_benchmark data = VNone) /\
  (is_dict data = false -> is_list data = false ->
   first_benchmark data = VNone).
Proof.
  repeat split.
  - intros d x rest -> H. simpl. now rewrite H.
  - intros d -> Hno Ht. simpl. rewrite Ht.
    destruct (dict_get d "benchmarks") as [[| | | | |[|x rest]|]|] eqn:E;
      try reflexivity.
    now destruct (Hno x rest).
  - now intros x rest ->.
  - intros d -> Hno Ht. simpl. rewrite Ht.
    destruct (dict_get d "benchmarks") as [[| | | | |[|x rest]|]|] eqn:E;
      try reflexivity.
    now destruct (Hno x rest).
  - now intros ->.
  - destruct data; simpl; try reflexivity; discriminate.
Qed.

(** The four outcomes of C3, each on a document of its shape. *)
Lemma first_benchmark_priority_witness :
  first_benchmark
    (VDict [("type_", VStr "x"); ("benchmarks", VList [VInt 7; VInt 8])])
  = VInt 7 /\
  first_benchmark (VDict [("benchmarks", VList []); ("type_", VStr "x")])
  = VDict [("benchmarks", VList []); ("type_", VStr "x")] /\
  first_benchmark (VList [VStr "a"; VStr "b"]) = VStr "a" /\
  first_benchmark (VDict [("benchmarks", VInt 3)]) = VNone /\
  first_benchmark (VList []) = VNone /\
  first_benchmark (VStr "benchmarks") = VNone.
Proof.
  pose proof first_benchmark_priority as T.
  refine (conj _ (conj _ (conj _ (conj _ (conj _ _))))).
  - eapply (proj1 (T _)); reflexivity.
  - eapply (proj1 (proj2 (T _)));
      [reflexivity | discriminate | reflexivity].
  - eapply (proj1 (proj2 (proj2 (T _)))); reflexivity.
  - eapply (proj1 (proj2 (proj2 (proj2 (T _)))));
      [reflexivity | discriminate | reflexivity].
  - apply (proj1 (proj2 (proj2 (proj2 (proj2 (T _)))))). reflexivity.
  - apply (proj2 (proj2 (proj2 (proj2 (proj2 (T _)))))); reflexivity.
Defined.

(** ** Enumeration and accumulation *)

Lemma insert_by_key_perm {A} (kv : string * A) l :
  Permutation (insert_by_key kv l) (kv :: l).
Proof.
  induction l as [|x r IH]; simpl; [reflexivity|].
  destruct (String.ltb (fst x) (fst kv)); [|reflexivity].
  rewrite IH. apply perm_swap.
Qed.

Lemma sort_by_key_perm {A} (l : list (string * A)) :
  Permutation (sort_by_key l) l.
Proof.
  induction l as [|x r IH]; simpl; [reflexivity|].
  rewrite insert_by_key_perm. now constructor.
Qed.

Lemma filter_length_perm {A} (f : A -> bool) l l' :
  Permutation l l' ->
  List.length (List.filter f l) = List.length (List.filter f l').
Proof.
  induction 1 as [|x l l' _ IH|x y l|l l' l'' _ IH1 _ IH2]; simpl.
  - reflexivity.
  - destruct (f x); simpl; now rewrite IH.
  - destruct (f x), (f y); reflexivity.
  - now rewrite IH1.
Qed.

Lemma yields_none : yields None = false.
Proof. reflexivity. Qed.

Lemma accumulate_length files acc bs :
  accumulate files acc = Ok bs ->
  List.length bs = (List.length acc + List.length (yielding files))%nat.
Proof.
  revert acc. induction files as [|[fp f] rest IH]; intros acc H.
  - injection H as <-. simpl. lia.
  - cbn [accumulate] in H. unfold yielding in *. cbn [List.filter snd].
    unfold yields at 1.
    destruct (load_first_benchmark f) eqn:E;
      try (destruct (py_dict _) as [b'|e]; [|discriminate];
           cbn [bind] in H; apply IH in H; rewrite H, length_app; simpl; lia).
    now apply IH in H.
Qed.

Lemma accumulate_nothing files acc :
  Forall (fun pf => load_first_benchmark (snd pf) = VNone) files ->
  accumulate files acc = Ok acc.
Proof.
  induction 1 as [|[fp f] rest Hf _ IH]; [reflexivity|].
  cbn [accumulate]. simpl in Hf. now rewrite Hf.
Qed.

(** ** Re-injection of the combined profile *)

Lemma attach_carries p b b' :
  attach p b = Ok b' -> carries p b'.
Proof.
  unfold attach. intros H.
  destruct (rec_get b (KStr "args")) as [a|] eqn:E.
  - destruct a; try discriminate. injection H as <-.
    exists (dict_set entries "profile" (VDict p)). split.
    + apply rec_get_set_same.
    + apply dict_get_set_same.
  - injection H as <-. exists (dict_set [] "profile" (VDict p)). split.
    + apply rec_get_set_same.
    + reflexivity.
Qed.

Lemma attach_all_spec p bs out :
  attach_all p bs = Ok out ->
  List.length out = List.length bs /\ Forall (carries p) out.
Proof.
  revert out. induction bs as [|b rest IH]; intros out H.
  - injection H as <-. now split.
  - cbn [attach_all] in H.
    destruct (attach p b) as [b'|] eqn:Eb; [|discriminate].
    destruct (attach_all p rest) as [rest'|] eqn:Er; [|discriminate].
    injection H as <-. destruct (IH _ eq_refl) as [Hl Hc]. split.
    + simpl. now rewrite Hl.
    + constructor; [|exact Hc]. eapply attach_carries, Eb.
Qed.

Lemma carries_functional p q r : carries p r -> carries q r -> p = q.
Proof.
  intros (a & Ha & Hp) (a' & Ha' & Hq). congruence.
Qed.

Lemma carries_tagged p r tag :
  carries p r -> carries p (rec_set r (KStr "__combined_from") tag).
Proof.
  intros (a & Ha & Hp). exists a. split; [|exact Hp].
  rewrite rec_get_set_other; [exact Ha | discriminate].
Qed.

(** What a successful merge is made of. *)
Lemma merge_ok_inv float_repr input_dir found doc :
  merge_benchmark_files float_repr input_dir found = Ok doc ->
  exists bs sw out,
    accumulate (sort_by_key found) [] = Ok bs /\
    bs <> [] /\
    collect bs = Ok sw /\
    attach_all (combined_profile float_repr (List.length bs) sw) bs = Ok out /\
    benchmarks doc =
      map (fun b => rec_set b (KStr "__combined_from")
                      (VStr (basename (rstrip_slash input_dir)))) out.
Proof.
  unfold merge_benchmark_files, aggregate. intros H.
  destruct (accumulate (sort_by_key found) []) as [bs|] eqn:Ea; [|discriminate].
  cbn [bind] in H. destruct bs as [|b0 bs0] eqn:Ebs; [discriminate|].
  rewrite <- Ebs in *.
  destruct (collect bs) as [sw|] eqn:Ec; [|discriminate].
  cbn [bind] in H.
  destruct (attach_all _ bs) as [out|] eqn:Eo; [|discriminate].
  injection H as <-. exists bs, sw, out. repeat split; try assumption.
  rewrite Ebs. discriminate.
Qed.

(** ** The output document *)

(** C5.  A successful merge returns as many records as there are input
    files that yield one: a file that cannot be read or decoded, or whose
    document gives [None], adds no entry. *)
Theorem merge_record_count float_repr input_dir found doc :
  merge_benchmark_files float_repr input_dir found = Ok doc ->
  List.length (benchmarks doc) = List.length (yielding found).
Proof.
  intros H. apply merge_ok_inv in H as (bs & sw & out & Ha & _ & _ & Ho & ->).
  apply accumulate_length in Ha. cbn [List.length Nat.add] in Ha.
  apply attach_all_spec in Ho as [Hl _].
  rewrite List.length_map. etransitivity; [exact Hl|]. rewrite Ha.
  unfold yielding.
  apply filter_length_perm, sort_by_key_perm.
Qed.

(** Scenario A next to an unreadable file and an empty list: two records. *)
Lemma merge_record_count_witness :
  exists doc,
    merge_benchmark_files no_float_repr "runs"
      (("runs/c.json", None) :: ("runs/d.json", Some (VList [])) :: scenario_a)
    = Ok doc /\
    List.length (benchmarks doc) = 2%nat /\
    List.length
      (yielding
         (("runs/c.json", None) :: ("runs/d.json", Some (VList []))
            :: scenario_a)) = 2%nat.
Proof.
  destruct (merge_benchmark_files _ _ _) as [doc|e] eqn:E;
    [|vm_compute in E; discriminate].
  exists doc. split; [reflexivity|]. split; [|reflexivity].
  rewrite (merge_record_count _ _ _ _ E). reflexivity.
Defined.

(** C4.  In the document of a successful merge every record's
    [args.profile] is the combined profile of that run, so any two records
    hold equal profiles. *)
Theorem merge_shares_profile float_repr input_dir found doc :
  merge_benchmark_files float_repr input_dir found = Ok doc ->
  (exists bs sw,
      accumulate (sort_by_key found) [] = Ok bs /\
      collect bs = Ok sw /\
      Forall (carries (combined_profile float_repr (List.length bs) sw))
        (benchmarks doc)) /\
  (forall r1 r2 p1 p2,
      In r1 (benchmarks doc) -> In r2 (benchmarks doc) ->
      carries p1 r1 -> carries p2 r2 -> p1 = p2).
Proof.
  intros H. apply merge_ok_inv in H as (bs & sw & out & Ha & _ & Hc & Ho & ->).
  assert (Hall : Forall (carries (combined_profile float_repr (List.length bs) sw))
                   (benchmarks
                      (Document
                         (map (fun b => rec_set b (KStr "__combined_from")
                                          (VStr (basename (rstrip_slash input_dir))))
                            out)))).
  { apply attach_all_spec in Ho as [_ Hk].
    apply List.Forall_map. eapply List.Forall_impl; [|exact Hk].
    intros r Hr. now apply carries_tagged. }
  split; [now exists bs, sw|].
  intros r1 r2 p1 p2 H1 H2 C1 C2. rewrite List.Forall_forall in Hall.
  rewrite (carries_functional _ _ _ C1 (Hall _ H1)).
  now rewrite (carries_functional _ _ _ C2 (Hall _ H2)).
Qed.

(** Scenario A: both records carry the profile with rates 1, 2, 3. *)
Lemma merge_shares_profile_witness :
  exists doc,
    merge_benchmark_files no_float_repr "runs" scenario_a = Ok doc /\
    Forall
      (carries [("type_", VStr "concurrent");
                ("completed_strategies", VInt 2);
                ("measured_rates", VList [VInt 1; VInt 2; VInt 3])])
      (benchmarks doc).
Proof.
  destruct (merge_benchmark_files _ _ _) as [doc|e] eqn:E;
    [|vm_compute in E; discriminate].
  exists doc. split; [reflexivity|].
  destruct (merge_shares_profile _ _ _ _ E) as [(bs & sw & Ha & Hc & Hall) _].
  vm_compute in Ha. injection Ha as <-.
  vm_compute in Hc. injection Hc as <-. exact Hall.
Defined.

(** C8.  When no file yields a record the merge ends with [SystemExit] and
    its message, and [main] ends with exit status 1 and nothing written;
    so does a run whose input is not a directory. *)
Theorem no_records_is_fatal float_repr input_dir found output :
  Forall (fun pf => load_first_benchmark (snd pf) = VNone) found ->
  merge_benchmark_files float_repr input_dir found
  = Raise (SystemExit ("No benchmark entries found in " ++ input_dir)%string) /\
  main float_repr input_dir true found output
  = Aborted (SystemExit ("No benchmark entries found in " ++ input_dir)%string) /\
  forall is_dir,
    exists msg,
      main float_repr input_dir is_dir found output = Aborted (SystemExit msg) /\
      exit_status (main float_repr input_dir is_dir found output) = 1.
Proof.
  intros Hall.
  assert (Hm : merge_benchmark_files float_repr input_dir found
               = Raise (SystemExit
                          ("No benchmark entries found in " ++ input_dir)%string)).
  { unfold merge_benchmark_files. rewrite accumulate_nothing; [reflexivity|].
    eapply Permutation_Forall; [|exact Hall].
    symmetry. apply sort_by_key_perm. }
  split; [exact Hm|]. split.
  - unfold main. now rewrite Hm.
  - intros [|]; unfold main; simpl.
    + rewrite Hm. eauto.
    + eauto.
Qed.

(** Scenario B: a file holding the empty list and one holding the empty
    dict. *)
Lemma no_records_is_fatal_witness :
  main no_float_repr "runs" true scenario_b "out/merged.json"
  = Aborted (SystemExit "No benchmark entries found in runs").
Proof.
  refine (proj1 (proj2 (no_records_is_fatal no_float_repr "runs" scenario_b
                          "out/merged.json" _))).
  repeat constructor.
Defined.

(** ** Where the run can end early *)

(** C9, as the code has it.  The extractor hands back the first item of a
    list whatever it is; line 51 then calls [dict] on it.  A file holding
    [[1]] therefore ends the whole run with [TypeError], and a record whose
    [args] is [null] ends it with [AttributeError] at line 66, although the
    other files of the directory are sound. *)
Theorem one_file_ends_the_run float_repr :
  load_first_benchmark (Some (VList [VInt 1])) = VInt 1 /\
  merge_benchmark_files float_repr "runs"
    (("runs/0.json", Some (VList [VInt 1])) :: scenario_a)
  = Raise TypeError /\
  merge_benchmark_files float_repr "runs"
    (("runs/0.json", Some (VDict [("type_", VStr "x"); ("args", VNone)]))
       :: scenario_a)
  = Raise AttributeError /\
  exists h,
    Store.merge_benchmark_files float_repr "runs"
      (("runs/0.json", Some (VList [VInt 1])) :: scenario_a) []
    = Some (Raise TypeError, h).
Proof.
  split; [reflexivity|].
  split; [vm_compute; reflexivity|].
  split; [vm_compute; reflexivity|].
  eexists. vm_compute. reflexivity.
Qed.

(** ** Copies and aliases *)

(** C6, as the code has it.  [b_copy.setdefault('args', {})] returns the
    [args] dict the accumulated record already holds, and line 135 assigns
    into it.  On one file with an [args] dict: the accumulated record [b]
    and the output record [o] are two objects, both point to the one
    [args] object [a], and what [a] holds under [profile] is the decoded
    profile before the loop of lines 132-136 and the combined profile after
    it. *)
Theorem attach_mutates_shared_args float_repr :
  exists h1 h2 b o p a,
    Store.accumulate (sort_by_key one_run) [] [] = Some (Ok [b], h1) /\
    Store.merge_benchmark_files float_repr "runs" one_run []
    = Some (Ok (Store.Merged [b] p [o]), h2) /\
    Nat.eqb b o = false /\
    object_field h1 b "args" = Some (Store.PRef a) /\
    object_field h2 b "args" = Some (Store.PRef a) /\
    object_field h2 o "args" = Some (Store.PRef a) /\
    Store.read h1 (Store.PRef a)
    = Some (VDict [("profile", VDict [("measured_rates", VList [VInt 1])])]) /\
    Store.read h2 (Store.PRef a)
    = Some (VDict [("profile",
                    VDict [("type_", VStr "concurrent");
                           ("completed_strategies", VInt 1);
                           ("measured_rates", VList [VInt 1])])]).
Proof.
  eexists _, _, _, _, _, _.
  repeat (split; [vm_compute; reflexivity|]).
  vm_compute. reflexivity.
Qed.

(** The steps of the store, one by one. *)
Lemma mbind_ok {A B} (m : Store.M A) (k : A -> Store.M B) h a h' :
  m h = Some (Ok a, h') -> Store.mbind m k h = k a h'.
Proof. unfold Store.mbind. now intros ->. Qed.

Lemma load_ok (h : Store.heap) l o :
  h !! l = Some o -> Store.load l h = Some (Ok o, h).
Proof. unfold Store.load. now intros ->. Qed.

Lemma py_dict_copy (h : Store.heap) l d :
  h !! l = Some (Store.ODict d) ->
  Store.py_dict (Store.PRef l) h
  = Some (Ok (List.length h), h ++ [Store.ODict d]).
Proof.
  intros H. unfold Store.py_dict.
  now rewrite (mbind_ok _ _ _ _ _ (load_ok _ _ _ H)).
Qed.

Lemma setdefault_present (h : Store.heap) l d k v :
  h !! l = Some (Store.ODict d) ->
  assoc_get hkey_eqb d k = Some v ->
  Store.setdefault_empty l k h = Some (Ok v, h ++ [Store.ODict []]).
Proof.
  intros H Hk. unfold Store.setdefault_empty.
  rewrite (mbind_ok _ _ _ _ _ (load_ok _ _ _ H)).
  unfold Store.mbind, Store.alloc. now rewrite Hk.
Qed.

Lemma set_key_ok (h : Store.heap) l d k v :
  h !! l = Some (Store.ODict d) ->
  Store.set_key l k v h
  = Some (Ok tt, <[l := Store.ODict (assoc_set hkey_eqb d k v)]> h).
Proof.
  intros H. unfold Store.set_key.
  rewrite (mbind_ok _ _ _ _ _ (load_ok _ _ _ H)).
  unfold Store.store. now rewrite H.
Qed.

(** Lines 133-136 on any heap in which the record at [b] has an [args]
    dict at [a]: the copy made at line 133 holds the entries of [b], so
    the same reference to [a]; the dict at [a] is the one that is updated,
    in place; the profile it is given is a new copy; no other object
    changes. *)
Lemma attach_aliases (h : Store.heap) b d a da p dp :
  h !! b = Some (Store.ODict d) ->
  assoc_get hkey_eqb d (KStr "args") = Some (Store.PRef a) ->
  h !! a = Some (Store.ODict da) ->
  h !! p = Some (Store.ODict dp) ->
  exists h',
    Store.attach p b h = Some (Ok (List.length h), h') /\
    h' !! List.length h = Some (Store.ODict d) /\
    h' !! a
    = Some (Store.ODict
              (assoc_set hkey_eqb da (KStr "profile")
                 (Store.PRef (List.length h + 2)%nat))) /\
    h' !! (List.length h + 2)%nat = Some (Store.ODict dp) /\
    forall l, (l < List.length h)%nat -> l <> a -> h' !! l = h !! l.
Proof.
  intros Hb Hargs Ha Hp.
  pose proof (lookup_lt_Some _ _ _ Ha) as La.
  set (n := List.length h).
  set (h1 := h ++ [Store.ODict d]).
  set (h2 := h1 ++ [Store.ODict []]).
  set (h3 := h2 ++ [Store.ODict dp]).
  assert (L1 : List.length h1 = S n) by (unfold h1; rewrite length_app; cbn; lia).
  assert (L2 : List.length h2 = (n + 2)%nat)
    by (unfold h2; rewrite length_app; cbn; lia).
  assert (L3 : List.length h3 = (n + 3)%nat)
    by (unfold h3; rewrite length_app; cbn; lia).
  assert (Hn1 : h1 !! n = Some (Store.ODict d)).
  { unfold h1, n. now rewrite list_lookup_middle. }
  assert (Hp2 : h2 !! p = Some (Store.ODict dp)).
  { unfold h2, h1. rewrite <- app_assoc. apply lookup_app_l_Some, Hp. }
  assert (Ha3 : h3 !! a = Some (Store.ODict da)).
  { unfold h3, h2, h1. rewrite <- !app_assoc. apply lookup_app_l_Some, Ha. }
  exists (<[a := Store.ODict (assoc_set hkey_eqb da (KStr "profile")
                                (Store.PRef (n + 2)%nat))]> h3).
  split; [|split; [|split; [|split]]].
  - unfold Store.attach.
    rewrite (mbind_ok _ _ _ _ _ (py_dict_copy _ _ _ Hb)). fold n h1.
    rewrite (mbind_ok _ _ _ _ _ (setdefault_present _ _ _ _ _ Hn1 Hargs)).
    fold h2.
    rewrite (mbind_ok _ _ _ _ _ (py_dict_copy _ _ _ Hp2)). fold h3.
    rewrite L2. unfold Store.set_item.
    now rewrite (mbind_ok _ _ _ _ _ (set_key_ok _ _ _ _ _ Ha3)).
  - rewrite list_lookup_insert_ne by lia.
    unfold h3, h2. rewrite <- app_assoc. now apply lookup_app_l_Some.
  - apply list_lookup_insert_eq. lia.
  - rewrite list_lookup_insert_ne by lia.
    unfold h3. rewrite <- L2. now rewrite list_lookup_middle.
  - intros l Hl Hne. rewrite list_lookup_insert_ne by congruence.
    unfold h3, h2, h1. rewrite <- !app_assoc. now apply lookup_app_l.
Qed.

(** The copies of the combined profile are one dict per output record, and
    they hold the same list objects: on scenario A the two records have
    profiles at two locations whose [measured_rates] is one list. *)
Lemma profile_copies_share_lists float_repr :
  exists h b1 b2 p o1 o2 a1 a2 p1 p2 rates,
    Store.merge_benchmark_files float_repr "runs" scenario_a []
    = Some (Ok (Store.Merged [b1; b2] p [o1; o2]), h) /\
    object_field h o1 "args" = Some (Store.PRef a1) /\
    object_field h o2 "args" = Some (Store.PRef a2) /\
    object_field h a1 "profile" = Some (Store.PRef p1) /\
    object_field h a2 "profile" = Some (Store.PRef p2) /\
    Nat.eqb p1 p2 = false /\
    object_field h p1 "measured_rates" = Some (Store.PRef rates) /\
    object_field h p2 "measured_rates" = Some (Store.PRef rates).
Proof.
  eexists _, _, _, _, _, _, _, _, _, _, _.
  repeat (split; [vm_compute; reflexivity|]).
  vm_compute. reflexivity.
Qed.

(** On the examples the two layers agree: the heap the store layer leaves
    reads back as the document of the value layer. *)
Lemma layers_agree_on_scenario_a float_repr :
  exists m h,
    Store.merge_benchmark_files float_repr "runs" scenario_a [] = Some (Ok m, h) /\
    option_map Ok (Store.read_document h m)
    = Some (merge_benchmark_files float_repr "runs" scenario_a).
Proof.
  eexists _, _. split; vm_compute; reflexivity.
Qed.

Lemma layers_agree_on_mixed_run float_repr :
  exists m h,
    Store.merge_benchmark_files float_repr "runs/" mixed_run [] = Some (Ok m, h) /\
    option_map Ok (Store.read_document h m)
    = Some (merge_benchmark_files float_repr "runs/" mixed_run).
Proof.
  eexists _, _. split; vm_compute; reflexivity.
Qed.

(** ** Keys of the deduplicator *)

Lemma num_same_refl x : num_same x x = true.
Proof.
  destruct x as [|s|q]; simpl; [reflexivity| |].
  - now destruct s.
  - apply Qeq_bool_iff. reflexivity.
Qed.

Lemma num_same_sym x y : num_same x y = num_same y x.
Proof.
  destruct x as [|s|p], y as [|t|q]; simpl; try reflexivity.
  - now destruct s, t.
  - apply Bool.eq_iff_eq_true. rewrite !Qeq_bool_iff. split; intros H; now symmetry.
Qed.

Lemma num_same_trans x y z :
  num_same x y = true -> num_same y z = true -> num_same x z = true.
Proof.
  destruct x as [|s|p], y as [|t|q], z as [|u|r]; simpl; try discriminate;
    try reflexivity.
  - destruct s, t, u; simpl; congruence.
  - rewrite !Qeq_bool_iff. intros H1 H2. now rewrite H1.
Qed.

Lemma hkey_eqb_refl a : hkey_eqb a a = true.
Proof.
  destruct a; cbn [hkey_eqb hkey_num]; try apply num_same_refl;
    [reflexivity|].
  apply String.eqb_refl.
Qed.

Lemma hkey_eqb_sym a b : hkey_eqb a b = hkey_eqb b a.
Proof.
  destruct a, b; cbn [hkey_eqb hkey_num]; try reflexivity;
    try apply num_same_sym.
  apply String.eqb_sym.
Qed.

Lemma hkey_eqb_trans a b c :
  hkey_eqb a b = true -> hkey_eqb b c = true -> hkey_eqb a c = true.
Proof.
  destruct a, b, c; cbn [hkey_eqb hkey_num]; try discriminate;
    try reflexivity; try apply num_same_trans.
  intros ->%String.eqb_eq. exact id.
Qed.

(** A key equal to a seen key is seen. *)
Lemma seen_has_equiv seen a b :
  hkey_eqb a b = true -> seen_has seen a = seen_has seen b.
Proof.
  intros Hab. unfold seen_has. induction seen as [|k r IH]; simpl; [reflexivity|].
  rewrite IH. f_equal. apply Bool.eq_iff_eq_true. split; intros H.
  - eapply hkey_eqb_trans; [|exact H]. now rewrite hkey_eqb_sym.
  - eapply hkey_eqb_trans; eassumption.
Qed.

Lemma seen_has_app s1 s2 k :
  seen_has (s1 ++ s2) k = seen_has s1 k || seen_has s2 k.
Proof. apply existsb_app. Qed.

Lemma seen_has_cons a s k : seen_has (a :: s) k = hkey_eqb k a || seen_has s k.
Proof. reflexivity. Qed.

(** ** The deduplicator *)

Section uniq_facts.
Variable float_repr : spec_float -> string.

Local Abbreviation key := (uniq_key float_repr).
Local Abbreviation uniq_loop := (uniq_loop float_repr).
Local Abbreviation uniq := (uniq float_repr).

(** [out] only grows at its end. *)
Lemma uniq_loop_out seq seen out :
  uniq_loop seq seen out = out ++ uniq_loop seq seen [].
Proof.
  revert seen out. induction seq as [|x rest IH]; intros seen out; simpl.
  - now rewrite app_nil_r.
  - destruct (seen_has seen (key x)); [apply IH|].
    rewrite IH, (IH _ [x]). now rewrite <- app_assoc.
Qed.

Lemma uniq_loop_cons x rest seen :
  uniq_loop (x :: rest) seen [] =
  if seen_has seen (key x) then uniq_loop rest seen []
  else x :: uniq_loop rest (key x :: seen) [].
Proof.
  simpl. destruct (seen_has seen (key x)); [reflexivity|].
  now rewrite uniq_loop_out.
Qed.

Lemma uniq_loop_sublist seq seen : sublist (uniq_loop seq seen []) seq.
Proof.
  revert seen. induction seq as [|x rest IH]; intros seen.
  - constructor.
  - rewrite uniq_loop_cons. destruct (seen_has seen (key x)).
    + apply sublist_cons, IH.
    + apply sublist_skip, IH.
Qed.

Lemma uniq_loop_app l1 l2 seen :
  uniq_loop (l1 ++ l2) seen [] =
  uniq_loop l1 seen [] ++
  uniq_loop l2 (rev (map key (uniq_loop l1 seen [])) ++ seen) [].
Proof.
  revert seen. induction l1 as [|x l1 IH]; intros seen; [reflexivity|].
  rewrite <- app_comm_cons, !uniq_loop_cons.
  destruct (seen_has seen (key x)); [apply IH|].
  rewrite IH. cbn [map rev app]. now rewrite <- !app_assoc.
Qed.

(** The survivors stand for every item met: a key is seen after a scan
    exactly when it equals a key that was seen before it or a key of the
    scanned list. *)
Lemma seen_after_scan l seen k :
  seen_has (rev (map key (uniq_loop l seen [])) ++ seen) k =
  seen_has (map key l ++ seen) k.
Proof.
  revert seen. induction l as [|x l IH]; intros seen; [reflexivity|].
  rewrite uniq_loop_cons. destruct (seen_has seen (key x)) eqn:Ex.
  - rewrite IH. cbn [map app]. rewrite seen_has_cons.
    destruct (hkey_eqb k (key x)) eqn:Ek; [|reflexivity].
    rewrite seen_has_app, (seen_has_equiv seen _ _ Ek), Ex.
    apply Bool.orb_true_r.
  - cbn [map rev]. rewrite <- app_assoc. cbn [app]. rewrite IH.
    rewrite !seen_has_app, !seen_has_cons, seen_has_app.
    destruct (hkey_eqb k (key x)), (seen_has (map key l) k),
      (seen_has seen k); reflexivity.
Qed.

Lemma seen_has_keys l k :
  seen_has (map key l) k = existsb (fun y => hkey_eqb k (key y)) l.
Proof. unfold seen_has. induction l; simpl; congruence. Qed.

(** An item is appended exactly when no earlier item has its key. *)
Lemma uniq_snoc pre x :
  uniq (pre ++ [x]) =
  if existsb (fun y => hkey_eqb (key x) (key y)) pre then uniq pre
  else uniq pre ++ [x].
Proof.
  unfold uniq. rewrite uniq_loop_app, uniq_loop_cons.
  pose proof (seen_after_scan pre [] (key x)) as H.
  rewrite H, app_nil_r, seen_has_keys.
  destruct (existsb _ pre); [apply app_nil_r | reflexivity].
Qed.

(** For scalars, equal keys and equal values are one notion. *)
Lemma scalar_keys x y :
  is_scalar x = true -> is_scalar y = true ->
  hkey_eqb (key x) (key y) = py_same x y.
Proof. destruct x, y; simpl; intros; try discriminate; reflexivity. Qed.
End uniq_facts.

(** ** The order of texts and the sorting of keys *)

Lemma ltb_lt a b : String.ltb a b = true <-> String_as_OT.lt a b.
Proof.
  unfold String.ltb. rewrite <- String_as_OT.cmp_lt. unfold String_as_OT.cmp.
  destruct (String.compare a b); split; congruence.
Qed.

Lemma ltb_trans a b c :
  String.ltb a b = true -> String.ltb b c = true -> String.ltb a c = true.
Proof. rewrite !ltb_lt. apply String_as_OT.lt_trans. Qed.

Lemma ltb_irrefl a : String.ltb a a = false.
Proof.
  destruct (String.ltb a a) eqn:E; [|reflexivity].
  apply ltb_lt, String_as_OT.lt_not_eq in E. now destruct E.
Qed.

Lemma ltb_asym a b : String.ltb a b = true -> String.ltb b a = false.
Proof.
  intros H. destruct (String.ltb b a) eqn:E; [|reflexivity].
  now rewrite <- (ltb_irrefl a), <- (ltb_trans _ _ _ H E).
Qed.

Lemma ltb_total a b :
  a <> b -> String.ltb a b = true \/ String.ltb b a = true.
Proof.
  intros Hne. unfold String.ltb. rewrite (String.compare_antisym b a).
  destruct (String.compare a b) eqn:E; simpl; auto.
  now apply String.compare_eq_iff in E.
Qed.

Lemma insert_by_key_comm {A} (a b : string * A) l :
  fst a <> fst b ->
  insert_by_key a (insert_by_key b l) = insert_by_key b (insert_by_key a l).
Proof.
  intros Hne.
  assert (Hab : String.ltb (fst a) (fst b) = negb (String.ltb (fst b) (fst a))).
  { destruct (ltb_total _ _ Hne) as [H|H]; rewrite H.
    - now rewrite (ltb_asym _ _ H).
    - now rewrite (ltb_asym _ _ H). }
  induction l as [|x r IH]; cbn [insert_by_key].
  - rewrite Hab. now destruct (String.ltb (fst b) (fst a)).
  - destruct (String.ltb (fst x) (fst b)) eqn:Exb,
             (String.ltb (fst x) (fst a)) eqn:Exa;
      cbn [insert_by_key]; rewrite ?Exa, ?Exb.
    + now rewrite IH.
    + destruct (String.ltb (fst a) (fst b)) eqn:E; [reflexivity|].
      symmetry in Hab. apply Bool.negb_false_iff in Hab.
      now rewrite (ltb_trans _ _ _ Exb Hab) in Exa.
    + destruct (String.ltb (fst b) (fst a)) eqn:E; [reflexivity|].
      cbn [negb] in Hab. now rewrite (ltb_trans _ _ _ Exa Hab) in Exb.
    + rewrite Hab. now destruct (String.ltb (fst b) (fst a)).
Qed.

(** Sorting forgets the order in which distinct keys arrive. *)
Lemma sort_by_key_perm_eq {A} (l l' : list (string * A)) :
  Permutation l l' -> List.NoDup (map fst l) -> sort_by_key l = sort_by_key l'.
Proof.
  induction 1 as [|x l l' _ IH|x y l|l l' l'' H1 IH1 _ IH2]; intros Hnd.
  - reflexivity.
  - simpl. rewrite IH; [reflexivity|]. now inversion Hnd.
  - simpl. apply insert_by_key_comm.
    simpl in Hnd. apply List.NoDup_cons_iff in Hnd as [Hy _].
    intros E. apply Hy. left. now symmetry.
  - rewrite IH1 by assumption. apply IH2.
    eapply Permutation_NoDup; [|exact Hnd]. now apply Permutation_map.
Qed.

(** ** The serialization forgets the order of keys *)

Section dumps_facts.
Variable float_repr : spec_float -> string.

Lemma map_related {A B} (f : A -> B) (R : A -> A -> Prop) l l' :
  Forall (fun x => forall y, R x y -> f x = f y) l ->
  Forall2 R l l' ->
  map f l = map f l'.
Proof.
  intros HF H2. induction H2 as [|x y l l' Hxy _ IH]; [reflexivity|].
  inversion HF; subst. cbn [map]. f_equal; auto.
Qed.

Lemma dumps_reordered x :
  forall y, reordered x y -> dumps float_repr x = dumps float_repr y.
Proof.
  induction x as [| | | | |items IH|entries IH] using value_nested_ind;
    intros y H; inversion H as [| | | | |l1 l2 HF|d1 d d2 Hnd Hperm HF];
    subst; try reflexivity.
  - cbn [dumps]. do 3 f_equal. exact (map_related _ _ _ _ IH HF).
  - cbn [dumps]. do 4 f_equal.
    set (f := fun kv : string * value => (fst kv, dumps float_repr (snd kv))).
    transitivity (sort_by_key (map f d)).
    + apply sort_by_key_perm_eq; [now apply Permutation_map|].
      now rewrite map_map.
    + f_equal. eapply map_related; [|exact HF].
      eapply Permutation_Forall in IH; [|exact Hperm].
      eapply List.Forall_impl; [|exact IH].
      intros [k v] Hv [k' v'] [Hk Hr]. cbn [fst snd] in *. unfold f.
      cbn [fst snd]. now rewrite Hk, (Hv _ Hr).
Qed.
End dumps_facts.

(** ** Equality and order of values *)

Lemma forallb_ext_in {A} (f g : A -> bool) l :
  (forall x, In x l -> f x = g x) -> forallb f l = forallb g l.
Proof.
  induction l as [|a l IH]; intros H; [reflexivity|]. cbn.
  rewrite (H a (or_introl eq_refl)), IH; [reflexivity|].
  intros x Hx. apply H. now right.
Qed.

Lemma dict_get_in d k v : dict_get d k = Some v -> exists k', In (k', v) d.
Proof.
  unfold dict_get. induction d as [|[k0 v0] r IH]; cbn; [discriminate|].
  destruct (String.eqb k k0).
  - intros [= ->]. exists k0. now left.
  - intros H. destruct (IH H) as [k' Hk]. exists k'. now right.
Qed.

Lemma py_same_list_cons x la y lb :
  py_same (VList (x :: la)) (VList (y :: lb))
  = py_same x y && py_same (VList la) (VList lb).
Proof. reflexivity. Qed.

Lemma py_same_dict da db :
  py_same (VDict da) (VDict db)
  = forallb (fun kv => match dict_get db (fst kv) with
                       | Some w => py_same (snd kv) w
                       | None => false
                       end) da
    && forallb (fun kw => match dict_get da (fst kw) with
                          | Some v => py_same v (snd kw)
                          | None => false
                          end) db.
Proof.
  cbn [py_same]. f_equal.
  - induction da as [|[k v] r IH]; [reflexivity|]. cbn [forallb fst snd].
    now rewrite <- IH.
  - induction db as [|[k w] r IH]; [reflexivity|]. cbn [forallb fst snd].
    rewrite <- IH. f_equal. clear IH.
    unfold dict_get. induction da as [|[k' v] r' IH']; [reflexivity|].
    cbn [assoc_get]. now destruct (String.eqb k k').
Qed.

Lemma py_same_sym a : forall b, py_same a b = py_same b a.
Proof.
  induction a as [| | | | |items IH|entries IH] using value_nested_ind;
    intros y; destruct y as [| | | | |items'|entries'];
    try reflexivity; try (cbn [py_same value_num]; apply num_same_sym).
  - cbn [py_same]. apply String.eqb_sym.
  - revert items'. induction IH as [|x l Hx _ IHl]; intros [|y l'];
      try reflexivity.
    rewrite !py_same_list_cons. now rewrite Hx, IHl.
  - rewrite !py_same_dict. rewrite Bool.andb_comm. f_equal.
    + apply forallb_ext_in. intros [k w] _. cbn [fst snd].
      destruct (dict_get entries k) as [v|] eqn:E; [|reflexivity].
      apply dict_get_in in E as [k' Hin].
      rewrite List.Forall_forall in IH. apply (IH _ Hin w).
    + apply forallb_ext_in. intros [k v] Hin. cbn [fst snd].
      destruct (dict_get entries' k) as [w|]; [|reflexivity].
      rewrite List.Forall_forall in IH. apply (IH _ Hin w).
Qed.

Lemma num_ltb_asym x y : num_ltb x y = true -> num_ltb y x = true -> False.
Proof.
  destruct x as [|s|p], y as [|t|q]; cbn; try discriminate.
  - destruct s, t; discriminate.
  - destruct s; discriminate.
  - destruct t; discriminate.
  - intros H1 H2. apply Bool.negb_true_iff in H1, H2.
    destruct (Qlt_le_dec p q) as [H|H].
    + apply Qlt_le_weak, Qle_bool_iff in H. congruence.
    + apply Qle_bool_iff in H. congruence.
Qed.

Lemma num_lt_asym x y :
  @Ok bool (num_ltb x y) = Ok true -> @Ok bool (num_ltb y x) = Ok true -> False.
Proof. intros [= H1] [= H2]. exact (num_ltb_asym _ _ H1 H2). Qed.

Lemma py_lt_list_cons x la y lb :
  py_lt (VList (x :: la)) (VList (y :: lb))
  = if py_same x y then py_lt (VList la) (VList lb) else py_lt x y.
Proof. reflexivity. Qed.

(** [<] never holds both ways. *)
Lemma py_lt_asym a :
  forall b, py_lt a b = Ok true -> py_lt b a = Ok true -> False.
Proof.
  induction a as [| | | | |items IH|entries IH] using value_nested_ind;
    intros y; destruct y as [| | | | |items'|entries'];
    try discriminate;
    try (cbn [py_lt value_num]; apply num_lt_asym).
  - cbn [py_lt]. intros [= H1] [= H2]. apply ltb_asym in H1. congruence.
  - revert items'. induction IH as [|x l Hx _ IHl]; intros [|y l'];
      try discriminate.
    rewrite !py_lt_list_cons, (py_same_sym y x).
    destruct (py_same x y); [apply IHl | apply Hx].
Qed.

(** ** Sorting *)

Lemma comparable_sym a b : comparable a b -> comparable b a.
Proof.
  intros (u & v & Hu & Hv & H). exists v, u. repeat split; try assumption.
  tauto.
Qed.

(** Where the pivot lands: behind the items it is below, before the first
    it is not. *)
Lemma sorted_insert_split pivot rp r' :
  sorted_insert (fun x => x) pivot rp = Ok r' ->
  exists l1 l2,
    rp = l1 ++ l2 /\ r' = l1 ++ pivot :: l2 /\
    Forall (fun e => py_lt pivot e = Ok true) l1 /\
    match l2 with
    | [] => True
    | e :: _ => py_lt pivot e = Ok false
    end.
Proof.
  revert r'. induction rp as [|e r IH]; intros r' H; cbn [sorted_insert] in H.
  - injection H as <-. now exists [], [].
  - destruct (py_lt pivot e) as [[|]|] eqn:E; cbn [bind] in H; [| |discriminate].
    + destruct (sorted_insert _ pivot r) as [r1|]; [|discriminate].
      injection H as <-. destruct (IH _ eq_refl) as (l1 & l2 & -> & -> & Hf & Hh).
      exists (e :: l1), l2. repeat split; try assumption. now constructor.
    + injection H as <-. now exists [], (e :: r).
Qed.

Lemma sorted_insert_total pivot rp :
  Forall (fun e => exists b, py_lt pivot e = Ok b) rp ->
  exists r', sorted_insert (fun x => x) pivot rp = Ok r'.
Proof.
  induction 1 as [|e r [b Hb] _ [r1 IH]]; cbn [sorted_insert]; [eauto|].
  rewrite Hb. cbn [bind]. destruct b; [|eauto]. rewrite IH. cbn. eauto.
Qed.

Lemma Sorted_insert_middle {A} (R : A -> A -> Prop) l1 x l2 :
  Sorted R (l1 ++ l2) -> Forall (fun e => R e x) l1 -> HdRel R x l2 ->
  Sorted R (l1 ++ x :: l2).
Proof.
  induction l1 as [|a l1 IH]; intros Hs Hf Hh; cbn [app] in *.
  - constructor; assumption.
  - apply Sorted_inv in Hs as [Hs Ha]. inversion Hf; subst.
    constructor; [now apply IH|].
    destruct l1; cbn [app] in *; constructor; [assumption|].
    now apply HdRel_inv in Ha.
Qed.

Lemma Sorted_middle_inv {A} (R : A -> A -> Prop) l a b r :
  Sorted R (l ++ a :: b :: r) -> R a b.
Proof.
  induction l as [|c l IH]; cbn [app]; intros H.
  - apply Sorted_inv in H as [_ H]. now apply HdRel_inv in H.
  - apply Sorted_inv in H as [H _]. now apply IH.
Qed.

(** The loop of [sorted] on items that are comparable with each other and
    with the prefix already sorted. *)
Lemma sorted_loop_ok seq : forall rp,
  mutually_comparable seq ->
  (forall e x, In e rp -> In x seq -> comparable e x) ->
  Sorted (flip not_above) rp ->
  exists out,
    sorted_loop (fun x => x) seq rp = Ok out /\
    Permutation out (rev seq ++ rp) /\
    Sorted (flip not_above) out.
Proof.
  induction seq as [|x rest IH]; intros rp Hm Hc Hs; cbn [sorted_loop].
  - exists rp. now repeat split.
  - inversion Hm as [|? ? Hx Hrest]; subst.
    destruct (sorted_insert_total x rp) as [r' Hr'].
    { apply List.Forall_forall. intros e He.
      destruct (Hc e x He (or_introl eq_refl)) as (u & v & _ & Hv & _). eauto. }
    rewrite Hr'. cbn [bind].
    destruct (sorted_insert_split _ _ _ Hr') as (l1 & l2 & -> & -> & Hf & Hh).
    destruct (IH (l1 ++ x :: l2)) as (out & Ho & Hp & Hso).
    + exact Hrest.
    + intros e y He Hy. apply in_app_iff in He as [He|[<-|He]].
      * apply Hc; [apply in_app_iff; now left | now right].
      * rewrite List.Forall_forall in Hx. now apply Hx.
      * apply Hc; [apply in_app_iff; now right | now right].
    + apply Sorted_insert_middle; [assumption| |].
      * eapply List.Forall_impl; [|exact Hf]. intros e He. now left.
      * destruct l2 as [|e l2]; constructor.
        destruct (Hc e x) as (u & v & Hu & Hv & H);
          [apply in_app_iff; right; now left | now left |].
        rewrite Hh in Hv. injection Hv as <-.
        destruct H as [->|[H|[H _]]]; [now left | discriminate | now right].
    + exists out. repeat split; [assumption| |assumption].
      rewrite Hp. cbn [rev]. rewrite <- app_assoc. cbn [app].
      apply Permutation_app_head. symmetry. apply Permutation_middle.
Qed.

(** On mutually comparable items [sorted] returns, and what it returns is
    the same items in ascending order. *)
Lemma sorted_ascending seq :
  mutually_comparable seq ->
  exists s, sorted seq = Ok s /\ Permutation s seq /\ ascending s.
Proof.
  intros Hm.
  destruct (sorted_loop_ok seq [] Hm) as (out & Ho & Hp & Hs).
  - intros e x [].
  - constructor.
  - exists (rev out). unfold sorted, sorted_by. rewrite Ho. cbn [bind].
    repeat split.
    + rewrite app_nil_r in Hp. rewrite <- (rev_involutive seq).
      now rewrite <- Hp, <- !Permutation_rev.
    + unfold ascending. rewrite rev_alt.
      apply (Sorted_reverse (flip not_above)), Hs.
Qed.

(** *** Numbers are totally ordered *)

Lemma num_trichotomy a b :
  a <> NNan -> b <> NNan ->
  num_ltb a b = true \/ num_ltb b a = true \/ num_same a b = true.
Proof.
  destruct a as [|s|p], b as [|t|q]; cbn; try congruence; intros _ _.
  - destruct s, t; auto.
  - destruct s; auto.
  - destruct t; auto.
  - destruct (Qlt_le_dec p q) as [H|H].
    + left. apply Bool.negb_true_iff. apply Qlt_not_le in H.
      destruct (Qle_bool q p) eqn:E; [|reflexivity].
      now apply Qle_bool_iff in E.
    + apply Qle_lt_or_eq in H as [H|H].
      * right. left. apply Bool.negb_true_iff. apply Qlt_not_le in H.
        destruct (Qle_bool p q) eqn:E; [|reflexivity].
        now apply Qle_bool_iff in E.
      * right. right. apply Qeq_bool_iff. now symmetry.
Qed.

Lemma num_not_below_trans a b c :
  a <> NNan -> b <> NNan -> c <> NNan ->
  num_ltb b a = false -> num_ltb c b = false -> num_ltb c a = false.
Proof.
  destruct a as [|s|p], b as [|t|q], c as [|u|r]; cbn; try congruence;
    intros _ _ _; try (destruct s); try (destruct t); try (destruct u);
    cbn; try congruence.
  rewrite !Bool.negb_false_iff, !Qle_bool_iff. apply Qle_trans.
Qed.

Lemma ordered_number_num x :
  ordered_number x = true ->
  exists a, value_num x = Some a /\ a <> NNan.
Proof.
  unfold ordered_number. destruct (value_num x) as [[|s|q]|]; try discriminate;
    intros _; eexists; split; try reflexivity; discriminate.
Qed.

Lemma py_lt_num x y a b :
  value_num x = Some a -> value_num y = Some b ->
  py_lt x y = Ok (num_ltb a b) /\ py_same x y = num_same a b.
Proof.
  destruct x, y; cbn; try discriminate; intros [= <-] [= <-]; now split.
Qed.

Lemma ordered_numbers_comparable x y :
  ordered_number x = true -> ordered_number y = true -> comparable x y.
Proof.
  intros (a & Ha & Na)%ordered_number_num (b & Hb & Nb)%ordered_number_num.
  destruct (py_lt_num x y a b Ha Hb) as [Hxy Sxy].
  destruct (py_lt_num y x b a Hb Ha) as [Hyx Syx].
  exists (num_ltb a b), (num_ltb b a). repeat split; try assumption.
  rewrite Sxy, Syx, (num_same_sym b a).
  destruct (num_trichotomy a b Na Nb) as [H|[H|H]]; auto.
Qed.

Lemma ordered_numbers_mutually_comparable l :
  Forall (fun x => ordered_number x = true) l -> mutually_comparable l.
Proof.
  induction 1 as [|x l Hx Hl IH]; constructor; [|exact IH].
  eapply List.Forall_impl; [|exact Hl].
  intros y Hy. now apply ordered_numbers_comparable.
Qed.

Lemma not_above_num x y a b :
  value_num x = Some a -> value_num y = Some b -> a <> NNan -> b <> NNan ->
  not_above x y <-> num_ltb b a = false.
Proof.
  intros Ha Hb Na Nb. unfold not_above.
  destruct (py_lt_num x y a b Ha Hb) as [-> ->]. split.
  - intros [[= H]|H].
    + destruct (num_ltb b a) eqn:E; [|reflexivity].
      now destruct (num_ltb_asym _ _ H E).
    + destruct (num_ltb b a) eqn:E; [|reflexivity].
      destruct a as [|s|p], b as [|t|q]; cbn in *; try congruence.
      * destruct s, t; discriminate.
      * apply Qeq_bool_iff in H. apply Bool.negb_true_iff in E.
        assert (Hle : Qle p q) by (rewrite H; apply Qle_refl).
        apply Qle_bool_iff in Hle. congruence.
  - intros H. destruct (num_trichotomy a b Na Nb) as [H1|[H1|H1]].
    + left. now rewrite H1.
    + congruence.
    + now right.
Qed.

Lemma not_above_numbers_trans x y z :
  ordered_number x = true -> ordered_number y = true ->
  ordered_number z = true ->
  not_above x y -> not_above y z -> not_above x z.
Proof.
  intros (a & Ha & Na)%ordered_number_num (b & Hb & Nb)%ordered_number_num
         (c & Hc & Nc)%ordered_number_num.
  rewrite (not_above_num x y a b), (not_above_num y z b c),
    (not_above_num x z a c) by assumption.
  now apply num_not_below_trans.
Qed.

Lemma Sorted_strongly {A} (R : A -> A -> Prop) (P : A -> Prop) l :
  (forall x y z, P x -> P y -> P z -> R x y -> R y z -> R x z) ->
  Forall P l -> Sorted R l -> StronglySorted R l.
Proof.
  intros Htrans HP Hs. induction Hs as [|a l _ IH Hhd]; [constructor|].
  inversion HP as [|? ? Pa Pl]; subst. specialize (IH Pl).
  constructor; [exact IH|].
  destruct Hhd as [|b l Hab]; [constructor|].
  inversion Pl as [|? ? Pb Pl']; subst.
  apply StronglySorted_inv in IH as [_ Hb].
  constructor; [exact Hab|].
  rewrite List.Forall_forall in *. intros z Hz.
  apply (Htrans a b z); auto.
Qed.

(** Numbers come out of [sorted] in order, each not above all that
    follow. *)
Lemma sorted_numbers u :
  Forall (fun x => ordered_number x = true) u ->
  exists s, sorted u = Ok s /\ Permutation s u /\ StronglySorted not_above s.
Proof.
  intros Hu.
  destruct (sorted_ascending u (ordered_numbers_mutually_comparable u Hu))
    as (s & Hs & Hp & Ha).
  exists s. repeat split; try assumption.
  apply (Sorted_strongly _ (fun x => ordered_number x = true));
    [apply not_above_numbers_trans| |exact Ha].
  eapply Permutation_Forall; [|exact Hu]. now symmetry.
Qed.

(** ** The combined profile *)

Section profile_facts.
Variable float_repr : spec_float -> string.

Local Abbreviation uniq := (uniq float_repr).
Local Abbreviation combined_profile := (combined_profile float_repr).

Lemma combined_profile_rates n sw :
  dict_get (combined_profile n sw) "measured_rates"
  = listed (uniq (measured_rates sw)).
Proof.
  unfold combined_profile.
  destruct (uniq (measured_rates sw)), (uniq (measured_concurrencies sw)),
    (uniq (streams sw)), (uniq (strategy_types sw)); reflexivity.
Qed.

Lemma combined_profile_concurrencies n sw :
  dict_get (combined_profile n sw) "measured_concurrencies"
  = listed (uniq (measured_concurrencies sw)).
Proof.
  unfold combined_profile.
  destruct (uniq (measured_rates sw)), (uniq (measured_concurrencies sw)),
    (uniq (streams sw)), (uniq (strategy_types sw)); reflexivity.
Qed.

Lemma combined_profile_strategy_types n sw :
  dict_get (combined_profile n sw) "strategy_types"
  = listed (uniq (strategy_types sw)).
Proof.
  unfold combined_profile.
  destruct (uniq (measured_rates sw)), (uniq (measured_concurrencies sw)),
    (uniq (streams sw)), (uniq (strategy_types sw)); reflexivity.
Qed.

Lemma combined_profile_streams n sw :
  dict_get (combined_profile n sw) "streams"
  = match uniq (streams sw) with
    | [] => None
    | u => Some (VList (sorted_or_same u))
    end.
Proof.
  unfold combined_profile.
  destruct (uniq (measured_rates sw)), (uniq (measured_concurrencies sw)),
    (uniq (streams sw)), (uniq (strategy_types sw)); reflexivity.
Qed.

End profile_facts.

(** ** The aggregator's scan *)

Lemma absorb_contribution running x :
  absorb running x = running ++ contribution x.
Proof. destruct x; simpl; try reflexivity. now rewrite app_nil_r. Qed.

(** One turn of the loop, when it returns, appends to each running list
    what the record contributes. *)
Lemma collect_one_spec sw b sw' :
  collect_one sw b = Ok sw' ->
  sw' = Sweep (measured_rates sw ++ tracked "measured_rates" b)
              (measured_concurrencies sw ++ tracked "measured_concurrencies" b)
              (streams sw ++ tracked_streams b)
              (strategy_types sw ++ tracked "strategy_types" b).
Proof.
  unfold collect_one, tracked, tracked_streams, args_dict, sub_dict, field.
  destruct (rec_get b (KStr "args")) as [[| | | | | |a]|]; cbn;
    try discriminate.
  - destruct (dict_get a "profile") as [[| | | | | |p]|]; cbn;
      try discriminate.
    + destruct (default VNone (dict_get p "streams")) eqn:Es; cbn;
        try (destruct (dict_get a "strategy") as [[| | | | | |s]|]; cbn;
             try discriminate);
        rewrite ?absorb_contribution, ?app_nil_r; intros [= <-]; reflexivity.
    + destruct (dict_get a "strategy") as [[| | | | | |s]|]; cbn;
        try discriminate;
        rewrite ?absorb_contribution, ?app_nil_r; intros [= <-]; reflexivity.
  - rewrite ?app_nil_r. intros [= <-]. reflexivity.
Qed.

Lemma collect_one_total sw b :
  well_shaped b -> exists sw', collect_one sw b = Ok sw'.
Proof.
  intros (a & p & Ha & Hp & Hs).
  unfold collect_one, args_dict, sub_dict, field in *.
  assert (Hargs : default (VDict []) (rec_get b (KStr "args")) = VDict a).
  { destruct (rec_get b (KStr "args")) as [[| | | | | |a0]|];
      try discriminate; now injection Ha as ->. }
  assert (Hprof : default (VDict []) (dict_get a "profile") = VDict p).
  { destruct (dict_get a "profile") as [[| | | | | |p0]|];
      try discriminate; now injection Hp as ->. }
  rewrite Hargs. cbn. rewrite Hprof. cbn.
  destruct (default VNone (dict_get p "streams")) eqn:Es; cbn; eauto.
  destruct (Hs eq_refl) as [s Hs'].
  destruct (dict_get a "strategy") as [[| | | | | |s0]|]; try discriminate;
    cbn; eauto.
Qed.

Lemma collect_from_spec records : forall sw sw',
  collect_from records sw = Ok sw' ->
  sw' = Sweep
          (measured_rates sw ++ flat_map (tracked "measured_rates") records)
          (measured_concurrencies sw
             ++ flat_map (tracked "measured_concurrencies") records)
          (streams sw ++ flat_map tracked_streams records)
          (strategy_types sw ++ flat_map (tracked "strategy_types") records).
Proof.
  induction records as [|b rest IH]; intros sw sw' H; cbn [collect_from] in H.
  - injection H as <-. destruct sw. cbn. now rewrite !app_nil_r.
  - destruct (collect_one sw b) as [sw1|] eqn:E1; [|discriminate].
    cbn [bind] in H. apply IH in H. apply collect_one_spec in E1. subst sw1.
    subst sw'. cbn [measured_rates measured_concurrencies streams
                      strategy_types flat_map].
    now rewrite <- !app_assoc.
Qed.

Lemma collect_from_total records : forall sw,
  Forall well_shaped records -> exists sw', collect_from records sw = Ok sw'.
Proof.
  induction records as [|b rest IH]; intros sw H; cbn [collect_from]; [eauto|].
  inversion H; subst. destruct (collect_one_total sw b) as [sw1 E1]; [assumption|].
  rewrite E1. cbn [bind]. now apply IH.
Qed.

(** C1, as the code has it.  Over records whose [args], [args.profile] and
    consulted [args.strategy] are dicts where present, the scan returns the
    four running lists, and each is the concatenation, in record order, of
    what the records contribute: the items of a list, a value that is
    neither a list nor [null] as one item, nothing for a field that is
    absent or [null]; for streams the profile's value, or the strategy's
    when the profile has none or [null]. *)
Theorem collect_running_lists records :
  Forall well_shaped records ->
  collect records
  = Ok (Sweep (flat_map (tracked "measured_rates") records)
              (flat_map (tracked "measured_concurrencies") records)
              (flat_map tracked_streams records)
              (flat_map (tracked "strategy_types") records)).
Proof.
  intros H. unfold collect.
  destruct (collect_from_total records (Sweep [] [] [] []) H) as [sw E].
  rewrite E. now apply collect_from_spec in E as ->.
Qed.

(** Scenario C after a record with rates 1, 2: the streams list is [5]. *)
Lemma collect_running_lists_witness :
  collect [scenario_c; scenario_c]
  = Ok (Sweep [VInt 1; VInt 2; VInt 1; VInt 2] [] [VInt 5; VInt 5] []).
Proof.
  apply (collect_running_lists [scenario_c; scenario_c]).
  repeat constructor;
    exists [("profile", VDict [("measured_rates", VList [VInt 1; VInt 2])]);
            ("strategy", VDict [("streams", VInt 5)])],
           [("measured_rates", VList [VInt 1; VInt 2])];
    repeat split; intros _; eexists; reflexivity.
Defined.

(** C1 as stated fails on a field that is present with the value [null]:
    read as "present but not a list" it would add [null] as one item, and
    the scan adds nothing. *)
Lemma null_field_adds_nothing :
  exists sw,
    collect [null_rates] = Ok sw /\
    measured_rates sw = [] /\
    flat_map (tracked_if_present "measured_rates") [null_rates] = [VNone] /\
    measured_rates sw
    <> flat_map (tracked_if_present "measured_rates") [null_rates].
Proof.
  eexists. split; [reflexivity|]. repeat split. discriminate.
Qed.

(** ** Sorting what is sorted *)

Lemma sorted_loop_settled seq : forall rp out,
  Sorted settled rp ->
  sorted_loop (fun x => x) seq rp = Ok out ->
  Sorted settled out.
Proof.
  induction seq as [|x rest IH]; intros rp out Hs H; cbn [sorted_loop] in H.
  - now injection H as <-.
  - destruct (sorted_insert _ x rp) as [r'|] eqn:E; [|discriminate].
    cbn [bind] in H. apply IH in H; [assumption|].
    destruct (sorted_insert_split _ _ _ E) as (l1 & l2 & -> & -> & Hf & Hh).
    apply Sorted_insert_middle; [assumption| |].
    + eapply List.Forall_impl; [|exact Hf].
      intros e He He'. exact (py_lt_asym _ _ He He').
    + destruct l2; constructor. unfold settled. congruence.
Qed.

(** Sorting again leaves a settled list as it is, unless it raises. *)
Lemma sorted_loop_fixed seq : forall rp out,
  Sorted settled (rev seq ++ rp) ->
  sorted_loop (fun x => x) seq rp = Ok out ->
  out = rev seq ++ rp.
Proof.
  induction seq as [|x rest IH]; intros rp out Hs H; cbn [sorted_loop] in H.
  - now injection H as <-.
  - cbn [rev] in *. rewrite <- app_assoc in *. cbn [app] in *.
    destruct rp as [|e r]; cbn [sorted_insert bind] in H.
    + now apply IH.
    + pose proof (Sorted_middle_inv _ _ _ _ _ Hs) as Hxe.
      destruct (py_lt x e) as [[|]|] eqn:E; cbn [bind] in H.
      * now destruct Hxe.
      * now apply IH.
      * discriminate.
Qed.

Lemma sorted_or_same_fixed u :
  sorted_or_same (sorted_or_same u) = sorted_or_same u.
Proof.
  unfold sorted_or_same. destruct (sorted u) as [s|e] eqn:Es.
  - destruct (sorted s) as [s'|e'] eqn:Es'; [|reflexivity].
    unfold sorted, sorted_by in Es, Es'.
    destruct (sorted_loop _ u []) as [out|] eqn:Eo; [|discriminate].
    injection Es as <-.
    destruct (sorted_loop _ (rev out) []) as [out'|] eqn:Eo'; [|discriminate].
    injection Es' as <-. f_equal.
    apply sorted_loop_settled in Eo; [|constructor].
    apply sorted_loop_fixed in Eo'.
    + now rewrite Eo', rev_involutive, app_nil_r.
    + now rewrite rev_involutive, app_nil_r.
  - now rewrite Es.
Qed.

Lemma sorted_or_same_perm u : Permutation (sorted_or_same u) u.
Proof.
  unfold sorted_or_same. destruct (sorted u) as [s|e] eqn:Es; [|reflexivity].
  unfold sorted, sorted_by in Es.
  destruct (sorted_loop _ u []) as [out|] eqn:Eo; [|discriminate].
  injection Es as <-. rewrite <- Permutation_rev.
  enough (forall seq rp out, sorted_loop (fun x => x) seq rp = Ok out ->
                             Permutation out (seq ++ rp)) as G.
  { apply G in Eo. now rewrite app_nil_r in Eo. }
  clear. induction seq as [|x rest IH]; intros rp out H; cbn [sorted_loop] in H.
  - now injection H as <-.
  - destruct (sorted_insert _ x rp) as [r'|] eqn:E; [|discriminate].
    cbn [bind] in H. apply IH in H. rewrite H.
    destruct (sorted_insert_split _ _ _ E) as (l1 & l2 & -> & -> & _).
    cbn [app]. rewrite <- Permutation_middle.
    symmetry. apply Permutation_middle.
Qed.

(** ** Deduplicating what is deduplicated *)

Section reaggregation.
Variable float_repr : spec_float -> string.

Local Abbreviation key := (uniq_key float_repr).
Local Abbreviation uniq_loop := (uniq_loop float_repr).
Local Abbreviation uniq := (uniq float_repr).
Local Abbreviation distinct_keys := (distinct_keys float_repr).
Local Abbreviation combined_profile := (combined_profile float_repr).

Lemma uniq_loop_distinct l : forall seen,
  distinct_keys (uniq_loop l seen []) /\
  Forall (fun x => seen_has seen (key x) = false) (uniq_loop l seen []).
Proof.
  induction l as [|x l IH]; intros seen.
  - split; constructor.
  - rewrite uniq_loop_cons. destruct (seen_has seen (key x)) eqn:Ex; [apply IH|].
    destruct (IH (key x :: seen)) as [Hd Hf]. split.
    + constructor; [|exact Hd].
      eapply List.Forall_impl; [|exact Hf]. intros y Hy.
      unfold seen_has in Hy. cbn [existsb] in Hy.
      apply Bool.orb_false_iff in Hy as [Hy _]. now rewrite hkey_eqb_sym.
    + constructor; [exact Ex|].
      eapply List.Forall_impl; [|exact Hf]. intros y Hy.
      unfold seen_has in Hy. cbn [existsb] in Hy.
      now apply Bool.orb_false_iff in Hy as [_ Hy].
Qed.

Lemma uniq_loop_id l : forall seen,
  distinct_keys l ->
  Forall (fun x => seen_has seen (key x) = false) l ->
  uniq_loop l seen [] = l.
Proof.
  induction l as [|x l IH]; intros seen Hd Hf; [reflexivity|].
  rewrite uniq_loop_cons. inversion Hf as [|? ? Hx Hl]; subst.
  inversion Hd as [|? ? Hxl Hd']; subst. rewrite Hx. f_equal.
  apply IH; [assumption|]. rewrite List.Forall_forall in *.
  intros y Hy. unfold seen_has. cbn [existsb].
  rewrite hkey_eqb_sym, (Hxl y Hy). apply (Hl y Hy).
Qed.

Lemma uniq_loop_seen l seen :
  Forall (fun x => seen_has seen (key x) = true) l -> uniq_loop l seen [] = [].
Proof.
  induction 1 as [|x l Hx _ IH]; [reflexivity|].
  now rewrite uniq_loop_cons, Hx.
Qed.

Lemma distinct_keys_perm l l' :
  Permutation l l' -> distinct_keys l -> distinct_keys l'.
Proof.
  induction 1 as [|x l l' Hp IH|x y l|l l' l'' _ IH1 _ IH2]; intros Hd.
  - constructor.
  - inversion Hd; subst. constructor; [|now apply IH].
    eapply Permutation_Forall; eassumption.
  - inversion Hd as [|? ? Hy Hd']; subst.
    inversion Hd' as [|? ? Hx Hd'']; subst.
    inversion Hy as [|? ? Hyx Hyl]; subst.
    constructor; [|now constructor].
    constructor; [now rewrite hkey_eqb_sym | assumption].
  - auto.
Qed.

Lemma seen_has_member u seen y :
  In y u -> seen_has (rev (map key u) ++ seen) (key y) = true.
Proof.
  intros Hy. rewrite seen_has_app. apply Bool.orb_true_iff. left.
  apply existsb_exists. exists (key y). split; [|apply hkey_eqb_refl].
  apply in_rev. rewrite rev_involutive. now apply in_map.
Qed.

(** A deduplicated list, written out once or more, deduplicates to
    itself. *)
Lemma uniq_repeated {A} u (Y : list A) :
  distinct_keys u -> Y <> [] -> uniq (flat_map (fun _ => u) Y) = u.
Proof.
  intros Hd HY. destruct Y as [|r Y]; [congruence|]. cbn [flat_map].
  unfold uniq. rewrite uniq_loop_app.
  rewrite (uniq_loop_id u []); [|assumption|].
  - rewrite uniq_loop_seen; [apply app_nil_r|].
    apply List.Forall_forall. intros y Hy.
    apply in_flat_map in Hy as (_ & _ & Hy). now apply seen_has_member.
  - apply List.Forall_forall. reflexivity.
Qed.

Lemma uniq_distinct l : distinct_keys (uniq l).
Proof. apply uniq_loop_distinct. Qed.

Lemma contribution_listed u : contribution (default VNone (listed u)) = u.
Proof. now destruct u. Qed.

Lemma carries_tracked p r k :
  carries p r -> tracked k r = contribution (field p k).
Proof.
  intros (a & Ha & Hp). unfold tracked, args_dict, sub_dict.
  now rewrite Ha, Hp.
Qed.

Lemma carriers_tracked p Y k :
  Forall (carries p) Y ->
  flat_map (tracked k) Y = flat_map (fun _ => contribution (field p k)) Y.
Proof.
  induction 1 as [|r Y Hr _ IH]; [reflexivity|]. cbn [flat_map].
  now rewrite IH, (carries_tracked p r k Hr).
Qed.

Lemma carriers_tracked_streams p Y s :
  field p "streams" = VList s ->
  Forall (carries p) Y ->
  Forall well_shaped Y /\ flat_map tracked_streams Y = flat_map (fun _ => s) Y.
Proof.
  intros Hs. induction 1 as [|r Y (a & Ha & Hp) _ [IHw IH]]; [now split|].
  split.
  - constructor; [|exact IHw]. exists a, p.
    unfold args_dict, sub_dict. rewrite Ha, Hp, Hs.
    repeat split. discriminate.
  - cbn [flat_map]. rewrite IH. f_equal.
    unfold tracked_streams, args_dict, sub_dict. now rewrite Ha, Hp, Hs.
Qed.

(** C10, as the code has it.  Let [p] be the combined profile of any
    running lists and let every record of a non-empty list [Y] carry [p].
    Whenever the scan of [Y] returns, the profile it leads to has the
    same [measured_rates], [measured_concurrencies] and [strategy_types]
    as [p]; and when [p] has a [streams] entry the scan of [Y] does
    return and leads to the same [streams]. *)
Theorem reaggregation_keeps_fields n sw (Y : list record) :
  let p := combined_profile n sw in
  Y <> [] ->
  Forall (carries p) Y ->
  (forall sw',
      collect Y = Ok sw' ->
      let p' := combined_profile (List.length Y) sw' in
      dict_get p' "measured_rates" = dict_get p "measured_rates" /\
      dict_get p' "measured_concurrencies"
      = dict_get p "measured_concurrencies" /\
      dict_get p' "strategy_types" = dict_get p "strategy_types") /\
  (dict_get p "streams" <> None ->
   exists sw',
     collect Y = Ok sw' /\
     dict_get (combined_profile (List.length Y) sw') "streams"
     = dict_get p "streams").
Proof.
  cbv zeta. intros HY Hc. split.
  - intros sw' H. apply collect_from_spec in H. subst sw'.
    rewrite !combined_profile_rates, !combined_profile_concurrencies,
      !combined_profile_strategy_types.
    cbn [measured_rates measured_concurrencies strategy_types app].
    rewrite (carriers_tracked _ _ "measured_rates" Hc),
      (carriers_tracked _ _ "measured_concurrencies" Hc),
      (carriers_tracked _ _ "strategy_types" Hc). unfold field.
    rewrite combined_profile_rates, combined_profile_concurrencies,
      combined_profile_strategy_types, !contribution_listed.
    rewrite !uniq_repeated by (apply uniq_distinct || exact HY).
    now repeat split.
  - rewrite combined_profile_streams.
    destruct (uniq (streams sw)) as [|x u] eqn:Eu; [congruence|]. intros _.
    set (s := sorted_or_same (x :: u)).
    assert (Hf : field (combined_profile n sw) "streams" = VList s).
    { unfold field. now rewrite combined_profile_streams, Eu. }
    destruct (carriers_tracked_streams _ _ _ Hf Hc) as [Hw Ht].
    destruct (collect_from_total Y (Sweep [] [] [] []) Hw) as [sw' E].
    exists sw'. split; [exact E|].
    apply collect_from_spec in E. subst sw'.
    rewrite combined_profile_streams. cbn [streams app]. rewrite Ht.
    assert (Hp : Permutation s (x :: u)) by apply sorted_or_same_perm.
    rewrite uniq_repeated; [| |exact HY].
    + destruct s as [|y s'] eqn:Es.
      * now apply Permutation_nil in Hp.
      * rewrite <- Es. unfold s. now rewrite sorted_or_same_fixed.
    + apply (distinct_keys_perm (x :: u)); [now symmetry|].
      rewrite <- Eu. apply uniq_distinct.
Qed.
End reaggregation.

(** Scenario C merged and scanned again: streams [5] both times. *)
Lemma reaggregation_keeps_fields_witness :
  exists sw y sw',
    collect [scenario_c] = Ok sw /\
    attach_all (combined_profile no_float_repr 1 sw) [scenario_c] = Ok y /\
    collect y = Ok sw' /\
    dict_get (combined_profile no_float_repr 1 sw) "streams"
    = Some (VList [VInt 5]) /\
    dict_get (combined_profile no_float_repr (List.length y) sw') "streams"
    = Some (VList [VInt 5]).
Proof.
  set (sw := Sweep [VInt 1; VInt 2] [] [VInt 5] []).
  destruct (attach_all (combined_profile no_float_repr 1 sw) [scenario_c])
    as [y|] eqn:Ey; [|vm_compute in Ey; discriminate Ey].
  destruct (reaggregation_keeps_fields no_float_repr 1 sw y) as [_ H].
  - vm_compute in Ey. injection Ey as <-. discriminate.
  - now apply attach_all_spec in Ey.
  - destruct H as (sw' & Hs & Hg); [vm_compute; discriminate|].
    exists sw, y, sw'.
    split; [reflexivity|]. split; [exact Ey|]. split; [exact Hs|].
    split; [reflexivity|]. exact Hg.
Defined.

(** C10 as stated fails when the combined profile has no [streams] entry:
    a record with an empty [profile.streams] and [strategy.streams] 5
    gives no streams the first time, and the second scan, finding no
    [profile.streams], takes 5 from the strategy. *)
Lemma reaggregation_adds_streams :
  exists sw y sw',
    collect [empty_streams] = Ok sw /\
    attach_all (combined_profile no_float_repr 1 sw) [empty_streams] = Ok y /\
    collect y = Ok sw' /\
    dict_get (combined_profile no_float_repr 1 sw) "streams" = None /\
    dict_get (combined_profile no_float_repr 1 sw') "streams"
    = Some (VList [VInt 5]).
Proof.
  eexists _, _, _. split; [reflexivity|]. split; [reflexivity|].
  split; [reflexivity|]. split; reflexivity.
Qed.

(** The same on files: the merge of [empty_streams_run] has no [streams],
    and the merge of a directory that holds its output file has streams
    [5]. *)
Lemma remerge_adds_streams :
  exists doc1 doc2,
    merge_benchmark_files no_float_repr "runs" empty_streams_run = Ok doc1 /\
    merge_benchmark_files no_float_repr "again"
      [("again/merged.json", written no_float_repr doc1)] = Ok doc2 /\
    Forall (carries [("type_", VStr "concurrent");
                     ("completed_strategies", VInt 1)])
      (benchmarks doc1) /\
    Forall (carries [("type_", VStr "concurrent");
                     ("completed_strategies", VInt 1);
                     ("streams", VList [VInt 5])])
      (benchmarks doc2).
Proof.
  eexists _, _.
  split; [vm_compute; reflexivity|]. split; [vm_compute; reflexivity|].
  split; repeat constructor; eexists; split; vm_compute; reflexivity.
Qed.

(** ** When the merge succeeds *)

Lemma well_shaped_tagged r s v :
  s <> "args" -> well_shaped r -> well_shaped (rec_set r (KStr s) v).
Proof.
  intros Hs (a & p & Ha & Hp & Hst). exists a, p. repeat split; try assumption.
  unfold args_dict in *. now rewrite rec_get_set_other.
Qed.

Lemma accumulate_sound files : forall acc,
  Forall (fun pf => sound_file (snd pf)) files ->
  Forall well_shaped acc ->
  exists bs, accumulate files acc = Ok bs /\ Forall well_shaped bs.
Proof.
  induction files as [|[fp f] rest IH]; intros acc Hf Hacc.
  - exists acc. now split.
  - inversion Hf as [|? ? Hs Hrest]; subst. cbn [accumulate].
    destruct Hs as [Hn|(d & Hd & Hw)]; cbn [snd] in *.
    + rewrite Hn. now apply IH.
    + rewrite Hd. cbn [py_dict bind]. apply IH; [exact Hrest|].
      apply Forall_app. split; [exact Hacc|].
      constructor; [|constructor].
      apply well_shaped_tagged; [discriminate | exact Hw].
Qed.

Lemma attach_all_total p bs :
  Forall well_shaped bs -> exists out, attach_all p bs = Ok out.
Proof.
  induction 1 as [|b rest (a & q & Ha & _) _ [out IH]]; cbn [attach_all];
    [eauto|].
  rewrite IH. unfold attach, args_dict in *.
  destruct (rec_get b (KStr "args")) as [[| | | | | |a0]|]; try discriminate;
    cbn; eauto.
Qed.

(** A merge over sound files, one of which at least yields a record,
    returns a document. *)
Lemma merge_succeeds float_repr input_dir found :
  Forall (fun pf => sound_file (snd pf)) found ->
  yielding found <> [] ->
  exists doc, merge_benchmark_files float_repr input_dir found = Ok doc.
Proof.
  intros Hf Hy. unfold merge_benchmark_files, aggregate.
  destruct (accumulate_sound (sort_by_key found) []) as (bs & Ha & Hw).
  { eapply Permutation_Forall; [|exact Hf]. symmetry. apply sort_by_key_perm. }
  { constructor. }
  rewrite Ha. cbn [bind].
  destruct bs as [|b0 bs0] eqn:Ebs.
  - apply accumulate_length in Ha. cbn [List.length Nat.add] in Ha.
    exfalso. apply Hy. apply List.length_zero_iff_nil. unfold yielding in *.
    now rewrite <- (filter_length_perm _ _ _ (sort_by_key_perm found)).
  - rewrite <- Ebs in *. clear Ebs.
    destruct (collect_from_total bs (Sweep [] [] [] []) Hw) as [sw Hc].
    unfold collect. rewrite Hc. cbn [bind].
    destruct (attach_all_total (combined_profile float_repr (List.length bs) sw)
                bs Hw) as [out Ho].
    rewrite Ho. cbn [bind]. eauto.
Qed.

(** ** The decoder and the heap *)

Lemma decode_list_eq items h :
  Store.decode (VList items) h
  = let '(ps, h') := decode_items items h in
    (Store.PRef (List.length h'), h' ++ [Store.OList ps]).
Proof.
  cbn [Store.decode].
  match goal with
  | |- (let '(_, _) := ?f items h in _) = _ =>
      assert (E : forall l h0, f l h0 = decode_items l h0)
  end.
  { induction l as [|x r IH]; intros h0; [reflexivity|].
    cbn [decode_items]. destruct (Store.decode x h0) as [p h1].
    now rewrite IH. }
  now rewrite E.
Qed.

Lemma decode_dict_eq entries h :
  Store.decode (VDict entries) h
  = let '(d, h') := decode_entries entries [] h in
    (Store.PRef (List.length h'), h' ++ [Store.ODict d]).
Proof.
  cbn [Store.decode].
  match goal with
  | |- (let '(_, _) := ?f entries [] h in _) = _ =>
      assert (E : forall l d0 h0, f l d0 h0 = decode_entries l d0 h0)
  end.
  { induction l as [|[k x] r IH]; intros d0 h0; [reflexivity|].
    cbn [decode_entries]. destruct (Store.decode x h0) as [p h1].
    now rewrite IH. }
  now rewrite E.
Qed.

Lemma stands_for_later n n' h ext p v :
  (n <= n')%nat -> stands_for n h p v -> stands_for n' (h ++ ext) p v.
Proof.
  intros Hn H m ext' Hm. rewrite <- app_assoc. apply H. lia.
Qed.

(** Decoding only adds objects, and what it returns stands for the decoded
    tree. *)
Lemma decode_stands_for doc :
  forall h,
    exists ext,
      snd (Store.decode doc h) = h ++ ext /\
      stands_for (List.length ext) (snd (Store.decode doc h))
        (fst (Store.decode doc h)) (json_load doc).
Proof.
  induction doc as [| | | | |items IH|entries IH] using value_nested_ind;
    intros h;
    try (exists []; split; [now rewrite app_nil_r|];
         intros [|m] ext _; reflexivity).
  - rewrite decode_list_eq.
    assert (G : exists ext,
               snd (decode_items items h) = h ++ ext /\
               forall m ext', (List.length ext <= m)%nat ->
                 mapM (Store.readback m (snd (decode_items items h) ++ ext'))
                   (fst (decode_items items h))
                 = Some (map json_load items)).
    { clear -IH. revert h. induction IH as [|x r Hx _ IHr]; intros h.
      - exists []. split; [now rewrite app_nil_r | reflexivity].
      - cbn [decode_items]. destruct (Hx h) as (e1 & He1 & Hs1).
        destruct (Store.decode x h) as [p h1]. cbn [fst snd] in *. subst h1.
        destruct (IHr (h ++ e1)) as (e2 & He2 & Hs2).
        destruct (decode_items r (h ++ e1)) as [ps h2]. cbn [fst snd] in *.
        subst h2. exists (e1 ++ e2). split; [now rewrite app_assoc|].
        intros m ext' Hm. rewrite length_app in Hm. cbn [mapM map].
        rewrite <- app_assoc. rewrite (Hs1 m (e2 ++ ext')) by lia.
        rewrite app_assoc. rewrite (Hs2 m ext') by lia. reflexivity. }
    destruct G as (ext & He & Hs).
    destruct (decode_items items h) as [ps h']. cbn [fst snd] in *. subst h'.
    exists (ext ++ [Store.OList ps]). split; [now rewrite app_assoc|].
    intros m ext' Hm. rewrite length_app in Hm. cbn [List.length] in Hm.
    destruct m as [|m]; [lia|]. cbn [Store.readback json_load].
    rewrite <- app_assoc. cbn [app]. rewrite list_lookup_middle by reflexivity.
    rewrite (Hs m (Store.OList ps :: ext')) by lia. reflexivity.
  - rewrite decode_dict_eq.
    set (related := fun (h0 : Store.heap) (n : nat)
                        (kp : hkey * Store.pval) (kv : string * value) =>
                      fst kp = KStr (fst kv) /\ stands_for n h0 (snd kp) (snd kv)).
    assert (G : forall d dv e0,
               Forall2 (related (h ++ e0) (List.length e0)) d dv ->
               exists ext,
                 snd (decode_entries entries d (h ++ e0)) = h ++ ext /\
                 Forall2 (related (h ++ ext) (List.length ext))
                   (fst (decode_entries entries d (h ++ e0)))
                   (fold_left (fun d kv => dict_set d (fst kv) (snd kv))
                      (map (fun kv => (fst kv, json_load (snd kv))) entries)
                      dv)).
    { clear -IH. induction IH as [|[k x] r Hx _ IHr]; intros d dv e0 Hd.
      - exists e0. now split.
      - cbn [decode_entries map fold_left fst snd] in *.
        destruct (Hx (h ++ e0)) as (e1 & He1 & Hs1).
        destruct (Store.decode x (h ++ e0)) as [p h1]. cbn [fst snd] in *.
        subst h1. rewrite <- app_assoc.
        destruct (IHr (assoc_set hkey_eqb d (KStr k) p)
                    (dict_set dv k (json_load x)) (e0 ++ e1))
          as (ext & He & Hf); [|exists ext; now split].
        rewrite app_assoc.
        assert (Hd' : Forall2 (related ((h ++ e0) ++ e1)
                                 (List.length (e0 ++ e1))) d dv).
        { eapply Forall2_impl; [exact Hd|]. intros kp kv [Hk Hv].
          split; [exact Hk|]. eapply stands_for_later; [|exact Hv].
          rewrite length_app. lia. }
        assert (Hp : stands_for (List.length (e0 ++ e1)) ((h ++ e0) ++ e1) p
                       (json_load x)).
        { intros m ext' Hm. apply Hs1. rewrite length_app in Hm. lia. }
        clear -Hd' Hp. unfold dict_set.
        induction Hd' as [|[k0 p0] [k1 v1] d dv [Hk Hv] Hrest IHd];
          cbn [assoc_set].
        + constructor; [|constructor]. now split.
        + cbn [fst snd] in Hk. subst k0. cbn [hkey_eqb hkey_num].
          destruct (String.eqb k k1); constructor; try assumption;
            unfold related; now split. }
    destruct (G [] [] []) as (ext & He & Hf).
    { rewrite app_nil_r. constructor. }
    rewrite app_nil_r in He, Hf.
    destruct (decode_entries entries [] h) as [d h']. cbn [fst snd] in *.
    subst h'. exists (ext ++ [Store.ODict d]). split; [now rewrite app_assoc|].
    intros m ext' Hm. rewrite length_app in Hm. cbn [List.length] in Hm.
    destruct m as [|m]; [lia|]. cbn [Store.readback json_load].
    rewrite <- app_assoc. cbn [app]. rewrite list_lookup_middle by reflexivity.
    generalize (Store.ODict d :: ext'). intros tl.
    match goal with |- option_map VDict ?x = _ => assert (E : x = Some
      (fold_left (fun d kv => dict_set d (fst kv) (snd kv))
         (map (fun kv => (fst kv, json_load (snd kv))) entries) [])) end.
    { clear -Hf Hm. induction Hf as [|[k0 p0] [k1 v1] d dv [Hk Hv] _ IHd];
        [reflexivity|].
      cbn [mapM fst snd] in *. subst k0.
      rewrite (Hv m tl) by lia.
      cbn. rewrite IHd. reflexivity. }
    now rewrite E.
Qed.

Lemma decode_read doc h :
  Store.read (snd (Store.decode doc h)) (fst (Store.decode doc h))
  = Some (json_load doc).
Proof.
  destruct (decode_stands_for doc h) as (ext & He & Hs).
  unfold Store.read. rewrite <- (app_nil_r (snd (Store.decode doc h))) at 2.
  apply Hs. rewrite He, length_app. lia.
Qed.

Lemma Forall2_forall {A B C} (R : C -> A -> B -> Prop) (c0 : C) l k :
  (forall c, Forall2 (R c) l k) -> Forall2 (fun x y => forall c, R c x y) l k.
Proof.
  intros H. pose proof (H c0) as H0.
  induction H0 as [|x y l k _ _ IH]; constructor.
  - intros c. specialize (H c). now inversion H.
  - apply IH. intros c. specialize (H c). now inversion H.
Qed.

Lemma lookup_extended (h ext : Store.heap) l o :
  h !! l = Some o -> (h ++ ext) !! l = Some o.
Proof. intros H. now apply lookup_app_l_Some. Qed.

Lemma stands_for_scalar n h p v :
  stands_for n h p v ->
  match p with
  | Store.PNone => v = VNone
  | Store.PBool b => v = VBool b
  | Store.PInt z => v = VInt z
  | Store.PFloat f => v = VFloat f
  | Store.PStr s => v = VStr s
  | Store.PRef l => exists o, h !! l = Some o
  end.
Proof.
  intros H. specialize (H (S n) [] ltac:(lia)). rewrite app_nil_r in H.
  destruct p; cbn in H; try congruence.
  destruct (h !! l) as [o|]; [now exists o | discriminate].
Qed.

Lemma stands_for_list n h l items v :
  stands_for n h (Store.PRef l) v ->
  h !! l = Some (Store.OList items) ->
  exists vs, v = VList vs /\ Forall2 (stands_for n h) items vs.
Proof.
  intros H Hl.
  assert (G : forall m ext, (n <= m)%nat ->
            option_map VList (mapM (Store.readback m (h ++ ext)) items)
            = Some v).
  { intros m ext Hm. specialize (H (S m) ext ltac:(lia)).
    cbn [Store.readback] in H.
    now rewrite (lookup_extended h ext l _ Hl) in H. }
  pose proof (G n [] ltac:(lia)) as G0.
  destruct (mapM (Store.readback n (h ++ [])) items) as [vs|] eqn:E;
    [|discriminate].
  cbn in G0. injection G0 as <-. exists vs. split; [reflexivity|].
  unfold stands_for.
  apply (Forall2_forall
           (fun m x y => forall ext, (n <= m)%nat ->
                         Store.readback m (h ++ ext) x = Some y) n).
  intros m.
  destruct (le_lt_dec n m) as [Hm|Hm].
  - apply (Forall2_forall
             (fun ext x y => (n <= m)%nat ->
                             Store.readback m (h ++ ext) x = Some y) []).
    intros ext. specialize (G m ext Hm).
    destruct (mapM (Store.readback m (h ++ ext)) items) as [vs'|] eqn:E';
      [|discriminate].
    cbn in G. injection G as ->. apply mapM_Some in E'.
    eapply Forall2_impl; [exact E'|]. now intros.
  - apply mapM_Some in E. eapply Forall2_impl; [exact E|]. intros; lia.
Qed.

Lemma stands_for_dict n h l d v :
  stands_for n h (Store.PRef l) v ->
  h !! l = Some (Store.ODict d) ->
  exists dv, v = VDict dv /\ Forall2 (entry_stands_for n h) d dv.
Proof.
  intros H Hl.
  set (rd := fun m ext (kp : hkey * Store.pval) =>
               match fst kp, Store.readback m (h ++ ext) (snd kp) with
               | KStr s, Some v => Some (s, v)
               | _, _ => None
               end).
  assert (G : forall m ext, (n <= m)%nat ->
            option_map VDict (mapM (rd m ext) d) = Some v).
  { intros m ext Hm. specialize (H (S m) ext ltac:(lia)).
    cbn [Store.readback] in H.
    now rewrite (lookup_extended h ext l _ Hl) in H. }
  pose proof (G n [] ltac:(lia)) as G0.
  destruct (mapM (rd n []) d) as [dv|] eqn:E; [|discriminate].
  cbn in G0. injection G0 as <-. exists dv. split; [reflexivity|].
  unfold entry_stands_for, stands_for.
  assert (K : forall m ext, (n <= m)%nat ->
            Forall2 (fun kp kv => fst kp = KStr (fst kv) /\
                       Store.readback m (h ++ ext) (snd kp) = Some (snd kv))
              d dv).
  { intros m ext Hm. specialize (G m ext Hm).
    destruct (mapM (rd m ext) d) as [dv'|] eqn:E'; [|discriminate].
    cbn in G. injection G as ->. apply mapM_Some in E'.
    eapply Forall2_impl; [exact E'|]. intros [k p] [s w]. unfold rd.
    cbn [fst snd]. destruct k; try discriminate.
    destruct (Store.readback m (h ++ ext) p); [|discriminate].
    now intros [= -> ->]. }
  clear -K. pose proof (K n [] ltac:(lia)) as K0.
  induction K0 as [|kp kv d dv [Hk _] _ IH]; constructor.
  - split; [exact Hk|]. intros m ext Hm. specialize (K m ext Hm).
    inversion K; tauto.
  - apply IH. intros m ext Hm. specialize (K m ext Hm). now inversion K.
Qed.

Lemma entries_get n h d dv k :
  Forall2 (entry_stands_for n h) d dv ->
  match assoc_get hkey_eqb d (KStr k), dict_get dv k with
  | Some p, Some v => stands_for n h p v
  | None, None => True
  | _, _ => False
  end.
Proof.
  unfold dict_get.
  induction 1 as [|[k0 p0] [k1 v1] d dv [Hk Hv] _ IH]; cbn [assoc_get];
    [exact I|].
  cbn [fst snd] in *. subst k0. cbn [hkey_eqb hkey_num].
  destruct (String.eqb k k1); [exact Hv | exact IH].
Qed.

Lemma entries_has n h d dv k :
  Forall2 (entry_stands_for n h) d dv ->
  assoc_has hkey_eqb d (KStr k) = dict_has dv k.
Proof.
  intros H. pose proof (entries_get n h d dv k H) as G.
  unfold assoc_has, dict_has, assoc_has.
  unfold dict_get in G.
  destruct (assoc_get hkey_eqb d (KStr k)), (assoc_get String.eqb dv k);
    tauto.
Qed.

(** The extractor on the heap returns a reference to the tree that the
    extractor on trees returns, and changes nothing. *)
Lemma first_benchmark_agrees n h data v :
  stands_for n h data v ->
  exists p,
    Store.first_benchmark data h = Some (Ok p, h) /\
    stands_for n h p (first_benchmark v).
Proof.
  intros H. pose proof (stands_for_scalar n h data v H) as Hs.
  assert (Hnone : stands_for n h Store.PNone VNone)
    by (intros [|m] ext _; reflexivity).
  destruct data; try (subst v; exists Store.PNone; now split).
  destruct Hs as [o Hl]. cbn [Store.first_benchmark].
  unfold Store.mbind at 1, Store.load at 1. rewrite Hl.
  destruct o as [items|d].
  - destruct (stands_for_list n h l items v H Hl) as (vs & -> & Hf).
    destruct Hf as [|x y items vs Hx _].
    + exists Store.PNone. now split.
    + exists x. now split.
  - destruct (stands_for_dict n h l d v H Hl) as (dv & -> & Hf).
    pose proof (entries_get n h d dv "benchmarks" Hf) as Hb.
    pose proof (entries_has n h d dv "type_" Hf) as Ht.
    cbn [first_benchmark].
    assert (Hfall :
      exists p,
        (if assoc_has hkey_eqb d (KStr "type_")
         then Store.ret (Store.PRef l) else Store.ret Store.PNone) h
        = Some (Ok p, h) /\
        stands_for n h p (if dict_has dv "type_" then VDict dv else VNone)).
    { rewrite Ht. destruct (dict_has dv "type_");
        [exists (Store.PRef l) | exists Store.PNone]; now split. }
    destruct (assoc_get hkey_eqb d (KStr "benchmarks")) as [pb|],
             (dict_get dv "benchmarks") as [vb|]; try contradiction.
    + pose proof (stands_for_scalar n h pb vb Hb) as Hsb.
      destruct pb; try (subst vb; exact Hfall).
      destruct Hsb as [o' Hl']. unfold Store.mbind, Store.load.
      rewrite Hl'. cbn [Store.ret].
      destruct o' as [items'|d'].
      * destruct (stands_for_list n h l0 items' vb Hb Hl')
          as (vs & -> & Hf').
        destruct Hf' as [|x y items' vs Hx _]; [exact Hfall|].
        exists x. now split.
      * destruct (stands_for_dict n h l0 d' vb Hb Hl') as (dv' & -> & _).
        exact Hfall.
    + exact Hfall.
Qed.

(** Reading a file on the heap and reading it as a tree give the same
    record. *)
Lemma load_first_benchmark_agrees f h :
  exists p h',
    Store.load_first_benchmark f h = Some (Ok p, h') /\
    Store.read h' p = Some (load_first_benchmark f).
Proof.
  destruct f as [doc|]; cbn [Store.load_first_benchmark load_first_benchmark].
  - destruct (decode_stands_for doc h) as (ext & He & Hs).
    unfold Store.mbind, Store.json_load.
    destruct (Store.decode doc h) as [data h']. cbn [fst snd] in *.
    destruct (first_benchmark_agrees _ _ _ _ Hs) as (p & Hp & Hr).
    exists p, h'. split; [exact Hp|].
    unfold Store.read. rewrite <- (app_nil_r h') at 2. apply Hr.
    rewrite He, length_app. lia.
  - exists Store.PNone, h. split; reflexivity.
Qed.

(** * Further properties of the program

    What the merge does with its files one by one, when it returns and how
    it fails, what the combined profile holds, what the run prints, and
    which objects of the heap each phase leaves as they are. *)

(** ** The records of a merge, one by one *)

Lemma rec_get_set_apart r s v k :
  k <> KStr s -> rec_get (rec_set r (KStr s) v) k = rec_get r k.
Proof.
  intros Hne. unfold rec_get, rec_set.
  assert (Hks : hkey_eqb k (KStr s) = false).
  { destruct (hkey_eqb k (KStr s)) eqn:E; [|reflexivity].
    rewrite hkey_eqb_sym in E. now apply hkey_eqb_KStr in E. }
  induction r as [|[k0 v0] r IH]; cbn [assoc_get assoc_set].
  - now rewrite Hks.
  - destruct (hkey_eqb (KStr s) k0) eqn:E; cbn [assoc_get].
    + apply hkey_eqb_KStr in E as ->. now rewrite Hks.
    + now rewrite IH.
Qed.

Lemma accumulate_records files : forall acc bs,
  accumulate files acc = Ok bs ->
  exists new, bs = acc ++ new /\ Forall2 accumulated_from (yielding files) new.
Proof.
  induction files as [|[fp f] rest IH]; intros acc bs H.
  - injection H as <-. exists []. split; [now rewrite app_nil_r | constructor].
  - cbn [accumulate] in H. unfold yielding in *. cbn [List.filter snd].
    unfold yields at 1.
    destruct (load_first_benchmark f) eqn:E;
      try (destruct (py_dict _) as [b0|e] eqn:Ed; [|discriminate];
           cbn [bind] in H; apply IH in H as (new & -> & Hn);
           eexists (_ :: new); split; [now rewrite <- app_assoc|];
           constructor; [|exact Hn]; exists b0; cbn [fst snd];
           rewrite E; now split).
    now apply IH in H.
Qed.

Lemma attach_all_each p bs : forall out,
  attach_all p bs = Ok out -> Forall2 (fun b r => attach p b = Ok r) bs out.
Proof.
  induction bs as [|b rest IH]; intros out H; cbn [attach_all] in H.
  - injection H as <-. constructor.
  - destruct (attach p b) as [b'|] eqn:Eb; [|discriminate].
    destruct (attach_all p rest) as [rest'|] eqn:Er; [|discriminate].
    injection H as <-. constructor; [exact Eb | now apply IH].
Qed.

(** Line 133-136 change [args] and nothing else; an [args] dict keeps its
    own fields but [profile]. *)
Lemma attach_keeps p b r :
  attach p b = Ok r ->
  (forall k, k <> KStr "args" -> rec_get r k = rec_get b k) /\
  (forall a,
      rec_get b (KStr "args") = Some (VDict a) ->
      rec_get r (KStr "args") = Some (VDict (dict_set a "profile" (VDict p))))
  /\
  (rec_get b (KStr "args") = None ->
   rec_get r (KStr "args") = Some (VDict [("profile", VDict p)])).
Proof.
  unfold attach. intros H.
  destruct (rec_get b (KStr "args")) as [a|] eqn:E.
  - destruct a; try discriminate. injection H as <-. split; [|split].
    + intros k Hk. now apply rec_get_set_apart.
    + intros a [= <-]. apply rec_get_set_same.
    + discriminate.
  - injection H as <-. split; [|split].
    + intros k Hk. now rewrite !rec_get_set_apart.
    + discriminate.
    + intros _. apply rec_get_set_same.
Qed.

(** What a successful merge is made of, record by record. *)
Lemma merge_records float_repr input_dir found doc :
  merge_benchmark_files float_repr input_dir found = Ok doc ->
  exists bs sw,
    collect bs = Ok sw /\
    Forall2 accumulated_from (yielding (sort_by_key found)) bs /\
    Forall2
      (fun b r =>
         exists b1,
           attach (combined_profile float_repr (List.length bs) sw) b = Ok b1 /\
           r = rec_set b1 (KStr "__combined_from")
                 (VStr (basename (rstrip_slash input_dir))))
      bs (benchmarks doc).
Proof.
  intros H. apply merge_ok_inv in H as (bs & sw & out & Ha & _ & Hc & Ho & ->).
  exists bs, sw. split; [exact Hc|].
  apply accumulate_records in Ha as (new & -> & Hn). cbn [app] in *.
  split; [exact Hn|].
  apply attach_all_each in Ho. apply Forall2_fmap_r.
  eapply Forall2_impl; [exact Ho|]. intros b r Hr. now exists r.
Qed.

(** ** The order in which files are taken *)

Lemma insert_by_key_sorted (kv : string * file) l :
  Sorted path_not_above l -> Sorted path_not_above (insert_by_key kv l).
Proof.
  induction 1 as [|x r Hs IH Hhd]; cbn [insert_by_key].
  - repeat constructor.
  - destruct (String.ltb (fst x) (fst kv)) eqn:E.
    + constructor; [exact IH|].
      destruct Hhd as [|y r' Hxy]; cbn [insert_by_key].
      * constructor. unfold path_not_above. now apply ltb_asym.
      * destruct (String.ltb (fst y) (fst kv)); constructor;
          [exact Hxy | unfold path_not_above; now apply ltb_asym].
    + constructor; [now constructor|]. constructor. exact E.
Qed.

Lemma path_not_above_trans a b c :
  path_not_above a b -> path_not_above b c -> path_not_above a c.
Proof.
  unfold path_not_above. intros Hab Hbc.
  destruct (String.ltb (fst c) (fst a)) eqn:Hca; [|reflexivity].
  destruct (String.eqb_spec (fst a) (fst b)) as [Heq|Hne].
  - rewrite Heq in Hca. congruence.
  - destruct (ltb_total _ _ Hne) as [H|H]; [|congruence].
    rewrite (ltb_trans _ _ _ Hca H) in Hbc. discriminate.
Qed.

Lemma sort_by_key_sorted (l : list (string * file)) :
  StronglySorted path_not_above (sort_by_key l).
Proof.
  apply Sorted_StronglySorted.
  - intros a b c. apply path_not_above_trans.
  - induction l as [|x r IH]; cbn; [constructor|].
    now apply insert_by_key_sorted.
Qed.

Lemma StronglySorted_filtered {A} (R : A -> A -> Prop) (f : A -> bool) l :
  StronglySorted R l -> StronglySorted R (List.filter f l).
Proof.
  induction 1 as [|x l _ IH Hx]; cbn [List.filter]; [constructor|].
  destruct (f x); [|exact IH]. constructor; [exact IH|].
  rewrite List.Forall_forall in *. intros y Hy.
  apply List.filter_In in Hy as [Hy _]. now apply Hx.
Qed.

Lemma filter_perm {A} (f : A -> bool) l l' :
  Permutation l l' -> Permutation (List.filter f l) (List.filter f l').
Proof.
  induction 1 as [|x l l' _ IH|x y l|l l' l'' _ IH1 _ IH2]; cbn [List.filter].
  - reflexivity.
  - destruct (f x); [now constructor | exact IH].
  - destruct (f x), (f y); try reflexivity. apply perm_swap.
  - now rewrite IH1.
Qed.

(** X1.  The result of a merge does not depend on the order in which the
    directory lists its files: line 44 sorts the paths, and distinct paths
    have one ascending order. *)
Theorem merge_ignores_listing_order float_repr input_dir found found' :
  List.NoDup (map fst found) ->
  Permutation found found' ->
  merge_benchmark_files float_repr input_dir found
  = merge_benchmark_files float_repr input_dir found'.
Proof.
  intros Hnd Hp. unfold merge_benchmark_files.
  now rewrite (sort_by_key_perm_eq found found' Hp Hnd).
Qed.

(** Scenario A listed backwards. *)
Lemma merge_ignores_listing_order_witness :
  merge_benchmark_files no_float_repr "runs" scenario_a
  = merge_benchmark_files no_float_repr "runs" (rev scenario_a).
Proof.
  apply (merge_ignores_listing_order no_float_repr "runs" scenario_a
           (rev scenario_a)).
  - repeat constructor; cbn; intuition discriminate.
  - apply Permutation_rev.
Defined.

(** X2.  The files are taken in ascending order of their paths, and the
    output keeps that order: the [__source_file] tags of the output
    records, read in order, are the base names of the files that yield a
    record, in ascending order of path.  A tag the record brought with it
    is replaced. *)
Theorem source_tags_follow_paths float_repr input_dir found doc :
  merge_benchmark_files float_repr input_dir found = Ok doc ->
  StronglySorted path_not_above (yielding (sort_by_key found)) /\
  Permutation (yielding (sort_by_key found)) (yielding found) /\
  map (fun r => rec_get r (KStr "__source_file")) (benchmarks doc)
  = map (fun pf => Some (VStr (basename (fst pf))))
      (yielding (sort_by_key found)).
Proof.
  intros H. split; [|split].
  - apply StronglySorted_filtered, sort_by_key_sorted.
  - apply filter_perm, sort_by_key_perm.
  - apply merge_records in H as (bs & sw & _ & Ha & Ho).
    revert Ho. generalize (combined_profile float_repr (List.length bs) sw).
    intros p. generalize (benchmarks doc).
    induction Ha as [|pf b files bs' (b0 & _ & ->) _ IH]; intros out Ho;
      inversion Ho as [|? r ? out' (b1 & Hb1 & ->) Hrest]; subst;
      [reflexivity|].
    cbn [map]. f_equal; [|now apply IH].
    rewrite rec_get_set_other by discriminate.
    apply attach_keeps in Hb1 as (Hk & _ & _). rewrite Hk by discriminate.
    apply rec_get_set_same.
Qed.

(** Scenario A listed
    backwards gives [a.json] before [b.json]. *)
Lemma source_tags_follow_paths_witness :
  exists doc,
    merge_benchmark_files no_float_repr "runs" (rev scenario_a) = Ok doc /\
    map (fun r => rec_get r (KStr "__source_file")) (benchmarks doc)
    = [Some (VStr "a.json"); Some (VStr "b.json")].
Proof.
  destruct (merge_benchmark_files _ _ _) as [doc|e] eqn:E;
    [|vm_compute in E; discriminate].
  exists doc. split; [reflexivity|].
  destruct (source_tags_follow_paths _ _ _ _ E) as (_ & _ & ->).
  reflexivity.
Defined.

(** ** The tag of the run *)

Lemma no_slash_app a b :
  no_slash (a ++ b)%string = no_slash a && no_slash b.
Proof.
  induction a as [|c a IH]; cbn [String.append no_slash]; [reflexivity|].
  now rewrite IH, Bool.andb_assoc.
Qed.

Lemma basename_from_no_slash p : forall acc,
  no_slash acc = true -> no_slash (basename_from acc p) = true.
Proof.
  induction p as [|c p IH]; intros acc Hacc; cbn [basename_from];
    [exact Hacc|].
  destruct (Ascii.eqb c slash) eqn:E; [now apply IH|].
  apply IH. rewrite no_slash_app, Hacc. cbn [no_slash]. now rewrite E.
Qed.

Lemma rstrip_slash_trailing d :
  rstrip_slash (d ++ "/")%string = rstrip_slash d.
Proof.
  induction d as [|c d IH]; [reflexivity|].
  cbn [String.append rstrip_slash]. now rewrite IH.
Qed.

(** X3.  Every record of the output is tagged, under [__combined_from],
    with the last component of the input directory; the tag holds no
    separator, and a separator written after the directory's name changes
    nothing of the document. *)
Theorem combined_from_is_last_component float_repr input_dir found doc :
  merge_benchmark_files float_repr input_dir found = Ok doc ->
  Forall (fun r => rec_get r (KStr "__combined_from")
                   = Some (VStr (basename (rstrip_slash input_dir))))
    (benchmarks doc) /\
  no_slash (basename (rstrip_slash input_dir)) = true /\
  merge_benchmark_files float_repr (input_dir ++ "/")%string found = Ok doc.
Proof.
  intros H. split; [|split].
  - apply merge_ok_inv in H as (bs & sw & out & _ & _ & _ & _ & ->).
    cbn [benchmarks]. apply List.Forall_map, List.Forall_forall.
    intros r _. apply rec_get_set_same.
  - now apply basename_from_no_slash.
  - unfold merge_benchmark_files in *. rewrite rstrip_slash_trailing.
    destruct (accumulate (sort_by_key found) []) as [bs|]; [|discriminate].
    cbn [bind] in *. destruct bs; [discriminate | exact H].
Qed.

(** Scenario A read from [data/runs/]: both records are tagged [runs]. *)
Lemma combined_from_is_last_component_witness :
  exists doc,
    merge_benchmark_files no_float_repr "data/runs/" scenario_a = Ok doc /\
    Forall (fun r => rec_get r (KStr "__combined_from") = Some (VStr "runs"))
      (benchmarks doc).
Proof.
  destruct (merge_benchmark_files _ _ _) as [doc|e] eqn:E;
    [|vm_compute in E; discriminate].
  exists doc. split; [reflexivity|].
  exact (proj1 (combined_from_is_last_component _ _ _ _ E)).
Defined.

(** ** What a record keeps *)

Lemma py_dict_of_dict d k :
  rec_get (map (fun kv => (KStr (fst kv), snd kv)) d) (KStr k) = dict_get d k.
Proof.
  unfold rec_get, dict_get.
  induction d as [|[k0 v0] d IH]; cbn [map assoc_get fst snd]; [reflexivity|].
  cbn [hkey_eqb hkey_num]. now rewrite IH.
Qed.

(** X4.  Whatever a file's record holds besides [args] and the two tags
    reaches the output unchanged, and so does whatever its [args] holds
    besides [profile] (the [strategy] and [strategy_index] of the run, for
    instance): the output records are, in order, the records of the files
    that yield one, as line 51 copies them, each with these fields kept.
    A record without [args] is given one that holds the profile only.
    The copy of a dict holds the fields of the dict. *)
Theorem record_fields_pass_through float_repr input_dir found doc :
  merge_benchmark_files float_repr input_dir found = Ok doc ->
  Forall2
    (fun pf r =>
       exists b0,
         py_dict (load_first_benchmark (snd pf)) = Ok b0 /\
         kept_fields b0 r /\
         forall d k,
           load_first_benchmark (snd pf) = VDict d ->
           rec_get b0 (KStr k) = dict_get d k)
    (yielding (sort_by_key found)) (benchmarks doc).
Proof.
  intros H. apply merge_records in H as (bs & sw & _ & Ha & Ho).
  revert Ho. generalize (combined_profile float_repr (List.length bs) sw).
  intros p. generalize (benchmarks doc).
  induction Ha as [|pf b files bs' (b0 & Hb0 & ->) _ IH]; intros out Ho;
    inversion Ho as [|? r ? out' (b1 & Hb1 & ->) Hrest]; subst;
    constructor; [|now apply IH].
  exists b0. split; [exact Hb0|].
  apply attach_keeps in Hb1 as (Hk & Ha & Hnone). split; [split; [|split]|].
  - intros k Hargs Hsrc Hcomb.
    now rewrite rec_get_set_apart, Hk, rec_get_set_apart.
  - intros a Hb. exists (dict_set a "profile" (VDict p)). split.
    + rewrite rec_get_set_other by discriminate. apply Ha.
      now rewrite rec_get_set_other by discriminate.
    + intros s Hs. apply dict_get_set_other. congruence.
  - intros Hb. exists p. rewrite rec_get_set_other by discriminate.
    apply Hnone. now rewrite rec_get_set_other by discriminate.
  - intros d k Hd. rewrite Hd in Hb0. injection Hb0 as <-.
    apply py_dict_of_dict.
Qed.

(** A run whose record has a [strategy] beside its [profile]. *)
Lemma record_fields_pass_through_witness :
  exists doc,
    merge_benchmark_files no_float_repr "runs" empty_streams_run = Ok doc /\
    Forall2
      (fun pf r =>
         exists b0,
           py_dict (load_first_benchmark (snd pf)) = Ok b0 /\
           kept_fields b0 r /\
           forall d k,
             load_first_benchmark (snd pf) = VDict d ->
             rec_get b0 (KStr k) = dict_get d k)
      (yielding (sort_by_key empty_streams_run)) (benchmarks doc).
Proof.
  destruct (merge_benchmark_files _ _ _) as [doc|e] eqn:E;
    [|vm_compute in E; discriminate].
  exists doc. split; [reflexivity|].
  exact (record_fields_pass_through _ _ _ _ E).
Defined.

(** ** When the merge returns, and how it fails *)

Lemma well_shaped_untagged r s v :
  s <> "args" -> well_shaped (rec_set r (KStr s) v) -> well_shaped r.
Proof.
  intros Hs (a & p & Ha & Hp & Hst). exists a, p. repeat split; try assumption.
  unfold args_dict in *. now rewrite rec_get_set_other in Ha.
Qed.

Lemma accumulate_mergeable files : forall acc,
  Forall mergeable (yielding files) ->
  Forall well_shaped acc ->
  exists bs, accumulate files acc = Ok bs /\ Forall well_shaped bs.
Proof.
  induction files as [|[fp f] rest IH]; intros acc Hf Hacc.
  - exists acc. now split.
  - cbn [accumulate]. unfold yielding in *. cbn [List.filter snd] in Hf.
    unfold yields at 1 in Hf.
    destruct (load_first_benchmark f) eqn:E;
      try (inversion Hf as [|? ? (b0 & Hb0 & Hw) Hrest]; subst;
           cbn [snd] in Hb0; rewrite E in Hb0; rewrite Hb0; cbn [bind];
           apply IH; [exact Hrest|]; apply Forall_app; split; [exact Hacc|];
           constructor; [|constructor];
           apply well_shaped_tagged; [discriminate | exact Hw]).
    now apply IH.
Qed.

Lemma py_dict_raises b e :
  py_dict b = Raise e -> e = TypeError \/ e = ValueError.
Proof.
  destruct b as [| | | |s|items|d]; cbn [py_dict]; intros H;
    try (injection H as <-; auto; fail).
  - destruct s; [discriminate | injection H as <-; auto].
  - revert H. generalize (@nil (hkey * value)).
    induction items as [|item rest IH]; intros d H; cbn [dict_of_pairs] in H;
      [discriminate|].
    destruct (item_pair item) as [kv|e'] eqn:Ei; cbn [bind] in H.
    + now apply IH in H.
    + injection H as <-. unfold item_pair in Ei.
      repeat match type of Ei with
             | match ?x with _ => _ end = _ => destruct x
             end; try discriminate; injection Ei as <-; auto.
  - discriminate.
Qed.

Lemma accumulate_raises files : forall acc e,
  accumulate files acc = Raise e ->
  Exists (fun pf => py_dict (load_first_benchmark (snd pf)) = Raise e)
    (yielding files).
Proof.
  induction files as [|[fp f] rest IH]; intros acc e H; cbn [accumulate] in H;
    [discriminate|].
  unfold yielding in *. cbn [List.filter snd]. unfold yields at 1.
  destruct (load_first_benchmark f) eqn:E;
    try (destruct (py_dict _) as [b0|e'] eqn:Ed; cbn [bind] in H;
         [apply Exists_cons_tl; now apply IH in H
         |injection H as <-; apply Exists_cons_hd; cbn [snd];
          now rewrite E]).
  now apply IH in H.
Qed.

(** The scan of one record fails only for want of a dict, and only with
    [AttributeError]. *)
Lemma collect_one_raises sw b e :
  collect_one sw b = Raise e -> e = AttributeError /\ ~ well_shaped b.
Proof.
  intros H. split.
  - unfold collect_one in H.
    destruct (default (VDict []) (rec_get b (KStr "args"))) as [| | | | | |a];
      cbn in H; try (now injection H as <-).
    destruct (default (VDict []) (dict_get a "profile")) as [| | | | | |p];
      cbn in H; try (now injection H as <-).
    destruct (default VNone (dict_get p "streams")); cbn in H;
      try discriminate.
    destruct (default (VDict []) (dict_get a "strategy")) as [| | | | | |s];
      cbn in H; try (now injection H as <-). discriminate.
  - intros Hw. destruct (collect_one_total sw b Hw) as [sw' E]. congruence.
Qed.

Lemma collect_one_well_shaped sw b sw' :
  collect_one sw b = Ok sw' -> well_shaped b.
Proof.
  unfold collect_one, well_shaped, args_dict, sub_dict, field.
  destruct (rec_get b (KStr "args")) as [[| | | | | |a]|]; cbn;
    try discriminate.
  - destruct (dict_get a "profile") as [[| | | | | |p]|] eqn:Ep; cbn;
      try discriminate.
    + intros H. exists a, p. rewrite Ep. repeat split. intros Hs.
      rewrite Hs in H. cbn in H.
      destruct (dict_get a "strategy") as [[| | | | | |s]|]; cbn in H;
        try discriminate; eauto.
    + intros H. exists a, []. rewrite Ep. repeat split. intros _.
      destruct (dict_get a "strategy") as [[| | | | | |s]|]; cbn in H;
        try discriminate; eauto.
  - intros _. exists [], []. repeat split. eauto.
Qed.

Lemma collect_from_well_shaped records : forall sw sw',
  collect_from records sw = Ok sw' -> Forall well_shaped records.
Proof.
  induction records as [|b rest IH]; intros sw sw' H; [constructor|].
  cbn [collect_from] in H.
  destruct (collect_one sw b) as [sw1|] eqn:E1; [|discriminate].
  constructor; [eapply collect_one_well_shaped, E1 | eapply IH, H].
Qed.

Lemma collect_from_raises records : forall sw e,
  collect_from records sw = Raise e ->
  e = AttributeError /\ Exists (fun b => ~ well_shaped b) records.
Proof.
  induction records as [|b rest IH]; intros sw e H; cbn [collect_from] in H;
    [discriminate|].
  destruct (collect_one sw b) as [sw1|e1] eqn:E1; cbn [bind] in H.
  - apply IH in H as [-> Hx]. split; [reflexivity | now apply Exists_cons_tl].
  - injection H as <-. apply collect_one_raises in E1 as [-> Hn].
    split; [reflexivity | now apply Exists_cons_hd].
Qed.

Lemma Forall2_left {A B} (P : A -> Prop) (R : A -> B -> Prop) l k :
  (forall x y, R x y -> P x) -> Forall2 R l k -> Forall P l.
Proof. intros HR. induction 1; constructor; eauto. Qed.

(** X5.  The merge returns a document exactly when some file yields a
    record and, for every file that yields one, line 51 makes a dict of
    the record and that dict's [args], [args.profile] and (where it is
    consulted) [args.strategy] are dicts when present.  In every other
    case it raises. *)
Theorem merge_returns_iff float_repr input_dir found :
  (exists doc, merge_benchmark_files float_repr input_dir found = Ok doc)
  <->
  (yielding found <> [] /\ Forall mergeable (yielding found)).
Proof.
  split.
  - intros [doc H].
    pose proof (merge_records _ _ _ _ H) as (bs & sw & Hc & Ha & _).
    apply merge_ok_inv in H as (bs' & _ & _ & Hacc & Hne & _).
    apply collect_from_well_shaped in Hc.
    assert (Hm : Forall mergeable (yielding (sort_by_key found))).
    { clear -Ha Hc. induction Ha as [|pf b fs bs (b0 & Hb0 & ->) _ IH];
        [constructor|].
      inversion Hc as [|? ? Hw Hrest]; subst.
      constructor; [|now apply IH]. exists b0. split; [exact Hb0|].
      eapply well_shaped_untagged; [|exact Hw]. discriminate. }
    split.
    + intros Hy. apply accumulate_length in Hacc.
      cbn [List.length Nat.add] in Hacc. unfold yielding in Hacc, Hy.
      rewrite (filter_length_perm _ _ _ (sort_by_key_perm found)) in Hacc.
      rewrite Hy in Hacc.
      destruct bs'; [congruence | discriminate].
    + eapply Permutation_Forall; [|exact Hm].
      apply filter_perm, sort_by_key_perm.
  - intros [Hy Hm]. unfold merge_benchmark_files, aggregate.
    destruct (accumulate_mergeable (sort_by_key found) []) as (bs & Ha & Hw).
    { eapply Permutation_Forall; [|exact Hm].
      symmetry. apply filter_perm, sort_by_key_perm. }
    { constructor. }
    rewrite Ha. cbn [bind].
    destruct bs as [|b0 bs0] eqn:Ebs.
    + apply accumulate_length in Ha. cbn [List.length Nat.add] in Ha.
      exfalso. apply Hy. apply List.length_zero_iff_nil. unfold yielding in *.
      now rewrite <- (filter_length_perm _ _ _ (sort_by_key_perm found)).
    + rewrite <- Ebs in *. clear Ebs.
      destruct (collect_from_total bs (Sweep [] [] [] []) Hw) as [sw Hc].
      unfold collect. rewrite Hc. cbn [bind].
      destruct (attach_all_total
                  (combined_profile float_repr (List.length bs) sw) bs Hw)
        as [out Ho].
      rewrite Ho. cbn [bind]. eauto.
Qed.

(** X6.  The merge raises in three ways and no other: [SystemExit] with
    its message, when no file yields a record; the [TypeError] or
    [ValueError] of line 51, when [dict] refuses the record of some file;
    [AttributeError], when the scan of lines 64-92 meets an [args],
    [args.profile] or [args.strategy] that is no dict.  The loop of lines
    132-136 never raises: what would stop it has stopped the scan. *)
Theorem merge_raises_only float_repr input_dir found e :
  merge_benchmark_files float_repr input_dir found = Raise e ->
  (e = SystemExit ("No benchmark entries found in " ++ input_dir)%string /\
   yielding found = []) \/
  ((e = TypeError \/ e = ValueError) /\
   Exists (fun pf => py_dict (load_first_benchmark (snd pf)) = Raise e)
     (yielding found)) \/
  (e = AttributeError /\
   exists bs,
     accumulate (sort_by_key found) [] = Ok bs /\
     Exists (fun b => ~ well_shaped b) bs).
Proof.
  unfold merge_benchmark_files, aggregate. intros H.
  destruct (accumulate (sort_by_key found) []) as [bs|e0] eqn:Ea;
    cbn [bind] in H.
  - destruct bs as [|b0 bs0] eqn:Ebs.
    + injection H as <-. left. split; [reflexivity|].
      apply accumulate_length in Ea. cbn [List.length Nat.add] in Ea.
      apply List.length_zero_iff_nil. unfold yielding in *.
      now rewrite <- (filter_length_perm _ _ _ (sort_by_key_perm found)).
    + rewrite <- Ebs in *. clear Ebs. right. right.
      unfold collect in H.
      destruct (collect_from bs (Sweep [] [] [] [])) as [sw|e1] eqn:Ec;
        cbn [bind] in H.
      * pose proof (collect_from_well_shaped _ _ _ Ec) as Hw.
        destruct (attach_all_total
                    (combined_profile float_repr (List.length bs) sw) bs Hw)
          as [out Ho].
        rewrite Ho in H. discriminate.
      * injection H as <-. apply collect_from_raises in Ec as [-> Hx].
        split; [reflexivity|]. now exists bs.
  - injection H as <-. right. left.
    apply accumulate_raises in Ea. split.
    + apply List.Exists_exists in Ea as (pf & _ & Hpf).
      exact (py_dict_raises _ _ Hpf).
    + apply List.Exists_exists in Ea as (pf & Hin & Hpf).
      apply List.Exists_exists. exists pf. split; [|exact Hpf].
      apply (Permutation_in pf (filter_perm _ _ _ (sort_by_key_perm found))).
      exact Hin.
Qed.

(** A record whose [args] is [null] ends the run the third way. *)
Lemma merge_raises_only_witness :
  merge_benchmark_files no_float_repr "runs"
    [("runs/0.json", Some (VDict [("type_", VStr "x"); ("args", VNone)]))]
  = Raise AttributeError /\
  exists bs,
    accumulate
      (sort_by_key
         [("runs/0.json", Some (VDict [("type_", VStr "x"); ("args", VNone)]))])
      [] = Ok bs /\
    Exists (fun b => ~ well_shaped b) bs.
Proof.
  split; [reflexivity|].
  destruct (merge_raises_only no_float_repr "runs"
              [("runs/0.json",
                Some (VDict [("type_", VStr "x"); ("args", VNone)]))]
              AttributeError eq_refl)
    as [[H _]|[[[H|H] _]|[_ H]]]; try discriminate H.
  exact H.
Defined.

(** X7.  One file whose record [dict] refuses (a number, a boolean, a
    text, a list that is no list of pairs) is enough for the merge to
    raise [TypeError] or [ValueError], whatever the other files hold. *)
Theorem refused_record_ends_the_merge float_repr input_dir found pf e :
  In pf found ->
  yields (snd pf) = true ->
  py_dict (load_first_benchmark (snd pf)) = Raise e ->
  merge_benchmark_files float_repr input_dir found = Raise TypeError \/
  merge_benchmark_files float_repr input_dir found = Raise ValueError.
Proof.
  intros Hin Hy Hd. unfold merge_benchmark_files.
  destruct (accumulate (sort_by_key found) []) as [bs|e0] eqn:Ea.
  - exfalso. apply accumulate_records in Ea as (new & _ & Hn).
    assert (Hall : Forall (fun pf => exists b0,
                             py_dict (load_first_benchmark (snd pf)) = Ok b0)
                     (yielding (sort_by_key found))).
    { eapply Forall2_left; [|exact Hn].
      intros x y (b0 & Hb0 & _). now exists b0. }
    rewrite List.Forall_forall in Hall.
    destruct (Hall pf) as [b0 Hb0]; [|congruence].
    unfold yielding. apply List.filter_In. split; [|exact Hy].
    apply (Permutation_in pf (Permutation_sym (sort_by_key_perm found))).
    exact Hin.
  - cbn [bind]. apply accumulate_raises in Ea.
    apply List.Exists_exists in Ea as (pf' & _ & Hpf').
    destruct (py_dict_raises _ _ Hpf') as [-> | ->]; auto.
Qed.

(** The file [[1]] of the run that ends early, wherever it is listed. *)
Lemma refused_record_ends_the_merge_witness :
  merge_benchmark_files no_float_repr "runs"
    (scenario_a ++ [("runs/0.json", Some (VList [VInt 1]))])
  = Raise TypeError \/
  merge_benchmark_files no_float_repr "runs"
    (scenario_a ++ [("runs/0.json", Some (VList [VInt 1]))])
  = Raise ValueError.
Proof.
  apply (refused_record_ends_the_merge no_float_repr "runs"
           (scenario_a ++ [("runs/0.json", Some (VList [VInt 1]))])
           ("runs/0.json", Some (VList [VInt 1])) TypeError).
  - cbn. auto.
  - reflexivity.
  - reflexivity.
Defined.

(** ** What the deduplicator returns *)

Lemma uniq_sound float_repr l x : In x (uniq float_repr l) -> In x l.
Proof.
  intros H. apply list_elem_of_In. apply list_elem_of_In in H.
  eapply elem_of_sublist; [exact H|]. apply uniq_loop_sublist.
Qed.

Lemma uniq_covers float_repr l x :
  In x l -> exists y, In y (uniq float_repr l) /\ same_key float_repr x y.
Proof.
  intros Hx.
  pose proof (seen_after_scan float_repr l [] (uniq_key float_repr x)) as H.
  rewrite !app_nil_r in H.
  assert (Ht : seen_has (map (uniq_key float_repr) l) (uniq_key float_repr x)
               = true).
  { apply existsb_exists. exists (uniq_key float_repr x).
    split; [now apply in_map | apply hkey_eqb_refl]. }
  rewrite Ht in H. apply existsb_exists in H as (k & Hk & He).
  apply in_rev in Hk.
  apply in_map_iff in Hk as (y & <- & Hy). now exists y.
Qed.

Lemma uniq_nil_iff float_repr l : uniq float_repr l = [] <-> l = [].
Proof.
  split; [|now intros ->]. destruct l as [|x l]; [reflexivity|].
  unfold uniq. rewrite uniq_loop_cons. discriminate.
Qed.

(** X8.  Deduplicating is idempotent; what it returns has no two items
    with equal keys, is empty only for an empty input, holds items of the
    input only, and stands for all of them: every item of the input has
    its key among those of the result. *)
Theorem uniq_is_idempotent float_repr l :
  uniq float_repr (uniq float_repr l) = uniq float_repr l /\
  distinct_keys float_repr (uniq float_repr l) /\
  (uniq float_repr l = [] <-> l = []) /\
  (forall x, In x (uniq float_repr l) -> In x l) /\
  (forall x, In x l ->
             exists y, In y (uniq float_repr l) /\ same_key float_repr x y).
Proof.
  split; [|split; [|split; [|split]]].
  - unfold uniq at 1. apply uniq_loop_id; [apply uniq_distinct|].
    apply List.Forall_forall. reflexivity.
  - apply uniq_distinct.
  - apply uniq_nil_iff.
  - apply uniq_sound.
  - apply uniq_covers.
Qed.

(** X9.  A value that is no number, boolean or text is keyed by its
    serialization, and a text is keyed by itself, in one and the same
    set: after a value, the text that spells its serialization is dropped
    as a duplicate, and after that text the value is. *)
Theorem uniq_confuses_text_and_serialization float_repr x :
  is_scalar x = false ->
  uniq float_repr [x; VStr (dumps float_repr x)] = [x] /\
  uniq float_repr [VStr (dumps float_repr x); x]
  = [VStr (dumps float_repr x)].
Proof.
  intros Hx.
  assert (Hk : uniq_key float_repr x = KStr (dumps float_repr x))
    by (destruct x; try discriminate; reflexivity).
  unfold uniq. cbn [uniq_loop seen_has existsb app]. rewrite Hk.
  cbn [uniq_key hkey_eqb seen_has existsb]. rewrite String.eqb_refl.
  now split.
Qed.

(** [None] after the text [null], and the other way round. *)
Lemma uniq_confuses_text_and_serialization_witness :
  uniq no_float_repr [VNone; VStr "null"] = [VNone] /\
  uniq no_float_repr [VStr "null"; VNone] = [VStr "null"].
Proof.
  apply (uniq_confuses_text_and_serialization no_float_repr VNone).
  reflexivity.
Defined.

(** ** What the combined profile holds *)

Lemma sorted_or_same_nonempty u : u <> [] -> sorted_or_same u <> [].
Proof.
  intros Hu Hs. pose proof (sorted_or_same_perm u) as Hp.
  rewrite Hs in Hp. now apply Permutation_nil in Hp.
Qed.

Lemma combined_profile_keys float_repr n sw :
  sublist (map fst (combined_profile float_repr n sw)) profile_keys.
Proof.
  unfold combined_profile, profile_keys.
  destruct (uniq float_repr (measured_rates sw)),
    (uniq float_repr (measured_concurrencies sw)),
    (uniq float_repr (streams sw)), (uniq float_repr (strategy_types sw));
    cbn;
    repeat first [apply sublist_nil | apply sublist_skip | apply sublist_cons].
Qed.

Lemma combined_profile_header float_repr n sw :
  dict_get (combined_profile float_repr n sw) "type_"
  = Some (VStr "concurrent") /\
  dict_get (combined_profile float_repr n sw) "completed_strategies"
  = Some (VInt (Z.of_nat n)).
Proof.
  unfold combined_profile.
  destruct (uniq float_repr (measured_rates sw)),
    (uniq float_repr (measured_concurrencies sw)),
    (uniq float_repr (streams sw)), (uniq float_repr (strategy_types sw));
    split; reflexivity.
Qed.

Lemma combined_profile_lists float_repr n sw k v :
  In k ["measured_rates"; "measured_concurrencies"; "streams";
        "strategy_types"] ->
  dict_get (combined_profile float_repr n sw) k = Some v ->
  exists x l, v = VList (x :: l).
Proof.
  intros Hk Hv. cbn [In] in Hk.
  destruct Hk as [<-|[<-|[<-|[<-|[]]]]].
  - rewrite combined_profile_rates in Hv.
    destruct (uniq float_repr (measured_rates sw)) as [|x l];
      [discriminate|]. injection Hv as <-. eauto.
  - rewrite combined_profile_concurrencies in Hv.
    destruct (uniq float_repr (measured_concurrencies sw)) as [|x l];
      [discriminate|]. injection Hv as <-. eauto.
  - rewrite combined_profile_streams in Hv.
    destruct (uniq float_repr (streams sw)) as [|x l] eqn:E;
      [discriminate|]. injection Hv as <-.
    destruct (sorted_or_same (x :: l)) as [|y s] eqn:Es; [|eauto].
    now apply sorted_or_same_nonempty in Es.
  - rewrite combined_profile_strategy_types in Hv.
    destruct (uniq float_repr (strategy_types sw)) as [|x l];
      [discriminate|]. injection Hv as <-. eauto.
Qed.

(** X10.  The profile every output record carries says [concurrent] under
    [type_] and the number of output records under
    [completed_strategies]; its keys are among the six of lines 116-128,
    in that order, each at most once ([strategy_indexes] is never one);
    and each of the four lists, when present, is a non-empty list. *)
Theorem profile_header_and_keys float_repr input_dir found doc :
  merge_benchmark_files float_repr input_dir found = Ok doc ->
  exists p,
    Forall (carries p) (benchmarks doc) /\
    dict_get p "type_" = Some (VStr "concurrent") /\
    dict_get p "completed_strategies"
    = Some (VInt (Z.of_nat (List.length (benchmarks doc)))) /\
    sublist (map fst p) profile_keys /\
    forall k v,
      In k ["measured_rates"; "measured_concurrencies"; "streams";
            "strategy_types"] ->
      dict_get p k = Some v -> exists x l, v = VList (x :: l).
Proof.
  intros H. apply merge_ok_inv in H as (bs & sw & out & _ & _ & _ & Ho & ->).
  apply attach_all_spec in Ho as [Hl Hc].
  exists (combined_profile float_repr (List.length bs) sw).
  cbn [benchmarks]. rewrite List.length_map.
  split; [|split; [|split; [|split]]].
  - apply List.Forall_map. eapply List.Forall_impl; [|exact Hc].
    intros r Hr. now apply carries_tagged.
  - apply combined_profile_header.
  - etransitivity; [apply combined_profile_header|].
    do 3 f_equal. symmetry. exact Hl.
  - apply combined_profile_keys.
  - apply combined_profile_lists.
Qed.

(** Scenario A: two records, [completed_strategies] 2. *)
Lemma profile_header_and_keys_witness :
  exists doc p,
    merge_benchmark_files no_float_repr "runs" scenario_a = Ok doc /\
    Forall (carries p) (benchmarks doc) /\
    dict_get p "completed_strategies" = Some (VInt 2).
Proof.
  destruct (merge_benchmark_files _ _ _) as [doc|e] eqn:E;
    [|vm_compute in E; discriminate].
  destruct (profile_header_and_keys _ _ _ _ E) as (p & Hc & _ & Hn & _).
  exists doc, p. split; [reflexivity|]. split; [exact Hc|].
  rewrite Hn. vm_compute in E. injection E as <-. reflexivity.
Defined.

(** The list under each key is the deduplicated running list; for
    [streams], that list sorted or left as it is. *)
Lemma entry_of_profile float_repr n sw :
  entry (combined_profile float_repr n sw) "measured_rates"
  = uniq float_repr (measured_rates sw) /\
  entry (combined_profile float_repr n sw) "measured_concurrencies"
  = uniq float_repr (measured_concurrencies sw) /\
  entry (combined_profile float_repr n sw) "strategy_types"
  = uniq float_repr (strategy_types sw) /\
  entry (combined_profile float_repr n sw) "streams"
  = sorted_or_same (uniq float_repr (streams sw)).
Proof.
  unfold entry, field.
  rewrite combined_profile_rates, combined_profile_concurrencies,
    combined_profile_strategy_types, combined_profile_streams,
    !contribution_listed.
  repeat split.
  destruct (uniq float_repr (streams sw)) as [|x u]; reflexivity.
Qed.

Lemma entry_of_scan float_repr bs sw k :
  collect bs = Ok sw ->
  In k list_keys ->
  Permutation (entry (combined_profile float_repr (List.length bs) sw) k)
    (uniq float_repr (flat_map (contributed k) bs)) /\
  (k <> "streams" ->
   entry (combined_profile float_repr (List.length bs) sw) k
   = uniq float_repr (flat_map (contributed k) bs)).
Proof.
  intros Hc Hk. apply collect_from_spec in Hc. subst sw.
  destruct (entry_of_profile float_repr (List.length bs)
              (Sweep
                 ([] ++ flat_map (tracked "measured_rates") bs)
                 ([] ++ flat_map (tracked "measured_concurrencies") bs)
                 ([] ++ flat_map tracked_streams bs)
                 ([] ++ flat_map (tracked "strategy_types") bs)))
    as (Hr & Hm & Ht & Hs).
  cbn [measured_rates measured_concurrencies streams strategy_types app] in *.
  cbn [In list_keys] in Hk.
  destruct Hk as [<-|[<-|[<-|[<-|[]]]]]; unfold contributed;
    cbn [String.eqb Ascii.eqb Bool.eqb].
  - rewrite Hr. now split.
  - rewrite Hm. now split.
  - rewrite Hs. split; [apply sorted_or_same_perm | congruence].
  - rewrite Ht. now split.
Qed.

(** X11.  Each list of the combined profile is made of what the records
    contribute and of nothing else: it is the deduplicated concatenation,
    in record order, of the contributions ([streams]: a rearrangement of
    it), so every item of it was contributed by some record, and every
    contributed item has its key among the items of the list. *)
Theorem profile_lists_stand_for_contributions float_repr bs sw k :
  collect bs = Ok sw ->
  In k list_keys ->
  let l := entry (combined_profile float_repr (List.length bs) sw) k in
  Permutation l (uniq float_repr (flat_map (contributed k) bs)) /\
  (k <> "streams" -> l = uniq float_repr (flat_map (contributed k) bs)) /\
  (forall x, In x l -> exists b, In b bs /\ In x (contributed k b)) /\
  (forall b x,
      In b bs -> In x (contributed k b) ->
      exists y, In y l /\ same_key float_repr x y).
Proof.
  intros Hc Hk. cbv zeta.
  destruct (entry_of_scan float_repr bs sw k Hc Hk) as [Hp He].
  split; [exact Hp|]. split; [exact He|]. split.
  - intros x Hx. apply (Permutation_in x Hp), uniq_sound in Hx.
    apply in_flat_map in Hx as (b & Hb & Hx). now exists b.
  - intros b x Hb Hx.
    destruct (uniq_covers float_repr (flat_map (contributed k) bs) x)
      as (y & Hy & Hxy).
    { apply in_flat_map. now exists b. }
    exists y. split; [|exact Hxy].
    exact (Permutation_in y (Permutation_sym Hp) Hy).
Qed.

(** Scenario C twice: the streams of the profile are [5], from the
    strategy of either record. *)
Lemma profile_lists_stand_for_contributions_witness :
  Permutation
    (entry (combined_profile no_float_repr 2
              (Sweep [VInt 1; VInt 2; VInt 1; VInt 2] [] [VInt 5; VInt 5] []))
       "streams")
    [VInt 5].
Proof.
  apply (profile_lists_stand_for_contributions no_float_repr
           [scenario_c; scenario_c]
           (Sweep [VInt 1; VInt 2; VInt 1; VInt 2] [] [VInt 5; VInt 5] [])
           "streams").
  - reflexivity.
  - cbn. auto.
Defined.

(** X12.  Records scanned later never disturb what earlier records gave:
    the [measured_rates], [measured_concurrencies] and [strategy_types] of
    the profile of a list of records begin with those of the profile of
    any initial part of the list.  ([streams] is sorted afterwards, and
    has no such property.) *)
Theorem earlier_records_come_first float_repr bs cs sw' k :
  collect (bs ++ cs) = Ok sw' ->
  In k ["measured_rates"; "measured_concurrencies"; "strategy_types"] ->
  exists sw,
    collect bs = Ok sw /\
    prefix (entry (combined_profile float_repr (List.length bs) sw) k)
      (entry (combined_profile float_repr (List.length (bs ++ cs)) sw') k).
Proof.
  intros Hc Hk.
  assert (Hw : Forall well_shaped bs).
  { apply collect_from_well_shaped in Hc. now apply Forall_app in Hc as [? _]. }
  destruct (collect_from_total bs (Sweep [] [] [] []) Hw) as [sw Hs].
  exists sw. split; [exact Hs|].
  assert (Hk' : In k list_keys /\ k <> "streams").
  { cbn [In list_keys] in *. intuition (subst; discriminate || auto). }
  destruct Hk' as [Hin Hne].
  rewrite (proj2 (entry_of_scan float_repr bs sw k Hs Hin) Hne).
  rewrite (proj2 (entry_of_scan float_repr (bs ++ cs) sw' k Hc Hin) Hne).
  rewrite flat_map_app. unfold uniq. rewrite uniq_loop_app.
  now eexists.
Qed.

(** Scenario C, then a record with the rate 3: rates 1, 2, then 3. *)
Lemma earlier_records_come_first_witness :
  exists sw,
    collect [scenario_c] = Ok sw /\
    prefix (entry (combined_profile no_float_repr 1 sw) "measured_rates")
      (entry (combined_profile no_float_repr 2
                (Sweep [VInt 1; VInt 2; VInt 3] [] [VInt 5] []))
         "measured_rates").
Proof.
  apply (earlier_records_come_first no_float_repr [scenario_c]
           [[(KStr "args",
              VDict [("profile", VDict [("measured_rates", VInt 3)])])]]
           (Sweep [VInt 1; VInt 2; VInt 3] [] [VInt 5] []) "measured_rates").
  - reflexivity.
  - cbn. auto.
Defined.

(** ** Streams that are numbers *)

Lemma ordered_number_scalar x : ordered_number x = true -> is_scalar x = true.
Proof. destruct x; try discriminate; reflexivity. Qed.

Lemma strictly_ascending float_repr s :
  Forall (fun x => ordered_number x = true) s ->
  distinct_keys float_repr s ->
  StronglySorted not_above s -> StronglySorted below s.
Proof.
  intros Hn Hd Hs. induction Hs as [|a l _ IH Ha]; [constructor|].
  inversion Hn as [|? ? Na Nl]; subst.
  inversion Hd as [|? ? Da Dl]; subst.
  constructor; [now apply IH|].
  rewrite List.Forall_forall in *. intros y Hy.
  destruct (Ha y Hy) as [Hlt|Hsame]; [exact Hlt|].
  specialize (Da y Hy). cbv beta in Da.
  rewrite (scalar_keys float_repr a y) in Da
    by (apply ordered_number_scalar; auto).
  congruence.
Qed.

(** X13.  When the streams the records contribute are numbers ([int],
    [float] other than NaN, [bool]), the [streams] entry of the combined
    profile lists the distinct ones in strictly increasing order: each
    item is below every item after it. *)
Theorem numeric_streams_strictly_ascending float_repr n sw :
  streams sw <> [] ->
  Forall (fun x => ordered_number x = true) (streams sw) ->
  exists s,
    dict_get (combined_profile float_repr n sw) "streams" = Some (VList s) /\
    Permutation s (uniq float_repr (streams sw)) /\
    StronglySorted below s.
Proof.
  intros Hne Hn.
  assert (Hu : Forall (fun x => ordered_number x = true)
                 (uniq float_repr (streams sw))).
  { rewrite List.Forall_forall in *. intros x Hx.
    apply Hn. eapply uniq_sound, Hx. }
  destruct (sorted_numbers _ Hu) as (s & Hs & Hp & Ha).
  exists s. split; [|split; [exact Hp|]].
  - rewrite combined_profile_streams.
    destruct (uniq float_repr (streams sw)) as [|x u] eqn:Eu.
    + now apply uniq_nil_iff in Eu.
    + unfold sorted_or_same. now rewrite Hs.
  - apply (strictly_ascending float_repr); [| |exact Ha].
    + eapply Permutation_Forall; [|exact Hu]. now symmetry.
    + apply (distinct_keys_perm float_repr (uniq float_repr (streams sw)));
        [now symmetry | apply uniq_distinct].
Qed.

(** Streams 3, 1, 2, 1.0: the profile lists 1, 2, 3. *)
Lemma numeric_streams_strictly_ascending_witness :
  exists s,
    dict_get
      (combined_profile no_float_repr 1
         (Sweep [] [] [VInt 3; VInt 1; VInt 2; VFloat float_one] []))
      "streams" = Some (VList s) /\
    Permutation s [VInt 3; VInt 1; VInt 2] /\
    StronglySorted below s.
Proof.
  apply (numeric_streams_strictly_ascending no_float_repr 1
           (Sweep [] [] [VInt 3; VInt 1; VInt 2; VFloat float_one] [])).
  - discriminate.
  - repeat constructor.
Defined.

(** ** The written document, read again *)

(** X15.  The document of a run, written out and read again by the
    extractor, yields a record, and that record is the first of the
    document; the rest is out of reach.  So a directory that holds one
    merged file and nothing else merges into a single record, however
    many the file holds. *)
Theorem merged_file_yields_its_first_record float_repr input_dir found doc :
  merge_benchmark_files float_repr input_dir found = Ok doc ->
  (exists r0 rest,
      benchmarks doc = r0 :: rest /\
      load_first_benchmark (written float_repr doc)
      = json_load
          (VDict (map (fun kv => (key_text float_repr (fst kv), snd kv)) r0)))
  /\
  yields (written float_repr doc) = true /\
  forall dir path doc',
    merge_benchmark_files float_repr dir [(path, written float_repr doc)]
    = Ok doc' ->
    List.length (benchmarks doc') = 1%nat.
Proof.
  intros H.
  assert (Hne : exists r0 rest, benchmarks doc = r0 :: rest).
  { apply merge_ok_inv in H as (bs & sw & out & _ & Hne & _ & Ho & ->).
    apply attach_all_spec in Ho as [Hl _].
    destruct out as [|r0 out]; [|cbn; eauto].
    destruct bs; [congruence | discriminate]. }
  destruct Hne as (r0 & rest & Hd).
  assert (Hy : yields (written float_repr doc) = true).
  { unfold yields, written. rewrite Hd. reflexivity. }
  split; [|split; [exact Hy|]].
  - exists r0, rest. split; [exact Hd|]. unfold written. now rewrite Hd.
  - intros dir path doc' H'.
    apply merge_ok_inv in H' as (bs & sw & out & Ha & _ & _ & Ho & ->).
    apply attach_all_spec in Ho as [Hl _]. apply accumulate_length in Ha.
    cbn [benchmarks]. rewrite List.length_map.
    etransitivity; [exact Hl|]. etransitivity; [exact Ha|].
    cbn [sort_by_key fold_right insert_by_key yielding List.filter snd].
    now rewrite Hy.
Qed.

(** Scenario A merged, written, and merged again: one record of two. *)
Lemma merged_file_yields_its_first_record_witness :
  exists doc doc',
    merge_benchmark_files no_float_repr "runs" scenario_a = Ok doc /\
    List.length (benchmarks doc) = 2%nat /\
    merge_benchmark_files no_float_repr "again"
      [("again/merged.json", written no_float_repr doc)] = Ok doc' /\
    List.length (benchmarks doc') = 1%nat.
Proof.
  destruct (merge_benchmark_files no_float_repr "runs" scenario_a)
    as [doc|e] eqn:E; [|vm_compute in E; discriminate].
  destruct (merge_benchmark_files no_float_repr "again"
              [("again/merged.json", written no_float_repr doc)])
    as [doc'|e] eqn:E'.
  - exists doc, doc'. split; [reflexivity|]. split.
    + vm_compute in E. injection E as <-. reflexivity.
    + split; [exact E'|].
      destruct (merged_file_yields_its_first_record _ _ _ _ E) as (_ & _ & Hn).
      exact (Hn _ _ _ E').
  - vm_compute in E. injection E as <-. vm_compute in E'. discriminate.
Defined.

(** ** The heap during the run *)

Lemma load_first_benchmark_extends f h :
  exists p ext,
    Store.load_first_benchmark f h = Some (Ok p, h ++ ext) /\
    stands_for (List.length ext) (h ++ ext) p (load_first_benchmark f).
Proof.
  destruct f as [doc|]; cbn [Store.load_first_benchmark load_first_benchmark].
  - destruct (decode_stands_for doc h) as (ext & He & Hs).
    unfold Store.mbind, Store.json_load.
    destruct (Store.decode doc h) as [data h']. cbn [fst snd] in *. subst h'.
    destruct (first_benchmark_agrees _ _ _ _ Hs) as (p & Hp & Hr).
    now exists p, ext.
  - exists Store.PNone, []. rewrite app_nil_r. split; [reflexivity|].
    intros [|m] ext _; reflexivity.
Qed.

(** X16.  Reading a file allocates the objects of its document and
    writes to no object that was there before; the reference the
    extractor returns points into the document, and the tree it stands
    for is the record the extractor gives on trees. *)
Theorem extractor_reads_without_writing f h :
  exists p ext,
    Store.load_first_benchmark f h = Some (Ok p, h ++ ext) /\
    Store.read (h ++ ext) p = Some (load_first_benchmark f).
Proof.
  destruct (load_first_benchmark_extends f h) as (p & ext & Hl & Hs).
  exists p, ext. split; [exact Hl|].
  unfold Store.read. rewrite <- (app_nil_r (h ++ ext)) at 2.
  apply Hs. rewrite length_app. lia.
Qed.

Lemma item_pair_pure item (h : Store.heap) r h' :
  Store.item_pair item h = Some (r, h') -> h' = h.
Proof.
  unfold Store.item_pair, Store.mbind, Store.load, Store.ret, Store.raise.
  intros H. destruct item as [| | | |s|l].
  5: { repeat match type of H with
              | context [match ?x with _ => _ end] => destruct x
              end; congruence. }
  5: { destruct (h !! l) as [[items|d]|]; [| |discriminate];
       repeat match type of H with
              | context [match ?x with _ => _ end] => destruct x
              end; congruence. }
  all: congruence.
Qed.

Lemma dict_of_pairs_pure items : forall d (h : Store.heap) r h',
  Store.dict_of_pairs items d h = Some (r, h') -> h' = h.
Proof.
  induction items as [|item rest IH]; intros d h r h' H;
    cbn [Store.dict_of_pairs] in H.
  - unfold Store.ret in H. congruence.
  - unfold Store.mbind in H.
    destruct (Store.item_pair item h) as [[[kv|e] h1]|] eqn:Ei;
      [| |discriminate]; apply item_pair_pure in Ei; subst h1.
    + now apply IH in H.
    + congruence.
Qed.

(** [dict(b)] makes one new object, or raises and makes none. *)
Lemma py_dict_shape b (h : Store.heap) r h' :
  Store.py_dict b h = Some (r, h') ->
  (exists d, r = Ok (List.length h) /\ h' = h ++ [Store.ODict d]) \/
  (exists e, r = Raise e /\ h' = h).
Proof.
  unfold Store.py_dict. intros H.
  destruct b as [| | | |s|l];
    try (unfold Store.raise in H; injection H as <- <-; right; eauto; fail).
  - destruct s; [|unfold Store.raise in H; injection H as <- <-; right; eauto].
    unfold Store.alloc in H. injection H as <- <-. left. eauto.
  - unfold Store.mbind at 1, Store.load in H.
    destruct (h !! l) as [[items|d]|]; [| |discriminate].
    + unfold Store.mbind in H.
      destruct (Store.dict_of_pairs items [] h) as [[[d|e] h1]|] eqn:Ed;
        [| |discriminate]; apply dict_of_pairs_pure in Ed; subst h1.
      * unfold Store.alloc in H. injection H as <- <-. left. eauto.
      * injection H as <- <-. right. eauto.
    + unfold Store.alloc in H. injection H as <- <-. left. eauto.
Qed.

Lemma set_key_fresh (h : Store.heap) d k v :
  Store.set_key (List.length h) k v (h ++ [Store.ODict d])
  = Some (Ok tt, h ++ [Store.ODict (assoc_set hkey_eqb d k v)]).
Proof.
  rewrite (set_key_ok _ _ d) by now rewrite list_lookup_middle.
  do 2 f_equal.
  rewrite <- (Nat.add_0_r (List.length h)) at 1.
  now rewrite insert_app_r.
Qed.

(** One turn of the loop of lines 46-53. *)
Lemma accumulate_turn fp f rest acc (h : Store.heap) r h' :
  Store.accumulate ((fp, f) :: rest) acc h = Some (r, h') ->
  exists b e0,
    Store.load_first_benchmark f h = Some (Ok b, h ++ e0) /\
    ((b = Store.PNone /\
      Store.accumulate rest acc (h ++ e0) = Some (r, h')) \/
     (exists e, r = Raise e /\ h' = h ++ e0) \/
     (exists d,
         Store.accumulate rest (acc ++ [List.length (h ++ e0)])
           ((h ++ e0) ++ [Store.ODict d]) = Some (r, h'))).
Proof.
  intros H. cbn [Store.accumulate] in H.
  destruct (load_first_benchmark_extends f h) as (b & e0 & Hl & _).
  exists b, e0. split; [exact Hl|].
  rewrite (mbind_ok _ _ _ _ _ Hl) in H.
  assert (G : Store.mbind (Store.py_dict b)
                (fun b' =>
                   Store.mbind
                     (Store.set_key b' (KStr "__source_file")
                        (Store.PStr (basename fp)))
                     (fun _ => Store.accumulate rest (acc ++ [b'])))
                (h ++ e0) = Some (r, h') ->
              (exists e, r = Raise e /\ h' = h ++ e0) \/
              (exists d,
                  Store.accumulate rest (acc ++ [List.length (h ++ e0)])
                    ((h ++ e0) ++ [Store.ODict d]) = Some (r, h'))).
  { clear H. intros H. unfold Store.mbind at 1 in H.
    destruct (Store.py_dict b (h ++ e0)) as [[rb h1]|] eqn:Ed; [|discriminate].
    apply py_dict_shape in Ed as [(d & -> & ->)|(e & -> & ->)].
    - right. unfold Store.mbind in H. rewrite set_key_fresh in H. eauto.
    - left. injection H as <- <-. eauto. }
  destruct b; auto.
Qed.

Lemma accumulate_extends files : forall acc (h : Store.heap) r h',
  Store.accumulate files acc h = Some (r, h') -> exists ext, h' = h ++ ext.
Proof.
  induction files as [|[fp f] rest IH]; intros acc h r h' H.
  - injection H as <- <-. exists []. now rewrite app_nil_r.
  - apply accumulate_turn in H
      as (b & e0 & _ & [[_ H]|[(e & _ & ->)|(d & H)]]).
    + apply IH in H as [ext ->]. exists (e0 ++ ext). now rewrite app_assoc.
    + now exists e0.
    + apply IH in H as [ext ->].
      exists (e0 ++ [Store.ODict d] ++ ext). now rewrite !app_assoc.
Qed.

(** X17.  The loop of lines 46-53 never writes to a parsed document: at
    any turn, the heap as it is once the turn's file is read is still
    there, object by object, when the loop ends.  Line 52 writes its tag
    into the copy that line 51 made, and into nothing else. *)
Theorem accumulation_leaves_documents fp f rest acc (h : Store.heap) r h' :
  Store.accumulate ((fp, f) :: rest) acc h = Some (r, h') ->
  exists b e0 ext,
    Store.load_first_benchmark f h = Some (Ok b, h ++ e0) /\
    h' = (h ++ e0) ++ ext /\
    forall l o, (h ++ e0) !! l = Some o -> h' !! l = Some o.
Proof.
  intros H.
  apply accumulate_turn in H
    as (b & e0 & Hl & [[_ H]|[(e & _ & ->)|(d & H)]]).
  - apply accumulate_extends in H as [ext ->]. exists b, e0, ext.
    split; [exact Hl|]. split; [reflexivity|].
    intros l o. apply lookup_app_l_Some.
  - exists b, e0, []. rewrite app_nil_r. now repeat split.
  - apply accumulate_extends in H as [ext ->].
    exists b, e0, ([Store.ODict d] ++ ext). rewrite <- app_assoc.
    split; [exact Hl|]. split; [reflexivity|].
    intros l o. apply lookup_app_l_Some.
Qed.

(** The one file of [one_run]: its document is still as it was read. *)
Lemma accumulation_leaves_documents_witness :
  exists b e0 ext h',
    Store.accumulate one_run [] [] = Some (Ok [b], h') /\
    Store.load_first_benchmark (Some (VDict [("type_", VStr "x");
                 ("args",
                  VDict [("profile",
                          VDict [("measured_rates", VList [VInt 1])])])]))
      [] = Some (Ok (Store.PRef 3%nat), [] ++ e0) /\
    h' = ([] ++ e0) ++ ext.
Proof.
  destruct (Store.accumulate one_run [] []) as [[r h']|] eqn:E;
    [|vm_compute in E; discriminate].
  destruct (accumulation_leaves_documents _ _ _ _ _ _ _ E)
    as (b & e0 & ext & Hl & Hh & _).
  vm_compute in E. injection E as <- <-.
  vm_compute in Hl. injection Hl as <- <-.
  eexists 4%nat, _, ext, _. split; [reflexivity|]. split; [reflexivity|].
  exact Hh.
Defined.

Lemma setdefault_absent (h : Store.heap) l d k :
  h !! l = Some (Store.ODict d) ->
  assoc_get hkey_eqb d k = None ->
  Store.setdefault_empty l k h
  = Some (Ok (Store.PRef (List.length h)),
          <[l := Store.ODict
                   (assoc_set hkey_eqb d k (Store.PRef (List.length h)))]>
            (h ++ [Store.ODict []])).
Proof.
  intros H Hk. unfold Store.setdefault_empty.
  rewrite (mbind_ok _ _ _ _ _ (load_ok _ _ _ H)).
  unfold Store.mbind at 1, Store.alloc. rewrite Hk.
  assert (H' : (h ++ [Store.ODict []]) !! l = Some (Store.ODict d))
    by now apply lookup_app_l_Some.
  now rewrite (mbind_ok _ _ _ _ _ (set_key_ok _ _ _ _ _ H')).
Qed.

(** X18.  Lines 133-136 on the heap.  The output record is a new object
    and its profile is a new copy of the combined profile.  When the
    record has an [args] dict, the output record points to that very
    dict, which is updated in place and is the only older object to
    change; when the record has no [args], the new [args] dict belongs to
    the output record alone and no older object changes. *)
Theorem attach_shares_args_it_finds (h : Store.heap) b d p dp :
  h !! b = Some (Store.ODict d) ->
  h !! p = Some (Store.ODict dp) ->
  let n := List.length h in
  (forall a da,
      assoc_get hkey_eqb d (KStr "args") = Some (Store.PRef a) ->
      h !! a = Some (Store.ODict da) ->
      exists h',
        Store.attach p b h = Some (Ok n, h') /\
        object_field h' n "args" = Some (Store.PRef a) /\
        object_field h' a "profile" = Some (Store.PRef (n + 2)%nat) /\
        h' !! (n + 2)%nat = Some (Store.ODict dp) /\
        forall l, (l < n)%nat -> l <> a -> h' !! l = h !! l) /\
  (assoc_get hkey_eqb d (KStr "args") = None ->
   exists h',
     Store.attach p b h = Some (Ok n, h') /\
     object_field h' n "args" = Some (Store.PRef (n + 1)%nat) /\
     object_field h' (n + 1)%nat "profile" = Some (Store.PRef (n + 2)%nat) /\
     h' !! (n + 2)%nat = Some (Store.ODict dp) /\
     forall l, (l < n)%nat -> h' !! l = h !! l).
Proof.
  intros Hb Hp n. split.
  - intros a da Hargs Ha.
    destruct (attach_aliases h b d a da p dp Hb Hargs Ha Hp)
      as (h' & Hat & Hn & Haa & Hpp & Hold).
    exists h'. split; [exact Hat|]. unfold object_field. fold n in Hn.
    rewrite Hn, Haa. split; [exact Hargs|]. split; [|now split].
    apply assoc_get_set_same. reflexivity.
  - intros Hargs.
    set (h1 := h ++ [Store.ODict d]).
    set (d' := assoc_set hkey_eqb d (KStr "args") (Store.PRef (n + 1)%nat)).
    set (h2 := h ++ [Store.ODict d'; Store.ODict []]).
    set (h3 := h2 ++ [Store.ODict dp]).
    assert (L1 : List.length h1 = (n + 1)%nat)
      by (unfold h1; rewrite length_app; cbn; lia).
    assert (L2 : List.length h2 = (n + 2)%nat)
      by (unfold h2; rewrite length_app; cbn; lia).
    assert (Hn1 : h1 !! n = Some (Store.ODict d))
      by (unfold h1, n; now rewrite list_lookup_middle).
    assert (E2 : <[n := Store.ODict d']> (h1 ++ [Store.ODict []]) = h2).
    { unfold h1, h2. rewrite <- app_assoc. cbn [app].
      rewrite <- (Nat.add_0_r n) at 1. unfold n. now rewrite insert_app_r. }
    assert (Hp2 : h2 !! p = Some (Store.ODict dp))
      by (unfold h2; now apply lookup_app_l_Some).
    assert (He3 : h3 !! (n + 1)%nat = Some (Store.ODict [])).
    { unfold h3, h2. rewrite <- app_assoc. unfold n.
      rewrite lookup_app_r by lia.
      now replace (List.length h + 1 - List.length h)%nat with 1%nat by lia. }
    exists (<[(n + 1)%nat :=
                Store.ODict [(KStr "profile", Store.PRef (n + 2)%nat)]]> h3).
    split; [|split; [|split; [|split]]].
    + unfold Store.attach.
      rewrite (mbind_ok _ _ _ _ _ (py_dict_copy _ _ _ Hb)). fold n h1.
      rewrite (mbind_ok _ _ _ _ _ (setdefault_absent _ _ _ _ Hn1 Hargs)).
      rewrite L1. fold d'. rewrite E2.
      rewrite (mbind_ok _ _ _ _ _ (py_dict_copy _ _ _ Hp2)). fold h3.
      rewrite L2. unfold Store.set_item.
      now rewrite (mbind_ok _ _ _ _ _ (set_key_ok _ _ _ _ _ He3)).
    + unfold object_field. rewrite list_lookup_insert_ne by lia.
      unfold h3, h2. rewrite <- app_assoc. cbn [app]. unfold n.
      rewrite list_lookup_middle by reflexivity.
      unfold d'. apply assoc_get_set_same. reflexivity.
    + unfold object_field. rewrite list_lookup_insert_eq; [reflexivity|].
      unfold h3. rewrite length_app, L2. cbn. lia.
    + rewrite list_lookup_insert_ne by lia.
      unfold h3. rewrite <- L2. now rewrite list_lookup_middle.
    + intros l Hl. rewrite list_lookup_insert_ne by lia.
      unfold h3, h2. rewrite <- app_assoc. now apply lookup_app_l.
Qed.

(** A record with no [args]: the two dicts of [bare_heap] are as they
    were. *)
Lemma attach_shares_args_it_finds_witness :
  exists h',
    Store.attach 1%nat 0%nat bare_heap = Some (Ok 2%nat, h') /\
    object_field h' 2%nat "args" = Some (Store.PRef 3%nat) /\
    object_field h' 3%nat "profile" = Some (Store.PRef 4%nat) /\
    h' !! 4%nat
    = Some (Store.ODict [(KStr "type_", Store.PStr "concurrent")]) /\
    forall l, (l < 2)%nat -> h' !! l = bare_heap !! l.
Proof.
  destruct (attach_shares_args_it_finds bare_heap 0%nat
              [(KStr "type_", Store.PStr "x")] 1%nat
              [(KStr "type_", Store.PStr "concurrent")] eq_refl eq_refl)
    as [_ H].
  exact (H eq_refl).
Defined.

(** ** What the run prints *)

Lemma skipped_app l1 l2 : skipped (l1 ++ l2) = skipped l1 ++ skipped l2.
Proof. apply flat_map_app. Qed.

Lemma warned_app l1 l2 : warned (l1 ++ l2) = warned l1 ++ warned l2.
Proof. apply flat_map_app. Qed.

Lemma accumulate_printing_spec files : forall acc log,
  snd (accumulate_printing files acc log) = accumulate files acc /\
  forall bs,
    accumulate files acc = Ok bs ->
    skipped (fst (accumulate_printing files acc log))
    = skipped log
      ++ map fst (List.filter (fun pf => negb (yields (snd pf))) files) /\
    warned (fst (accumulate_printing files acc log))
    = warned log
      ++ map fst (List.filter (fun pf => unreadable (snd pf)) files).
Proof.
  induction files as [|[fp f] rest IH]; intros acc log.
  - split; [reflexivity|]. intros bs _. cbn. now rewrite !app_nil_r.
  - cbn [accumulate_printing accumulate List.filter snd]. unfold yields at 1.
    assert (Hy : load_first_benchmark f <> VNone -> unreadable f = false)
      by (destruct f; [reflexivity | intros H; now destruct H]).
    assert (Hw : warned (load_notices fp f)
                 = if unreadable f then [fp] else [])
      by (destruct f; reflexivity).
    assert (Hs : skipped (load_notices fp f) = [])
      by (destruct f; reflexivity).
    destruct (load_first_benchmark f) eqn:E;
      try (rewrite Hy by discriminate;
           destruct (py_dict _) as [b'|e] eqn:Ed; cbn [bind negb];
           [destruct (IH (acc ++ [rec_set b' (KStr "__source_file")
                                    (VStr (basename fp))])
                         (log ++ load_notices fp f)) as [IH1 IH2];
            split; [exact IH1|]; intros bs Hbs;
            destruct (IH2 bs Hbs) as [H1 H2];
            rewrite H1, H2, skipped_app, warned_app, Hs, Hw, Hy
              by discriminate;
            now rewrite !app_nil_r
           |split; [reflexivity | discriminate]]).
    destruct (IH acc ((log ++ load_notices fp f) ++ [Skipped fp]))
      as [IH1 IH2].
    split; [exact IH1|]. intros bs Hbs. destruct (IH2 bs Hbs) as [H1 H2].
    rewrite H1, H2, !skipped_app, !warned_app, Hs, Hw. cbn [negb map fst].
    rewrite !app_nil_r, <- !app_assoc. split; [reflexivity|].
    destruct (unreadable f); reflexivity.
Qed.

Lemma filter_partition_length {A} (f : A -> bool) l :
  List.length l
  = (List.length (List.filter f l)
     + List.length (List.filter (fun x => negb (f x)) l))%nat.
Proof.
  induction l as [|x l IH]; [reflexivity|]. cbn [List.filter List.length].
  destruct (f x); cbn [negb List.length]; lia.
Qed.

(** X19.  Every file is accounted for.  Printing changes nothing of what
    is accumulated, and when the merge returns: the files named by the
    notices of line 49 are, in ascending order of path, exactly the files
    that yield no record; each file gives either an output record or such
    a notice, so the two counts add up to the number of files; and the
    files warned about at line 31 are the unreadable ones, each of which
    is among those skipped. *)
Theorem every_file_is_accounted_for float_repr input_dir found doc :
  merge_benchmark_files float_repr input_dir found = Ok doc ->
  let files := sort_by_key found in
  let log := fst (accumulate_printing files [] []) in
  snd (accumulate_printing files [] []) = accumulate files [] /\
  skipped log
  = map fst (List.filter (fun pf => negb (yields (snd pf))) files) /\
  List.length found
  = (List.length (benchmarks doc) + List.length (skipped log))%nat /\
  warned log = map fst (List.filter (fun pf => unreadable (snd pf)) files) /\
  incl (warned log) (skipped log).
Proof.
  intros H. cbv zeta.
  pose proof (merge_ok_inv _ _ _ _ H) as (bs & sw & out & Ha & _ & _ & Ho & Hd).
  destruct (accumulate_printing_spec (sort_by_key found) [] []) as [H1 H2].
  destruct (H2 bs Ha) as [Hs Hw]. cbn [skipped warned flat_map app] in Hs, Hw.
  split; [exact H1|]. split; [exact Hs|]. split; [|split; [exact Hw|]].
  - rewrite Hs, List.length_map, Hd, List.length_map.
    apply attach_all_spec in Ho as [Hl _]. apply accumulate_length in Ha.
    cbn [List.length Nat.add] in Ha. unfold yielding in Ha.
    rewrite <- (Permutation_length (sort_by_key_perm found)).
    rewrite (filter_partition_length (fun pf => yields (snd pf))
               (sort_by_key found)).
    f_equal. etransitivity; [symmetry; exact Ha|]. now symmetry.
  - rewrite Hs, Hw. intros p Hp.
    apply in_map_iff in Hp as (pf & <- & Hpf).
    apply List.filter_In in Hpf as [Hin Hu].
    apply in_map. apply List.filter_In. split; [exact Hin|].
    destruct (snd pf); [discriminate | reflexivity].
Qed.

(** Scenario A next to an unreadable file and an empty list: four files,
    two of them skipped, one of these warned about. *)
Lemma every_file_is_accounted_for_witness :
  exists doc,
    merge_benchmark_files no_float_repr "runs"
      (("runs/c.json", None) :: ("runs/d.json", Some (VList [])) :: scenario_a)
    = Ok doc /\
    4%nat = (List.length (benchmarks doc) + 2)%nat /\
    fst (accumulate_printing
           (sort_by_key
              (("runs/c.json", None) :: ("runs/d.json", Some (VList []))
                 :: scenario_a)) [] [])
    = [Warned "runs/c.json"; Skipped "runs/c.json"; Skipped "runs/d.json"].
Proof.
  destruct (merge_benchmark_files _ _ _) as [doc|e] eqn:E;
    [|vm_compute in E; discriminate].
  exists doc. split; [reflexivity|].
  destruct (every_file_is_accounted_for _ _ _ _ E) as (_ & _ & Hn & _).
  split; [exact Hn | reflexivity].
Defined.

(** ** Streams that cannot be ordered *)

Lemma sorted_insert_same_kind (P : value -> bool) x rp :
  (forall a b, P a = true -> P b = true -> exists c, py_lt a b = Ok c) ->
  P x = true -> Forall (fun y => P y = true) rp ->
  exists rp',
    sorted_insert (fun v => v) x rp = Ok rp' /\
    rp' <> [] /\ Forall (fun y => P y = true) rp'.
Proof.
  intros Hlt Hx. induction 1 as [|e r He Hr IH]; cbn [sorted_insert].
  - exists [x]. repeat split; [discriminate | now constructor].
  - destruct (Hlt x e Hx He) as [c ->]. cbn [bind]. destruct c.
    + destruct IH as (r' & -> & _ & Hr'). cbn [bind].
      exists (e :: r'). repeat split; [discriminate | now constructor].
    + exists (x :: e :: r). repeat split; [discriminate|].
      constructor; [exact Hx | now constructor].
Qed.

Lemma py_lt_numbers a b :
  is_number a = true -> is_number b = true -> exists c, py_lt a b = Ok c.
Proof.
  unfold is_number. destruct a, b; cbn; try discriminate; eauto.
Qed.

Lemma py_lt_texts a b :
  is_text a = true -> is_text b = true -> exists c, py_lt a b = Ok c.
Proof. destruct a, b; cbn; try discriminate; eauto. Qed.

Lemma py_lt_across a b :
  (is_number a = true /\ is_text b = true) \/
  (is_text a = true /\ is_number b = true) ->
  py_lt a b = Raise TypeError.
Proof.
  unfold is_number. destruct a, b; cbn; intros [[? ?]|[? ?]];
    try discriminate; reflexivity.
Qed.

Lemma sorted_loop_across (P Q : value -> bool) seq : forall rp,
  (forall a b, P a = true -> P b = true -> exists c, py_lt a b = Ok c) ->
  (forall a b, P a = true -> Q b = true -> py_lt b a = Raise TypeError) ->
  (forall a, Q a = true -> P a = false) ->
  rp <> [] -> Forall (fun y => P y = true) rp ->
  Forall (fun y => P y || Q y = true) seq ->
  Exists (fun y => Q y = true) seq ->
  sorted_loop (fun v => v) seq rp = Raise TypeError.
Proof.
  induction seq as [|x rest IH]; intros rp Hlt Hx HQ Hne Hrp Hseq Hex;
    [inversion Hex|].
  cbn [sorted_loop]. inversion Hseq as [|? ? Hkind Hrest]; subst.
  destruct (P x) eqn:Px.
  - destruct (sorted_insert_same_kind P x rp Hlt Px Hrp)
      as (rp' & -> & Hne' & Hrp').
    cbn [bind]. apply IH; try assumption.
    inversion Hex as [? ? Qx|]; subst; [|assumption].
    apply HQ in Qx. congruence.
  - cbn [orb] in Hkind. destruct rp as [|e r]; [congruence|].
    inversion Hrp as [|? ? Pe _]; subst. cbn [sorted_insert].
    now rewrite (Hx e x Pe Hkind).
Qed.

(** X20.  Numbers and texts cannot be ordered together.  When the
    deduplicated streams are numbers and texts, with at least one of
    each, [sorted] raises [TypeError] and the [streams] entry of the
    combined profile is the deduplicated list itself, in first-seen
    order. *)
Theorem mixed_streams_stay_as_seen float_repr n sw :
  let u := uniq float_repr (streams sw) in
  Forall (fun x => is_number x || is_text x = true) u ->
  Exists (fun x => is_number x = true) u ->
  Exists (fun x => is_text x = true) u ->
  sorted u = Raise TypeError /\
  dict_get (combined_profile float_repr n sw) "streams" = Some (VList u).
Proof.
  cbv zeta. intros Hk Hn Ht.
  assert (Hs : sorted (uniq float_repr (streams sw)) = Raise TypeError).
  { unfold sorted, sorted_by.
    destruct (uniq float_repr (streams sw)) as [|x u]; [inversion Hn|].
    cbn [sorted_loop sorted_insert bind].
    inversion Hk as [|? ? Hx Hu]; subst.
    assert (Hexcl : forall a, is_text a = true -> is_number a = false)
      by (intros a; destruct a; try discriminate; reflexivity).
    destruct (is_number x) eqn:Nx.
    - rewrite (sorted_loop_across is_number is_text u [x]);
        try reflexivity; try assumption.
      + apply py_lt_numbers.
      + intros a b Ha Hb. apply py_lt_across. auto.
      + discriminate.
      + now constructor.
      + inversion Ht as [? ? Tx|]; subst; [|assumption].
        apply Hexcl in Tx. congruence.
    - cbn [orb] in Hx.
      rewrite (sorted_loop_across is_text is_number u [x]);
        try reflexivity; try assumption.
      + apply py_lt_texts.
      + intros a b Ha Hb. apply py_lt_across. auto.
      + intros a Ha. destruct (is_text a) eqn:Ta; [|reflexivity].
        apply Hexcl in Ta. congruence.
      + discriminate.
      + now constructor.
      + eapply List.Forall_impl; [|exact Hu]. intros a Ha.
        now rewrite Bool.orb_comm.
      + inversion Hn as [? ? Nx'|]; subst; [congruence | assumption]. }
  split; [exact Hs|].
  rewrite combined_profile_streams.
  destruct (uniq float_repr (streams sw)) as [|x u] eqn:Eu; [inversion Hn|].
  unfold sorted_or_same. now rewrite Hs.
Qed.

(** Streams 2, the text [a], then 1: kept as 2, [a], 1. *)
Lemma mixed_streams_stay_as_seen_witness :
  sorted [VInt 2; VStr "a"; VInt 1] = Raise TypeError /\
  dict_get
    (combined_profile no_float_repr 1
       (Sweep [] [] [VInt 2; VStr "a"; VInt 1; VInt 2] []))
    "streams"
  = Some (VList [VInt 2; VStr "a"; VInt 1]).
Proof.
  apply (mixed_streams_stay_as_seen no_float_repr 1
           (Sweep [] [] [VInt 2; VStr "a"; VInt 1; VInt 2] [])).
  - repeat constructor.
  - repeat constructor.
  - apply Exists_cons_tl. repeat constructor.
Defined.

(** ** Files that yield nothing *)

Lemma insert_by_key_filtered (f : string * file -> bool) kv l :
  StronglySorted path_not_above l ->
  List.filter f (insert_by_key kv l)
  = if f kv then insert_by_key kv (List.filter f l) else List.filter f l.
Proof.
  induction 1 as [|x r Hs IH Hx]; cbn [insert_by_key List.filter].
  - destruct (f kv); reflexivity.
  - destruct (String.ltb (fst x) (fst kv)) eqn:E; cbn [List.filter].
    + rewrite IH. destruct (f x), (f kv); cbn [insert_by_key];
        rewrite ?E; reflexivity.
    + destruct (f kv) eqn:Fk; [|reflexivity].
      destruct (f x); cbn [insert_by_key]; rewrite ?E; [reflexivity|].
      assert (Hr : Forall (fun y => String.ltb (fst y) (fst kv) = false)
                     (List.filter f r)).
      { rewrite List.Forall_forall in *. intros y Hy.
        apply List.filter_In in Hy as [Hy _].
        exact (path_not_above_trans kv x y E (Hx y Hy)). }
      destruct (List.filter f r) as [|y r']; [reflexivity|].
      cbn [insert_by_key]. inversion Hr as [|? ? Hy _]; subst.
      now rewrite Hy.
Qed.

Lemma sort_by_key_filtered (f : string * file -> bool) l :
  List.filter f (sort_by_key l) = sort_by_key (List.filter f l).
Proof.
  induction l as [|x l IH]; [reflexivity|].
  cbn [sort_by_key fold_right List.filter].
  rewrite insert_by_key_filtered by apply sort_by_key_sorted.
  fold (sort_by_key l). rewrite IH. now destruct (f x).
Qed.

Lemma accumulate_skips files : forall acc,
  accumulate files acc = accumulate (yielding files) acc.
Proof.
  induction files as [|[fp f] rest IH]; intros acc; [reflexivity|].
  unfold yielding in *. cbn [List.filter snd accumulate]. unfold yields at 1.
  destruct (load_first_benchmark f) eqn:E; cbn [accumulate]; rewrite ?E;
    try (destruct (py_dict _); cbn [bind]; [apply IH | reflexivity]).
  apply IH.
Qed.

(** X21.  The files that yield no record (unreadable, not JSON, of a
    shape the extractor turns down) have no influence on the outcome: the
    merge of a directory is the merge of its yielding files alone,
    whether it returns a document or raises. *)
Theorem merge_sees_yielding_files_only float_repr input_dir found :
  merge_benchmark_files float_repr input_dir found
  = merge_benchmark_files float_repr input_dir (yielding found).
Proof.
  unfold merge_benchmark_files.
  rewrite (accumulate_skips (sort_by_key found)).
  rewrite (accumulate_skips (sort_by_key (yielding found))).
  unfold yielding. rewrite !sort_by_key_filtered.
  assert (H : forall l : list (string * file),
             List.filter (fun pf => yields (snd pf))
               (List.filter (fun pf => yields (snd pf)) l)
             = List.filter (fun pf => yields (snd pf)) l).
  { induction l as [|x l IH]; [reflexivity|]. cbn [List.filter].
    destruct (yields (snd x)) eqn:E; [|exact IH].
    cbn [List.filter]. now rewrite E, IH. }
  now rewrite H.
Qed.

(** ** What the aggregation writes *)

Section keeping.
Variable h0 : Store.heap.

Lemma keeps_bind {A B} (m : Store.M A) (k : A -> Store.M B) Q R :
  keeps h0 m Q -> (forall a, Q a -> keeps h0 (k a) R) ->
  keeps h0 (Store.mbind m k) R.
Proof.
  intros Hm Hk h r h' Hpre H. unfold Store.mbind in H.
  destruct (m h) as [[[a|e] h1]|] eqn:E; [| |discriminate].
  - destruct (Hm _ _ _ Hpre E) as [Hp1 HQ]. eapply Hk; eauto.
  - injection H as <- <-. destruct (Hm _ _ _ Hpre E) as [Hp1 _].
    split; [exact Hp1 | discriminate].
Qed.

Lemma keeps_weaken {A} (m : Store.M A) (Q Q' : A -> Prop) :
  keeps h0 m Q -> (forall a, Q a -> Q' a) -> keeps h0 m Q'.
Proof.
  intros Hm HQ h r h' Hpre H. destruct (Hm _ _ _ Hpre H) as [Hp Ha].
  split; [exact Hp | auto].
Qed.

Lemma keeps_ret {A} (a : A) (Q : A -> Prop) : Q a -> keeps h0 (Store.ret a) Q.
Proof.
  intros HQ h r h' Hpre H. injection H as <- <-.
  split; [exact Hpre | now intros ? [= <-]].
Qed.

Lemma keeps_raise {A} e (Q : A -> Prop) : keeps h0 (Store.raise e) Q.
Proof.
  intros h r h' Hpre H. injection H as <- <-.
  split; [exact Hpre | discriminate].
Qed.

Lemma keeps_stuck {A} (Q : A -> Prop) : keeps h0 Store.stuck Q.
Proof. intros h r h' _ H. discriminate. Qed.

(** A step that only reads. *)
Lemma keeps_reading {A} (m : Store.M A) :
  (forall h r h', m h = Some (r, h') -> h' = h) -> keeps h0 m whatever.
Proof.
  intros Hm h r h' Hpre H. apply Hm in H as ->.
  split; [exact Hpre | now intros].
Qed.

Lemma keeps_alloc o : keeps h0 (Store.alloc o) (beyond h0).
Proof.
  intros h r h' [ext ->] H. unfold Store.alloc in H. injection H as <- <-.
  split.
  - exists (ext ++ [o]). now rewrite app_assoc.
  - intros a [= <-]. unfold beyond. rewrite length_app. lia.
Qed.

Lemma keeps_load l : keeps h0 (Store.load l) whatever.
Proof.
  apply keeps_reading. unfold Store.load. intros h r h' H.
  destruct (h !! l); congruence.
Qed.

Lemma keeps_store l o : beyond h0 l -> keeps h0 (Store.store l o) whatever.
Proof.
  intros Hl h r h' [ext ->] H. unfold Store.store in H.
  destruct ((h0 ++ ext) !! l); [|discriminate]. injection H as <- <-.
  split; [|now intros]. rewrite insert_app_r_alt by exact Hl. now eexists.
Qed.

Lemma keeps_list_items l : keeps h0 (Store.list_items l) whatever.
Proof.
  unfold Store.list_items. eapply keeps_bind; [apply keeps_load|].
  intros [items|d] _; [now apply keeps_ret | apply keeps_stuck].
Qed.

Lemma keeps_extend running items :
  beyond h0 running -> keeps h0 (Store.extend running items) whatever.
Proof.
  intros Hr. unfold Store.extend.
  eapply keeps_bind; [apply keeps_list_items|].
  intros cur _. now apply keeps_store.
Qed.

Lemma keeps_set_key l k v :
  beyond h0 l -> keeps h0 (Store.set_key l k v) whatever.
Proof.
  intros Hl. unfold Store.set_key. eapply keeps_bind; [apply keeps_load|].
  intros [items|d] _; [apply keeps_raise | now apply keeps_store].
Qed.

Lemma keeps_absorb running x :
  beyond h0 running -> keeps h0 (Store.absorb running x) whatever.
Proof.
  intros Hr. unfold Store.absorb.
  destruct x; try (now apply keeps_extend); [now apply keeps_ret|].
  eapply keeps_bind; [apply keeps_load|].
  intros [items|d] _; now apply keeps_extend.
Qed.

Lemma keeps_get_or_empty x k : keeps h0 (Store.get_or_empty x k) whatever.
Proof.
  unfold Store.get_or_empty. destruct x; try apply keeps_raise.
  eapply keeps_bind; [apply keeps_load|].
  intros [items|d] _; [apply keeps_raise|].
  eapply keeps_bind; [apply keeps_alloc|]. intros e _. now apply keeps_ret.
Qed.

Lemma keeps_get_or_none x k : keeps h0 (Store.get_or_none x k) whatever.
Proof.
  unfold Store.get_or_none. destruct x; try apply keeps_raise.
  eapply keeps_bind; [apply keeps_load|].
  intros [items|d] _; [apply keeps_raise | now apply keeps_ret].
Qed.

Lemma keeps_collect_one sw b :
  sweep_beyond h0 sw -> keeps h0 (Store.collect_one sw b) whatever.
Proof.
  intros (Hr & Hc & Hs & Ht). unfold Store.collect_one.
  eapply keeps_bind; [apply keeps_get_or_empty|]. intros b_args _.
  eapply keeps_bind; [apply keeps_get_or_empty|]. intros b_profile _.
  eapply keeps_bind; [apply keeps_get_or_none|]. intros mr _.
  eapply keeps_bind; [now apply keeps_absorb|]. intros _ _.
  eapply keeps_bind; [apply keeps_get_or_none|]. intros mc _.
  eapply keeps_bind; [now apply keeps_absorb|]. intros _ _.
  eapply keeps_bind; [apply keeps_get_or_none|]. intros s _.
  eapply keeps_bind.
  { instantiate (1 := whatever).
    destruct s; try (now apply keeps_ret).
    eapply keeps_bind; [apply keeps_get_or_empty|]. intros strategy _.
    apply keeps_get_or_none. }
  intros s' _.
  eapply keeps_bind; [now apply keeps_absorb|]. intros _ _.
  eapply keeps_bind; [apply keeps_get_or_none|]. intros st _.
  now apply keeps_absorb.
Qed.

Lemma keeps_collect_from records sw :
  sweep_beyond h0 sw -> keeps h0 (Store.collect_from records sw) whatever.
Proof.
  intros Hsw. induction records as [|b rest IH]; cbn [Store.collect_from].
  - now apply keeps_ret.
  - eapply keeps_bind; [now apply keeps_collect_one|]. intros _ _. exact IH.
Qed.

Lemma keeps_collect records :
  keeps h0 (Store.collect records) (sweep_beyond h0).
Proof.
  unfold Store.collect.
  eapply keeps_bind; [apply keeps_alloc|]. intros mr Hmr.
  eapply keeps_bind; [apply keeps_alloc|]. intros mc Hmc.
  eapply keeps_bind; [apply keeps_alloc|]. intros s Hs.
  eapply keeps_bind; [apply keeps_alloc|]. intros st Hst.
  assert (Hsw : sweep_beyond h0 (Store.Sweep mr mc s st)) by now repeat split.
  eapply keeps_bind; [now apply keeps_collect_from|]. intros _ _.
  now apply keeps_ret.
Qed.

Variable float_repr : spec_float -> string.

Lemma keeps_uniq_key x : keeps h0 (Store.uniq_key float_repr x) whatever.
Proof.
  apply keeps_reading. intros h r h' H. unfold Store.uniq_key in H.
  destruct x; try (injection H as <- <-; reflexivity);
    destruct (Store.read h _); congruence.
Qed.

Lemma keeps_uniq_loop items : forall seen out,
  beyond h0 out ->
  keeps h0 (Store.uniq_loop float_repr items seen out) whatever.
Proof.
  induction items as [|x rest IH]; intros seen out Ho;
    cbn [Store.uniq_loop]; [now apply keeps_ret|].
  eapply keeps_bind; [apply keeps_uniq_key|]. intros key _.
  destruct (seen_has seen key); [now apply IH|].
  eapply keeps_bind; [now apply keeps_extend|]. intros _ _. now apply IH.
Qed.

Lemma keeps_uniq seq : keeps h0 (Store.uniq float_repr seq) (beyond h0).
Proof.
  unfold Store.uniq. eapply keeps_bind; [apply keeps_list_items|].
  intros items _. eapply keeps_bind; [apply keeps_alloc|]. intros out Ho.
  eapply keeps_bind; [now apply keeps_uniq_loop|]. intros _ _.
  now apply keeps_ret.
Qed.

Lemma keeps_viewed l : keeps h0 (Store.viewed l) whatever.
Proof.
  unfold Store.viewed. eapply keeps_bind; [apply keeps_list_items|].
  intros items _. apply keeps_reading. intros h r h' H.
  destruct (mapM _ items); congruence.
Qed.

Lemma keeps_sorted_or_same l :
  beyond h0 l -> keeps h0 (Store.sorted_or_same l) (beyond h0).
Proof.
  intros Hl. unfold Store.sorted_or_same.
  eapply keeps_bind; [apply keeps_viewed|]. intros vs _.
  destruct (sorted_by fst vs); [apply keeps_alloc | now apply keeps_ret].
Qed.

Lemma keeps_nonempty l : keeps h0 (Store.nonempty l) whatever.
Proof.
  unfold Store.nonempty. eapply keeps_bind; [apply keeps_list_items|].
  intros items _. now apply keeps_ret.
Qed.

Lemma keeps_set_if_any p k l :
  beyond h0 p -> keeps h0 (Store.set_if_any p k l) whatever.
Proof.
  intros Hp. unfold Store.set_if_any.
  eapply keeps_bind; [apply keeps_nonempty|].
  intros [|] _; [now apply keeps_set_key | now apply keeps_ret].
Qed.

Lemma keeps_combined_profile n sw :
  keeps h0 (Store.combined_profile float_repr n sw) (beyond h0).
Proof.
  unfold Store.combined_profile.
  eapply keeps_bind; [apply keeps_uniq|]. intros mr Hmr.
  eapply keeps_bind; [apply keeps_uniq|]. intros mc Hmc.
  eapply keeps_bind; [apply keeps_uniq|]. intros s Hs.
  eapply keeps_bind; [apply keeps_uniq|]. intros st Hst.
  eapply keeps_bind; [apply keeps_alloc|]. intros p Hp.
  eapply keeps_bind; [now apply keeps_set_key|]. intros _ _.
  eapply keeps_bind; [now apply keeps_set_key|]. intros _ _.
  eapply keeps_bind; [now apply keeps_set_if_any|]. intros _ _.
  eapply keeps_bind; [now apply keeps_set_if_any|]. intros _ _.
  eapply keeps_bind; [apply keeps_nonempty|]. intros b _.
  eapply keeps_bind.
  { instantiate (1 := whatever). destruct b; [|now apply keeps_ret].
    eapply keeps_bind; [now apply keeps_sorted_or_same|]. intros s' _.
    now apply keeps_set_key. }
  intros _ _.
  eapply keeps_bind; [now apply keeps_set_if_any|]. intros _ _.
  now apply keeps_ret.
Qed.

Lemma keeps_aggregate records :
  keeps h0 (Store.aggregate float_repr records) (beyond h0).
Proof.
  unfold Store.aggregate. eapply keeps_bind; [apply keeps_collect|].
  intros sw _. apply keeps_combined_profile.
Qed.
End keeping.



(** ** The serialization tells values apart *)

Lemma chars_app a b : chars (a ++ b)%string = chars a ++ chars b.
Proof.
  unfold chars. induction a as [|c a IH]; cbn; [reflexivity|]. now rewrite IH.
Qed.

Lemma chars_inj a b : chars a = chars b -> a = b.
Proof.
  unfold chars. intros H.
  rewrite <- (string_of_list_ascii_of_string a),
    <- (string_of_list_ascii_of_string b). now rewrite H.
Qed.

Lemma forall_bool_spec f : forall_bool f = true -> forall b, f b = true.
Proof.
  unfold forall_bool. intros H b. apply Bool.andb_true_iff in H as [H1 H2].
  now destruct b.
Qed.

Lemma forall_ascii_spec P : forall_ascii P = true -> forall c, P c = true.
Proof.
  unfold forall_ascii. intros H [b0 b1 b2 b3 b4 b5 b6 b7].
  pose proof (forall_bool_spec _ H b0) as H0.
  pose proof (forall_bool_spec _ H0 b1) as H1.
  pose proof (forall_bool_spec _ H1 b2) as H2.
  pose proof (forall_bool_spec _ H2 b3) as H3.
  pose proof (forall_bool_spec _ H3 b4) as H4.
  pose proof (forall_bool_spec _ H4 b5) as H5.
  pose proof (forall_bool_spec _ H5 b6) as H6.
  exact (forall_bool_spec _ H6 b7).
Qed.

Lemma is_prefix_app a b u u' :
  a ++ u = b ++ u' -> is_prefix a b = true \/ is_prefix b a = true.
Proof.
  revert b. induction a as [|x a IH]; intros [|y b] H; cbn; auto.
  cbn in H. injection H as -> H. rewrite Ascii.eqb_refl. cbn. now apply IH.
Qed.

(** No escape begins another, and none begins with the quote. *)
Lemma escape_char_prefix_free c c' :
  is_prefix (chars (escape_char c)) (chars (escape_char c')) = true -> c = c'.
Proof.
  assert (H : forall_ascii (fun c =>
                forall_ascii (fun c' =>
                  implb (is_prefix (chars (escape_char c))
                           (chars (escape_char c')))
                        (Ascii.eqb c c'))) = true)
    by (vm_compute; reflexivity).
  pose proof (forall_ascii_spec _ (forall_ascii_spec _ H c) c') as G.
  cbv beta in G. intros Hp. rewrite Hp in G. now apply Ascii.eqb_eq.
Qed.

Lemma escape_char_head c :
  match chars (escape_char c) with
  | [] => False
  | x :: _ => x <> dquote
  end.
Proof.
  assert (H : forall_ascii (fun c =>
                match chars (escape_char c) with
                | [] => false
                | x :: _ => negb (Ascii.eqb x dquote)
                end) = true)
    by (vm_compute; reflexivity).
  pose proof (forall_ascii_spec _ H c) as G. cbv beta in G.
  destruct (chars (escape_char c)) as [|x r]; [discriminate|].
  intros ->. now rewrite Ascii.eqb_refl in G.
Qed.

Lemma escape_char_inj c c' u u' :
  chars (escape_char c) ++ u = chars (escape_char c') ++ u' ->
  c = c' /\ u = u'.
Proof.
  intros H.
  assert (Hc : c = c').
  { destruct (is_prefix_app _ _ _ _ H) as [Hp|Hp];
      apply escape_char_prefix_free in Hp; congruence. }
  subst c'. split; [reflexivity|]. now apply app_inv_head in H.
Qed.

(** A text between quotes is read back in one way only. *)
Lemma escape_inj s : forall s' r r',
  chars (escape s) ++ dquote :: r = chars (escape s') ++ dquote :: r' ->
  s = s' /\ r = r'.
Proof.
  induction s as [|c s IH]; intros [|c' s'] r r' H; cbn [escape] in H.
  - cbn in H. now injection H as ->.
  - exfalso. rewrite chars_app, <- app_assoc in H. cbn [chars app] in H.
    pose proof (escape_char_head c') as Hh.
    destruct (chars (escape_char c')) as [|x t]; [exact Hh|].
    cbn in H. injection H as Hx _. now apply Hh.
  - exfalso. rewrite chars_app, <- app_assoc in H. cbn [chars app] in H.
    pose proof (escape_char_head c) as Hh.
    destruct (chars (escape_char c)) as [|x t]; [exact Hh|].
    cbn in H. injection H as Hx _. now apply Hh.
  - rewrite !chars_app, <- !app_assoc in H.
    apply escape_char_inj in H as [-> H].
    apply IH in H as [-> ->]. now split.
Qed.

Lemma quoted_chars s :
  chars (quoted s) = dquote :: chars (escape s) ++ [dquote].
Proof.
  unfold quoted. cbn [chars list_ascii_of_string]. f_equal.
  fold (chars (escape s ++ String dquote EmptyString)).
  now rewrite chars_app.
Qed.

Lemma quoted_inj s s' r r' :
  chars (quoted s) ++ r = chars (quoted s') ++ r' -> s = s' /\ r = r'.
Proof.
  rewrite !quoted_chars. cbn [app]. rewrite <- !app_assoc. cbn [app].
  intros [= H]. now apply escape_inj in H.
Qed.

Lemma numeric_is_leaf_char c : numeric_char c = true -> leaf_char c = true.
Proof.
  assert (H : forall_ascii (fun c => implb (numeric_char c) (leaf_char c))
              = true) by (vm_compute; reflexivity).
  pose proof (forall_ascii_spec _ H c) as G. cbv beta in G.
  intros Hn. now rewrite Hn in G.
Qed.

Lemma numeric_word_is_leaf_word w :
  forallb numeric_char w = true -> forallb leaf_char w = true.
Proof.
  induction w as [|c w IH]; cbn; [reflexivity|].
  intros [Hc Hw]%Bool.andb_true_iff.
  now rewrite (numeric_is_leaf_char c Hc), IH.
Qed.

Lemma uint_numeric d :
  forallb numeric_char (chars (NilEmpty.string_of_uint d)) = true.
Proof. induction d; cbn; auto. Qed.

Lemma int_repr_numeric n : forallb numeric_char (chars (int_repr n)) = true.
Proof.
  unfold int_repr, NilZero.string_of_int, NilZero.string_of_uint.
  destruct (Z.to_int n) as [d|d]; destruct d; cbn; auto using uint_numeric;
    apply (uint_numeric d).
Qed.

Lemma int_repr_nonempty n : int_repr n <> EmptyString.
Proof.
  unfold int_repr, NilZero.string_of_int, NilZero.string_of_uint.
  destruct (Z.to_int n) as [d|d]; destruct d; discriminate.
Qed.

Lemma int_repr_inj n m : int_repr n = int_repr m -> n = m.
Proof.
  unfold int_repr. intros H. apply DecimalZ.to_int_inj.
  assert (Hnn : forall z, Z.to_int z <> Decimal.Pos Decimal.Nil /\
                          Z.to_int z <> Decimal.Neg Decimal.Nil).
  { intros [|p|p]; cbn; split; try discriminate; intros [= E];
      now apply (DecimalPos.Unsigned.to_uint_nonnil p). }
  pose proof (NilZero.isi (Z.to_int n) (proj1 (Hnn n)) (proj2 (Hnn n))) as Hn.
  pose proof (NilZero.isi (Z.to_int m) (proj1 (Hnn m)) (proj2 (Hnn m))) as Hm.
  rewrite H in Hn. congruence.
Qed.

Section serialization.
Variable float_repr : spec_float -> string.
Hypothesis sound : float_repr_sound float_repr.

Local Abbreviation dmp := (dumps float_repr).
Local Abbreviation same_text := (alike float_repr).

Lemma float_dumps_leaf_word f :
  forallb leaf_char (chars (float_dumps float_repr f)) = true /\
  float_dumps float_repr f <> EmptyString.
Proof.
  destruct (finite f) eqn:Ef.
  - destruct (sound f Ef) as (Hne & Hnum & _).
    destruct f; try discriminate Ef; cbn [float_dumps];
      (split; [now apply numeric_word_is_leaf_word | exact Hne]).
  - destruct f as [s|s| |s m e]; try discriminate Ef; cbn [float_dumps].
    + destruct s; split; (reflexivity || discriminate).
    + split; (reflexivity || discriminate).
Qed.

(** What is written without quotes or brackets is made of characters
    that end no value. *)
Lemma leaf_word x :
  is_leaf x = true ->
  forallb leaf_char (chars (dmp x)) = true /\ dmp x <> EmptyString.
Proof.
  destruct x as [|b|n|f| | |]; try discriminate; intros _; cbn [dumps].
  - split; (reflexivity || discriminate).
  - destruct b; split; (reflexivity || discriminate).
  - split; [apply numeric_word_is_leaf_word, int_repr_numeric
           |apply int_repr_nonempty].
  - apply float_dumps_leaf_word.
Qed.

Lemma float_dumps_not_int f n : float_dumps float_repr f <> int_repr n.
Proof.
  pose proof (int_repr_numeric n) as Hn.
  destruct (finite f) eqn:Ef.
  - destruct (sound f Ef) as (_ & _ & Hint).
    destruct f; try discriminate Ef; cbn [float_dumps]; apply Hint.
  - destruct f as [s|s| |s m e]; try discriminate Ef; cbn [float_dumps].
    + destruct s; intros E; rewrite <- E in Hn; discriminate.
    + intros E; rewrite <- E in Hn; discriminate.
Qed.

Lemma float_dumps_not_literal f s :
  In s ["null"; "true"; "false"] -> float_dumps float_repr f <> s.
Proof.
  intros Hs E.
  destruct (finite f) eqn:Ef.
  - destruct (sound f Ef) as (_ & Hnum & _).
    destruct f; try discriminate Ef; cbn [float_dumps] in E;
      rewrite E in Hnum; cbn in Hs;
      destruct Hs as [<-|[<-|[<-|[]]]]; discriminate.
  - destruct f as [b|b| |b m e]; try discriminate Ef;
      cbn [float_dumps] in E; cbn in Hs.
    + destruct b, Hs as [<-|[<-|[<-|[]]]]; discriminate.
    + destruct Hs as [<-|[<-|[<-|[]]]]; discriminate.
Qed.

(** Two leaves written the same way are alike. *)
Lemma leaf_inj x y :
  is_leaf x = true -> is_leaf y = true -> dmp x = dmp y -> same_text x y.
Proof.
  destruct x as [|b|n|f| | |]; try discriminate;
    destruct y as [|b'|n'|f'| | |]; try discriminate;
    intros _ _ H; cbn [dumps] in H.
  - constructor.
  - destruct b'; discriminate.
  - pose proof (int_repr_numeric n') as Hn. rewrite <- H in Hn. discriminate.
  - symmetry in H. apply float_dumps_not_literal in H; [easy | cbn; auto].
  - destruct b; discriminate.
  - destruct b, b'; try discriminate; constructor.
  - pose proof (int_repr_numeric n') as Hn. rewrite <- H in Hn.
    destruct b; discriminate.
  - symmetry in H. apply float_dumps_not_literal in H; [easy|].
    destruct b; cbn; auto.
  - pose proof (int_repr_numeric n) as Hn. rewrite H in Hn. discriminate.
  - pose proof (int_repr_numeric n) as Hn. rewrite H in Hn.
    destruct b'; discriminate.
  - apply int_repr_inj in H as ->. constructor.
  - symmetry in H. now apply float_dumps_not_int in H.
  - apply float_dumps_not_literal in H; [easy | cbn; auto].
  - apply float_dumps_not_literal in H; [easy|]. destruct b'; cbn; auto.
  - now apply float_dumps_not_int in H.
  - now constructor.
Qed.

(** A word ends where the first character that is in no word begins. *)
Lemma word_ends w : forall w' r r',
  forallb leaf_char w = true -> forallb leaf_char w' = true ->
  follows r -> follows r' ->
  w ++ r = w' ++ r' -> w = w' /\ r = r'.
Proof.
  induction w as [|c w IH]; intros [|c' w'] r r' Hw Hw' Hr Hr' H; cbn in *.
  - now split.
  - subst r. apply Bool.andb_true_iff in Hw' as [Hc _]. congruence.
  - subst r'. apply Bool.andb_true_iff in Hw as [Hc _]. congruence.
  - injection H as -> H.
    apply Bool.andb_true_iff in Hw as [_ Hw].
    apply Bool.andb_true_iff in Hw' as [_ Hw'].
    destruct (IH w' r r' Hw Hw' Hr Hr' H) as [-> ->]. now split.
Qed.

Lemma dumps_opening x :
  match opening x with
  | Some c => exists t, chars (dmp x) = c :: t
  | None => exists c t, chars (dmp x) = c :: t /\ leaf_char c = true
  end.
Proof.
  destruct x as [|b|n|f|s|l|d]; cbn [opening].
  5: { cbn [dumps]. rewrite quoted_chars. eauto. }
  5: { cbn [dumps chars]. cbn. eauto. }
  5: { cbn [dumps chars]. cbn. eauto. }
  all: match goal with
       | |- context [chars (dmp ?v)] =>
           destruct (leaf_word v eq_refl) as [Hw Hne]
       end;
    destruct (dmp _) as [|c t]; [congruence|];
    cbn in Hw; apply Bool.andb_true_iff in Hw as [Hc _];
    exists c, (chars t); now split.
Qed.

(** No value begins with a character that closes one. *)
Lemma dumps_head_opens x :
  exists c t, chars (dmp x) = c :: t /\
              c <> ascii_of_N 93 /\ c <> ascii_of_N 125 /\
              c <> ascii_of_N 44.
Proof.
  pose proof (dumps_opening x) as H.
  destruct (opening x) as [c|] eqn:E.
  - destruct H as [t Ht]. exists c, t. split; [exact Ht|].
    destruct x; try discriminate; injection E as <-;
      repeat split; discriminate.
  - destruct H as (c & t & Ht & Hc). exists c, t. split; [exact Ht|].
    repeat split; intros ->; discriminate.
Qed.

Lemma follows_joined_tail ts close :
  follows close -> follows (joined_tail ts close).
Proof. destruct ts; [auto | intros _; reflexivity]. Qed.

Lemma concat_chars t ts close :
  chars (String.concat ", " (t :: ts)) ++ close
  = chars t ++ joined_tail ts close.
Proof.
  revert t. induction ts as [|t' ts IH]; intros t; [reflexivity|].
  change (String.concat ", " (t :: t' :: ts))
    with (t ++ ", " ++ String.concat ", " (t' :: ts))%string.
  rewrite !chars_app, <- !app_assoc. cbn [joined_tail].
  now rewrite <- IH.
Qed.

Lemma opening_closes x c : opening x = Some c -> leaf_char c = false.
Proof. destruct x; try discriminate; intros [= <-]; reflexivity. Qed.

Lemma opening_agree x y r r' :
  chars (dmp x) ++ r = chars (dmp y) ++ r' -> opening x = opening y.
Proof.
  intros H. pose proof (dumps_opening x) as Hx.
  pose proof (dumps_opening y) as Hy.
  destruct (opening x) as [c|] eqn:Ex, (opening y) as [c'|] eqn:Ey.
  - destruct Hx as [t Ht], Hy as [t' Ht']. rewrite Ht, Ht' in H.
    now injection H as ->.
  - destruct Hx as [t Ht], Hy as (c' & t' & Ht' & Hc).
    rewrite Ht, Ht' in H. injection H as -> _.
    apply opening_closes in Ex. congruence.
  - destruct Hx as (c & t & Ht & Hc), Hy as [t' Ht'].
    rewrite Ht, Ht' in H. injection H as -> _.
    apply opening_closes in Ey. congruence.
  - reflexivity.
Qed.

Lemma opening_leaf x : opening x = None -> is_leaf x = true.
Proof. destruct x; try discriminate; reflexivity. Qed.

Lemma leaf_read_back x : is_leaf x = true -> read_back float_repr x.
Proof.
  intros Hx y r r' Hr Hr' H.
  assert (Hy : is_leaf y = true).
  { apply opening_leaf. rewrite <- (opening_agree x y r r' H).
    destruct x; try discriminate; reflexivity. }
  destruct (leaf_word x Hx) as [Wx _], (leaf_word y Hy) as [Wy _].
  destruct (word_ends _ _ _ _ Wx Wy Hr Hr' H) as [E ->].
  split; [|reflexivity]. apply leaf_inj; try assumption. now apply chars_inj.
Qed.

Lemma sort_by_key_map {A B} (g : A -> B) (l : list (string * A)) :
  sort_by_key (map (fun kv => (fst kv, g (snd kv))) l)
  = map (fun kv => (fst kv, g (snd kv))) (sort_by_key l).
Proof.
  induction l as [|x l IH]; [reflexivity|].
  cbn [map sort_by_key fold_right]. fold (sort_by_key l).
  fold (sort_by_key (map (fun kv => (fst kv, g (snd kv))) l)). rewrite IH.
  generalize (sort_by_key l). intros s.
  induction s as [|y s IHs]; [reflexivity|].
  cbn [map insert_by_key fst snd].
  destruct (String.ltb (fst y) (fst x)); cbn [map]; [|reflexivity].
  now rewrite IHs.
Qed.

Lemma list_text l r :
  chars (dmp (VList l)) ++ r
  = chars "["
      ++ match l with
         | [] => chars "]" ++ r
         | x :: l' =>
             chars (dmp x) ++ joined_tail (map dmp l') (chars "]" ++ r)
         end.
Proof.
  cbn [dumps]. rewrite !chars_app, <- !app_assoc.
  f_equal. destruct l as [|x l']; [reflexivity|].
  cbn [map]. apply concat_chars.
Qed.

Lemma dict_text d r :
  chars (dmp (VDict d)) ++ r
  = chars "{"
      ++ match sort_by_key d with
         | [] => chars "}" ++ r
         | kv :: l' =>
             chars (entry_text float_repr kv)
             ++ joined_tail (map (entry_text float_repr) l')
                  (chars "}" ++ r)
         end.
Proof.
  cbn [dumps]. rewrite !chars_app, <- !app_assoc.
  f_equal. rewrite (sort_by_key_map dmp d), map_map.
  destruct (sort_by_key d) as [|kv l']; [reflexivity|].
  cbn [map]. apply concat_chars.
Qed.

Lemma items_read_back l :
  Forall (read_back float_repr) l ->
  forall l' r r',
    joined_tail (map dmp l) (chars "]" ++ r)
    = joined_tail (map dmp l') (chars "]" ++ r') ->
    Forall2 same_text l l' /\ r = r'.
Proof.
  induction 1 as [|x l Hx _ IH]; intros [|y l'] r r' H;
    cbn [map joined_tail] in H; try discriminate.
  - injection H as ->. now split.
  - apply app_inv_head in H.
    apply Hx in H as [Hxy H]; try (apply follows_joined_tail; reflexivity).
    apply IH in H as [Hl ->]. split; [now constructor | reflexivity].
Qed.

Lemma entry_head kv :
  exists t, chars (entry_text float_repr kv) = dquote :: t.
Proof.
  unfold entry_text. rewrite chars_app, quoted_chars. cbn [app]. eauto.
Qed.

Lemma entry_read_back kv kv' t t' :
  read_back float_repr (snd kv) -> follows t -> follows t' ->
  chars (entry_text float_repr kv) ++ t
  = chars (entry_text float_repr kv') ++ t' ->
  (fst kv = fst kv' /\ same_text (snd kv) (snd kv')) /\ t = t'.
Proof.
  intros Hkv Ht Ht' H. unfold entry_text in H.
  rewrite !chars_app, <- !app_assoc in H.
  apply quoted_inj in H as [Hk H]. apply app_inv_head in H.
  apply Hkv in H as [Hv H]; try assumption. now repeat split.
Qed.

Lemma entries_read_back l :
  Forall (fun kv => read_back float_repr (snd kv)) l ->
  forall l' r r',
    joined_tail (map (entry_text float_repr) l) (chars "}" ++ r)
    = joined_tail (map (entry_text float_repr) l') (chars "}" ++ r') ->
    Forall2 (fun kv kv' => fst kv = fst kv' /\ same_text (snd kv) (snd kv'))
      l l' /\ r = r'.
Proof.
  induction 1 as [|kv l Hkv _ IH]; intros [|kv' l'] r r' H;
    cbn [map joined_tail] in H; try discriminate.
  - injection H as ->. now split.
  - apply app_inv_head in H.
    apply entry_read_back in H as [Hv H];
      try assumption; try (apply follows_joined_tail; reflexivity).
    apply IH in H as [Hl ->]. split; [now constructor | reflexivity].
Qed.

(** The serialization can be read back: two values with the same text
    are alike. *)
Lemma dumps_read_back x : read_back float_repr x.
Proof.
  induction x as [| | | |s|items IH|entries IH] using value_nested_ind;
    try (now apply leaf_read_back).
  - intros y r r' Hr Hr' H. pose proof (opening_agree _ _ _ _ H) as Ho.
    destruct y; try discriminate. cbn [dumps] in H.
    apply quoted_inj in H as [-> ->]. split; [constructor | reflexivity].
  - intros y r r' Hr Hr' H. pose proof (opening_agree _ _ _ _ H) as Ho.
    destruct y as [| | | | |items'|]; try discriminate.
    rewrite !list_text in H. apply app_inv_head in H.
    destruct items as [|x l], items' as [|x' l'].
    + injection H as ->. split; [repeat constructor | reflexivity].
    + exfalso. destruct (dumps_head_opens x') as (c & t & Ht & Hc & _).
      rewrite Ht in H. cbn in H. injection H as <- _. now apply Hc.
    + exfalso. destruct (dumps_head_opens x) as (c & t & Ht & Hc & _).
      rewrite Ht in H. cbn in H. injection H as -> _. now apply Hc.
    + inversion IH as [|? ? Hx Hl]; subst.
      apply Hx in H as [Hxx H]; try (apply follows_joined_tail; reflexivity).
      apply (items_read_back l Hl) in H as [Hll ->].
      split; [|reflexivity]. constructor. now constructor.
  - intros y r r' Hr Hr' H. pose proof (opening_agree _ _ _ _ H) as Ho.
    destruct y as [| | | | | |entries']; try discriminate.
    rewrite !dict_text in H. apply app_inv_head in H.
    assert (Hs : Forall (fun kv => read_back float_repr (snd kv))
                   (sort_by_key entries)).
    { eapply Permutation_Forall; [|exact IH].
      symmetry. apply sort_by_key_perm. }
    assert (G : Forall2 (fun kv kv' =>
                           fst kv = fst kv' /\ same_text (snd kv) (snd kv'))
                  (sort_by_key entries) (sort_by_key entries') /\ r = r').
    { destruct (sort_by_key entries) as [|kv l],
        (sort_by_key entries') as [|kv' l'].
      - injection H as ->. now split.
      - exfalso. destruct (entry_head kv') as [t Ht]. rewrite Ht in H.
        discriminate H.
      - exfalso. destruct (entry_head kv) as [t Ht]. rewrite Ht in H.
        discriminate H.
      - inversion Hs as [|? ? Hkv Hl]; subst.
        apply entry_read_back in H as [Hv H];
          try assumption; try (apply follows_joined_tail; reflexivity).
        apply (entries_read_back l Hl) in H as [Hll ->].
        split; [now constructor | reflexivity]. }
    destruct G as [G ->]. split; [|reflexivity].
    eapply alike_dict; [| |exact G]; symmetry; apply sort_by_key_perm.
Qed.

Lemma dumps_inj x y : dmp x = dmp y -> same_text x y.
Proof.
  intros H. destruct (dumps_read_back x y [] []) as [Ha _]; try exact I.
  - now rewrite H.
  - exact Ha.
Qed.
End serialization.

(** ** First occurrences, by key *)

Lemma uint_int_chars d :
  forallb int_char (chars (NilEmpty.string_of_uint d)) = true.
Proof. induction d; cbn; auto. Qed.

Lemma int_repr_int_chars n : forallb int_char (chars (int_repr n)) = true.
Proof.
  unfold int_repr, NilZero.string_of_int, NilZero.string_of_uint.
  destruct (Z.to_int n) as [d|d]; destruct d; cbn; auto using uint_int_chars;
    apply (uint_int_chars d).
Qed.

Lemma half_float_repr_sound : float_repr_sound half_float_repr.
Proof.
  intros f _. split; [discriminate|]. split; [reflexivity|].
  intros n E. pose proof (int_repr_int_chars n) as H.
  unfold half_float_repr in E. rewrite <- E in H. discriminate.
Qed.




(** ** The streams entry *)

Lemma sorted_across_raises u :
  Forall (fun x => is_number x || is_text x = true) u ->
  Exists (fun x => is_number x = true) u ->
  Exists (fun x => is_text x = true) u ->
  sorted u = Raise TypeError.
Proof.
  intros Hk Hn Ht. unfold sorted, sorted_by.
  destruct u as [|x u]; [inversion Hn|].
  cbn [sorted_loop sorted_insert bind].
  inversion Hk as [|? ? Hx Hu]; subst.
  assert (Hexcl : forall a, is_text a = true -> is_number a = false)
    by (intros a; destruct a; try discriminate; reflexivity).
  destruct (is_number x) eqn:Nx.
  - rewrite (sorted_loop_across is_number is_text u [x]);
      try reflexivity; try assumption.
    + apply py_lt_numbers.
    + intros a b Ha Hb. apply py_lt_across. auto.
    + discriminate.
    + now constructor.
    + inversion Ht as [? ? Tx|]; subst; [|assumption].
      apply Hexcl in Tx. congruence.
  - cbn [orb] in Hx.
    rewrite (sorted_loop_across is_text is_number u [x]);
      try reflexivity; try assumption.
    + apply py_lt_texts.
    + intros a b Ha Hb. apply py_lt_across. auto.
    + intros a Ha. destruct (is_text a) eqn:Ta; [|reflexivity].
      apply Hexcl in Ta. congruence.
    + discriminate.
    + now constructor.
    + eapply List.Forall_impl; [|exact Hu]. intros a Ha.
      now rewrite Bool.orb_comm.
    + inversion Hn as [? ? Nx'|]; subst; [congruence | assumption].
Qed.



Lemma not_above_nan x :
  In x [VInt 2; VInt 1] -> ~ not_above nan x /\ ~ not_above x nan.
Proof.
  intros [<-|[<-|[]]]; split; intros [H|H]; vm_compute in H; discriminate.
Qed.

